(** * Keyframe animation sampling of the Vulkan-Samples scene graph

    A shallow embedding of [framework/scene_graph/components/animation.h] and
    [animation.cpp]: the keyframe sampler ([AnimationSampler]), the channel
    that binds a sampler to a node property ([AnimationChannel]) and the clip
    with its playback clock ([Animation]), followed by the properties the
    specification states about them.

    The C++ code computes in [float].  The embedding is written once over an
    interface of the arithmetic it uses ([FloatArith], [Trig]) and is then
    read in two ways:
    - over IEEE-754 binary32 ([binary32]), built on the Standard Library's
      [SpecFloat] with 24 bits of precision: this is what the machine
      computes, infinities, NaN and rounding included;
    - over the real numbers ([R]): the exact arithmetic that the
      specification's formulas and tolerances refer to.

    Out-of-range subscripts of [std::vector] and of [glm::vec4], and a
    dangling node pointer, are undefined behaviour in the source; every
    function that may meet one returns [option], and [None] stands for it.

    The module [Vk] embeds [framework/core/instance.cpp], the wrapper of
    the Vulkan instance; its properties and further properties of the
    animation code close the development. *)

From Stdlib Require Import ZArith List Reals Lra Lia.
From Stdlib Require Import Floats.SpecFloat.
From stdpp Require Import base option list strings.

Local Open Scope Z_scope.

(** ** Machine integers

    [size_t] is taken to be 64 bits wide and [uint32_t] is 32 bits wide;
    both are unsigned and wrap around. *)

Module Wrap.

Definition size_t_mod : Z := 2 ^ 64.
Definition uint32_mod : Z := 2 ^ 32.

Definition size_t (z : Z) : Z := z mod size_t_mod.
Definition uint32 (z : Z) : Z := z mod uint32_mod.

(** [v.size()] *)
Definition size {A} (v : list A) : Z := Z.of_nat (length v).

(** [v[i]] for an unsigned [i]; [None] when [i] is not below [v.size()]. *)
Definition at_ {A} (v : list A) (i : Z) : option A := v !! Z.to_nat i.

End Wrap.

(** ** The arithmetic the code uses *)

(** The operations on [float] that appear in the source, with the literals
    and the two [std::numeric_limits<float>] members it names.  [a > b] and
    [a >= b] are read as [b < a] and [b <= a]. *)
Class FloatArith (F : Type) := {
  f_zero : F;                      (* 0.0f *)
  f_one : F;                       (* 1.0f *)
  f_two : F;                       (* 2.0f *)
  f_three : F;                     (* 3.0f *)
  f_limits_max : F;                (* std::numeric_limits<float>::max() *)
  f_limits_min : F;                (* std::numeric_limits<float>::min() *)
  f_epsilon : F;                   (* glm::epsilon<float>() *)
  f_add : F -> F -> F;
  f_sub : F -> F -> F;
  f_mul : F -> F -> F;
  f_div : F -> F -> F;
  f_neg : F -> F;
  f_lt : F -> F -> bool;
  f_le : F -> F -> bool;
  f_sqrt : F -> F;
  f_pow : F -> Z -> F              (* pow(t, n) for an integer literal n *)
}.

(** The trigonometric functions [glm::slerp] calls. *)
Class Trig (F : Type) := {
  f_acos : F -> F;
  f_sin : F -> F
}.

(** Which values are numbers, and when two of them are equal as [==] has
    it: in [float] an infinity and NaN are not numbers, and the two zeros
    are equal to each other. *)
Class Exactness (F : Type) := {
  f_finite : F -> Prop;
  f_same : F -> F -> Prop
}.

Declare Scope float_scope.
Delimit Scope float_scope with flt.
Infix "+" := f_add : float_scope.
Infix "-" := f_sub : float_scope.
Infix "*" := f_mul : float_scope.
Infix "/" := f_div : float_scope.
Notation "- x" := (f_neg x) : float_scope.
Infix "<?" := f_lt : float_scope.
Infix "<=?" := f_le : float_scope.
Notation "a >? b" := (f_lt b a) : float_scope.
Notation "a >=? b" := (f_le b a) : float_scope.

(** [std::max(a, b)] is [(a < b) ? b : a]. *)
Definition std_max {F} `{FloatArith F} (a b : F) : F :=
  if (a <? b)%flt then b else a.

(** ** glm vectors and quaternions *)

Record vec3 (F : Type) := Vec3 { v3x : F; v3y : F; v3z : F }.
Record vec4 (F : Type) := Vec4 { v4x : F; v4y : F; v4z : F; v4w : F }.
Record quat (F : Type) := Quat { qx : F; qy : F; qz : F; qw : F }.

Arguments Vec3 {F}. Arguments v3x {F}. Arguments v3y {F}. Arguments v3z {F}.
Arguments Vec4 {F}. Arguments v4x {F}. Arguments v4y {F}. Arguments v4z {F}.
Arguments v4w {F}.
Arguments Quat {F}. Arguments qx {F}. Arguments qy {F}. Arguments qz {F}.
Arguments qw {F}.

(** The conversion [glm::vec3(glm::vec4)] that the calls of
    [set_translation] and [set_scale] go through: it drops [w]. *)
Definition vec3_of_vec4 {F} (v : vec4 F) : vec3 F :=
  Vec3 (v4x v) (v4y v) (v4z v).

(** [pt[i] = x] on a [glm::vec4]; a subscript of 4 or more is out of range. *)
Definition vec4_set {F} (pt : vec4 F) (i : Z) (x : F) : option (vec4 F) :=
  match i with
  | 0 => Some (Vec4 x (v4y pt) (v4z pt) (v4w pt))
  | 1 => Some (Vec4 (v4x pt) x (v4z pt) (v4w pt))
  | 2 => Some (Vec4 (v4x pt) (v4y pt) x (v4w pt))
  | 3 => Some (Vec4 (v4x pt) (v4y pt) (v4z pt) x)
  | _ => None
  end.

(** [pt[i]] read back. *)
Definition vec4_get {F} (pt : vec4 F) (i : Z) : option F :=
  match i with
  | 0 => Some (v4x pt)
  | 1 => Some (v4y pt)
  | 2 => Some (v4z pt)
  | 3 => Some (v4w pt)
  | _ => None
  end.

(** The member-wise copy [q.x = v.x; q.y = v.y; q.z = v.z; q.w = v.w]. *)
Definition quat_of_vec4 {F} (v : vec4 F) : quat F :=
  Quat (v4x v) (v4y v) (v4z v) (v4w v).

Section Glm.

Context {F : Type} `{FloatArith F} `{Trig F}.
Local Open Scope float_scope.

(** Modelled from the spec: [glm::mix] of the GLM library, which is not
    part of the sources at hand; "component-wise linear interpolation
    between [values[i]] and [values[i+1]] using [fraction]", in GLM's form
    [x * (1 - a) + y * a]. *)
Definition mix (x y a : F) : F := x * (f_one - a) + y * a.

Definition mix4 (x y : vec4 F) (a : F) : vec4 F :=
  Vec4 (mix (v4x x) (v4x y) a) (mix (v4y x) (v4y y) a)
       (mix (v4z x) (v4z y) a) (mix (v4w x) (v4w y) a).

(** Modelled from the spec: [glm::dot] and [glm::length] on quaternions
    (GLM, not part of the sources at hand): the Euclidean inner product
    and the magnitude the spec's "magnitude 1" refers to. *)
Definition dot (a b : quat F) : F :=
  (qw a * qw b + qx a * qx b) + (qy a * qy b + qz a * qz b).

Definition length_quat (q : quat F) : F := f_sqrt (dot q q).

(** Modelled from the spec: [glm::normalize] on quaternions (GLM, not part
    of the sources at hand), the spec's "unit normalization": division by
    the magnitude, and the identity rotation for a quaternion of
    magnitude zero. *)
Definition normalize (q : quat F) : quat F :=
  let len := length_quat q in
  if len <=? f_zero then Quat f_zero f_zero f_zero f_one
  else
    let oneOverLen := f_one / len in
    Quat (qx q * oneOverLen) (qy q * oneOverLen) (qz q * oneOverLen)
         (qw q * oneOverLen).

(** Modelled from the spec: [glm::slerp] (GLM, not part of the sources at
    hand), the spec's "spherical interpolation": the shorter arc is taken,
    and nearly parallel quaternions are blended linearly. *)
Definition slerp (x y : quat F) (a : F) : quat F :=
  let cosTheta := dot x y in
  let z := if cosTheta <? f_zero
           then Quat (- qx y) (- qy y) (- qz y) (- qw y) else y in
  let cosTheta := if cosTheta <? f_zero then - cosTheta else cosTheta in
  if cosTheta >? f_one - f_epsilon then
    Quat (mix (qx x) (qx z) a) (mix (qy x) (qy z) a)
         (mix (qz x) (qz z) a) (mix (qw x) (qw z) a)
  else
    let angle := f_acos cosTheta in
    let sx := f_sin ((f_one - a) * angle) in
    let sz := f_sin (a * angle) in
    let d := f_sin angle in
    Quat ((qx x * sx + qx z * sz) / d) ((qy x * sx + qy z * sz) / d)
         ((qz x * sx + qz z * sz) / d) ((qw x * sx + qw z * sz) / d).

End Glm.

(** ** The scene node's transform *)

(** Modelled from the spec: the scene node's [Transform] (declared in
    [scene_graph/components/transform.h], not part of the sources at hand),
    "where [Transform] exposes [set_translation(vec3)],
    [set_rotation(quaternion)], [set_scale(vec3)]"; each setter overwrites
    its property. *)
Record Transform (F : Type) := mkTransform {
  translation : vec3 F;
  rotation : quat F;
  scale_ : vec3 F
}.
Arguments mkTransform {F}. Arguments translation {F}. Arguments rotation {F}.
Arguments scale_ {F}.

Definition set_translation {F} (tr : Transform F) (v : vec3 F) : Transform F :=
  mkTransform v (rotation tr) (scale_ tr).
Definition set_rotation {F} (tr : Transform F) (q : quat F) : Transform F :=
  mkTransform (translation tr) q (scale_ tr).
Definition set_scale {F} (tr : Transform F) (v : vec3 F) : Transform F :=
  mkTransform (translation tr) (rotation tr) v.

(** ** animation.h *)

Inductive PathType := TRANSLATION | ROTATION | SCALE.
Inductive InterpolationType := LINEAR | STEP | CUBICSPLINE.

(** The property of a node's transform that a channel of the given path
    drives: a vector for a translation or a scale, a quaternion for a
    rotation. *)
Definition property {F} (p : PathType) (tr : Transform F)
    : vec3 F + quat F :=
  match p with
  | TRANSLATION => inl (translation tr)
  | ROTATION => inr (rotation tr)
  | SCALE => inl (scale_ tr)
  end.

(** The stored keyframe [v] written to the property a path drives, [w]
    dropped for a translation or a scale. *)
Definition set_keyframe {F} (p : PathType) (tr : Transform F) (v : vec4 F)
    : Transform F :=
  match p with
  | TRANSLATION => set_translation tr (vec3_of_vec4 v)
  | ROTATION => set_rotation tr (quat_of_vec4 v)
  | SCALE => set_scale tr (vec3_of_vec4 v)
  end.

(** [samplerIndex] is a [uint32_t], a [Z] that is never negative.  [node] is
    a pointer in the source; here it is the position of the node's transform
    in the scene's node table. *)
Record AnimationChannel := mkChannel {
  path : PathType;
  samplerIndex : Z;
  node : nat
}.

Record AnimationSampler (F : Type) := mkSampler {
  interpolation : InterpolationType;
  inputs : list F;
  outputsVec4 : list (vec4 F);
  outputs : list F
}.
Arguments mkSampler {F}. Arguments interpolation {F}. Arguments inputs {F}.
Arguments outputsVec4 {F}. Arguments outputs {F}.

Record Animation (F : Type) := mkAnimation {
  current_time : F;
  animation_samplers : list (AnimationSampler F);
  animation_channels : list AnimationChannel;
  start : F;
  end_ : F
}.
Arguments mkAnimation {F}. Arguments current_time {F}.
Arguments animation_samplers {F}. Arguments animation_channels {F}.
Arguments start {F}. Arguments end_ {F}.

(** The constructor [Animation::Animation(name)] with the default member
    initialisers of the class. *)
Definition Animation_new {F} `{FloatArith F} : Animation F :=
  {| current_time := f_zero;
     animation_samplers := [];
     animation_channels := [];
     start := f_limits_max;
     end_ := f_limits_min |}.

(** ** animation.cpp: the sampler *)

Section Sampler.

Context {F : Type} `{FloatArith F} `{Trig F}.
Local Open Scope float_scope.
Import Wrap.

(** The expression
    [std::max(0.0f, time - inputs[index]) / (inputs[index + 1] - inputs[index])],
    which the LINEAR cases of [translate], [scale] and [rotate] and the
    segment loop of [update] each spell out. *)
Definition fraction (s : AnimationSampler F) (index : Z) (time : F) : option F :=
  t0 ← at_ (inputs s) index;
  t1 ← at_ (inputs s) (size_t (index + 1));
  Some (std_max f_zero (time - t0) / (t1 - t0)).

(** [auto delta = inputs[index + 1] - inputs[index];] *)
Definition cubic_delta (s : AnimationSampler F) (index : Z) : option F :=
  t1 ← at_ (inputs s) (size_t (index + 1));
  t0 ← at_ (inputs s) index;
  Some (t1 - t0).

(** [auto t = (time - inputs[index]) / delta;] *)
Definition cubic_t (s : AnimationSampler F) (index : Z) (time : F) : option F :=
  delta ← cubic_delta s index;
  t0 ← at_ (inputs s) index;
  Some ((time - t0) / delta).

(** One turn of the loop over [i] in [cubicSplineInterpolation]: the four
    reads of [outputs] and the assignment to [pt[i]]. *)
Definition cubic_component (s : AnimationSampler F) (delta t : F)
    (current next stride : Z) (i : Z) (pt : vec4 F) : option (vec4 F) :=
  let A := 0%Z in
  let V := uint32 (stride * 1) in
  let B := uint32 (stride * 2) in
  let t2 := f_pow t 2 in
  let t3 := f_pow t 3 in
  p0 ← at_ (outputs s) (uint32 (uint32 (current + i) + V));
  a0 ← at_ (outputs s) (uint32 (uint32 (current + i) + A));
  let m0 := delta * a0 in
  p1 ← at_ (outputs s) (uint32 (uint32 (next + i) + V));
  b1 ← at_ (outputs s) (uint32 (uint32 (next + i) + B));
  let m1 := delta * b1 in
  vec4_set pt i
    (((f_two * t3 - f_three * t2 + f_one) * p0)
     + ((t3 - f_two * t2 + t) * m0)
     + ((- f_two * t3 + f_three * t2) * p1)
     + ((t3 - t2) * m0)).

(** [for (uint32_t i = 0; i < stride; i++)]: [n] turns from [i] on. *)
Fixpoint cubic_components (s : AnimationSampler F) (delta t : F)
    (current next stride : Z) (n : nat) (i : Z) (pt : vec4 F)
    : option (vec4 F) :=
  match n with
  | O => Some pt
  | S n' =>
      pt' ← cubic_component s delta t current next stride i pt;
      cubic_components s delta t current next stride n' (uint32 (i + 1)) pt'
  end.

(** [AnimationSampler::cubicSplineInterpolation].  The local [pt] is
    declared without an initialiser; [pt0] stands for what it holds before
    the loop (see [cubicSplineInterpolation_pt0] below). *)
Definition cubicSplineInterpolation_from (pt0 : vec4 F)
    (s : AnimationSampler F) (index : Z) (time : F) (stride : Z)
    : option (vec4 F) :=
  delta ← cubic_delta s index;
  t ← cubic_t s index time;
  let current := uint32 (size_t (size_t (index * stride) * 3)) in
  let next := uint32 (size_t (size_t (size_t (index + 1) * stride) * 3)) in
  cubic_components s delta t current next stride (Z.to_nat stride) 0 pt0.

Definition cubicSplineInterpolation :=
  cubicSplineInterpolation_from (Vec4 f_zero f_zero f_zero f_zero).

(** [AnimationSampler::translate], on the transform of the node. *)
Definition translate (s : AnimationSampler F) (index : Z) (time : F)
    (transform : Transform F) : option (Transform F) :=
  match interpolation s with
  | LINEAR =>
      u ← fraction s index time;
      a ← at_ (outputsVec4 s) index;
      b ← at_ (outputsVec4 s) (size_t (index + 1));
      Some (set_translation transform (vec3_of_vec4 (mix4 a b u)))
  | STEP =>
      a ← at_ (outputsVec4 s) index;
      Some (set_translation transform (vec3_of_vec4 a))
  | CUBICSPLINE =>
      pt ← cubicSplineInterpolation s index time 3;
      Some (set_translation transform (vec3_of_vec4 pt))
  end.

(** [AnimationSampler::scale]. *)
Definition scale (s : AnimationSampler F) (index : Z) (time : F)
    (transform : Transform F) : option (Transform F) :=
  match interpolation s with
  | LINEAR =>
      u ← fraction s index time;
      a ← at_ (outputsVec4 s) index;
      b ← at_ (outputsVec4 s) (size_t (index + 1));
      Some (set_scale transform (vec3_of_vec4 (mix4 a b u)))
  | STEP =>
      a ← at_ (outputsVec4 s) index;
      Some (set_scale transform (vec3_of_vec4 a))
  | CUBICSPLINE =>
      pt ← cubicSplineInterpolation s index time 3;
      Some (set_scale transform (vec3_of_vec4 pt))
  end.

(** [AnimationSampler::rotate]. *)
Definition rotate (s : AnimationSampler F) (index : Z) (time : F)
    (transform : Transform F) : option (Transform F) :=
  match interpolation s with
  | LINEAR =>
      u ← fraction s index time;
      a ← at_ (outputsVec4 s) index;
      let q1 := quat_of_vec4 a in
      b ← at_ (outputsVec4 s) (size_t (index + 1));
      let q2 := quat_of_vec4 b in
      Some (set_rotation transform (normalize (slerp q1 q2 u)))
  | STEP =>
      a ← at_ (outputsVec4 s) index;
      let q1 := quat_of_vec4 a in
      Some (set_rotation transform q1)
  | CUBICSPLINE =>
      rot ← cubicSplineInterpolation s index time 4;
      let q := quat_of_vec4 rot in
      Some (set_rotation transform (normalize q))
  end.

End Sampler.

(** ** animation.cpp: the clip *)

Section Clip.

Context {F : Type} `{FloatArith F} `{Trig F}.
Local Open Scope float_scope.
Import Wrap.

(** The scene's nodes, each reduced to its transform; a channel's [node]
    points into this table. *)
Local Abbreviation Nodes := (list (Transform F)).

(** The [switch (animation_channel.path)] of [update]. *)
Definition apply_path (p : PathType) (s : AnimationSampler F) (i : Z)
    (time : F) (transform : Transform F) : option (Transform F) :=
  match p with
  | TRANSLATION => translate s i time transform
  | SCALE => scale s i time transform
  | ROTATION => rotate s i time transform
  end.

(** The call [sampler.translate(i, current_time, *channel.node)] (or
    [scale], [rotate]) with its effect on the pointed node. *)
Definition apply_segment (c : AnimationChannel) (s : AnimationSampler F)
    (i : Z) (time : F) (nodes : Nodes) : option Nodes :=
  transform ← nodes !! node c;
  transform' ← apply_path (path c) s i time transform;
  Some (<[node c := transform']> nodes).

(** The body of the loop over the segments, for the segment [i]. *)
Definition segment_step (time : F) (c : AnimationChannel)
    (s : AnimationSampler F) (i : Z) (nodes : Nodes) : option Nodes :=
  t0 ← at_ (inputs s) i;
  if time >=? t0 then
    t1 ← at_ (inputs s) (size_t (i + 1));
    if time <=? t1 then
      u ← fraction s i time;
      if u <=? f_one then apply_segment c s i time nodes
      else Some nodes
    else Some nodes
  else Some nodes.

(** [for (size_t i = ...; i < bound; i++)]: [n] turns from [i] on.  The
    loop counts [i] up from 0 and nothing in its body changes [i] or the
    bound, so it makes as many turns as the bound says, unless a turn is
    undefined. *)
Fixpoint segments (time : F) (c : AnimationChannel) (s : AnimationSampler F)
    (n : nat) (i : Z) (nodes : Nodes) : option Nodes :=
  match n with
  | O => Some nodes
  | S n' =>
      nodes' ← segment_step time c s i nodes;
      segments time c s n' (size_t (i + 1)) nodes'
  end.

(** The body of the loop over the channels: the sampler is looked up, a
    sampler with more time stamps than values is passed over, and the
    segments from [0] up to [inputs.size() - 1] (an unsigned difference)
    are visited. *)
Definition update_channel (a : Animation F) (c : AnimationChannel)
    (nodes : Nodes) : option Nodes :=
  s ← at_ (animation_samplers a) (samplerIndex c);
  if (size (inputs s) >? size (outputsVec4 s))%Z then Some nodes
  else
    segments (current_time a) c s
      (Z.to_nat (size_t (size (inputs s) - 1))) 0 nodes.

(** [for (auto &animation_channel : animation_channels)] *)
Fixpoint update_channels (a : Animation F) (cs : list AnimationChannel)
    (nodes : Nodes) : option Nodes :=
  match cs with
  | [] => Some nodes
  | c :: cs' =>
      nodes' ← update_channel a c nodes;
      update_channels a cs' nodes'
  end.

(** The last statements of [update]: the clock moves on and falls back to
    zero once it is past [end]. *)
Definition advance_clock (a : Animation F) (delta_time : F) : Animation F :=
  let t := current_time a + delta_time in
  {| current_time := if t >? end_ a then f_zero else t;
     animation_samplers := animation_samplers a;
     animation_channels := animation_channels a;
     start := start a;
     end_ := end_ a |}.

(** [Animation::update]. *)
Definition update (a : Animation F) (nodes : Nodes) (delta_time : F)
    : option (Animation F * Nodes) :=
  nodes' ← update_channels a (animation_channels a) nodes;
  Some (advance_clock a delta_time, nodes').

End Clip.

(** ** IEEE-754 binary32 *)

Module Binary32.

Definition prec : Z := 24.
Definition emax : Z := 128.

Definition binary32 := spec_float.

(** A finite value as [float] holds it, rounded to nearest even. *)
Definition round (x : spec_float) : binary32 :=
  match x with
  | S754_finite s m e => binary_round prec emax s m e
  | _ => x
  end.

(** [pow] of [<cmath>] takes and returns [double]; its result is converted
    back on assignment to a [float].  The code passes the exponents 2 and 3
    only, for which [pow] is taken to be the correctly rounded product in
    binary64 (exact for the square of a [float]). *)
Definition pow (x : binary32) (n : Z) : binary32 :=
  let mul := SFmul 53 1024 in
  round (Z.iter (n - 1) (fun y => mul y x) x).

Definition zero : binary32 := S754_zero false.
Definition one : binary32 := S754_finite false 8388608 (-23).
Definition two : binary32 := S754_finite false 8388608 (-22).
Definition three : binary32 := S754_finite false 12582912 (-22).

(** [FLT_MAX], [FLT_MIN] and [FLT_EPSILON]. *)
Definition limits_max : binary32 := S754_finite false 16777215 104.
Definition limits_min : binary32 := S754_finite false 8388608 (-149).
Definition epsilon : binary32 := S754_finite false 8388608 (-46).

#[global] Instance arith : FloatArith binary32 := {|
  f_zero := zero;
  f_one := one;
  f_two := two;
  f_three := three;
  f_limits_max := limits_max;
  f_limits_min := limits_min;
  f_epsilon := epsilon;
  f_add := SFadd prec emax;
  f_sub := SFsub prec emax;
  f_mul := SFmul prec emax;
  f_div := SFdiv prec emax;
  f_neg := SFopp;
  f_lt := SFltb;
  f_le := SFleb;
  f_sqrt := SFsqrt prec emax;
  f_pow := pow
|}.

(** Neither an infinity nor NaN. *)
Definition is_finite (x : binary32) : bool :=
  match x with
  | S754_zero _ | S754_finite _ _ _ => true
  | _ => false
  end.

#[global] Instance exactness : Exactness binary32 := {|
  f_finite := fun x => is_finite x = true /\ valid_binary prec emax x = true;
  f_same := fun x y => SFeqb x y = true
|}.

(** The value [n / d] as a [float] literal would hold it. *)
Definition of_ratio (n d : Z) : binary32 :=
  SFdiv prec emax (binary_normalize prec emax n 0 false)
                  (binary_normalize prec emax d 0 false).

End Binary32.

(** ** Exact arithmetic *)

Module Exact.

Definition Rltb (a b : R) : bool := if Rlt_dec a b then true else false.
Definition Rleb (a b : R) : bool := if Rle_dec a b then true else false.

#[global] Instance arith : FloatArith R := {|
  f_zero := 0%R;
  f_one := 1%R;
  f_two := 2%R;
  f_three := 3%R;
  f_limits_max := (16777215 * 2 ^ 104)%R;
  f_limits_min := (/ 2 ^ 126)%R;
  f_epsilon := (/ 2 ^ 23)%R;
  f_add := Rplus;
  f_sub := Rminus;
  f_mul := Rmult;
  f_div := Rdiv;
  f_neg := Ropp;
  f_lt := Rltb;
  f_le := Rleb;
  f_sqrt := sqrt;
  f_pow := fun x n => (x ^ Z.to_nat n)%R
|}.

#[global] Instance trig : Trig R := {|
  f_acos := acos;
  f_sin := sin
|}.

#[global] Instance exactness : Exactness R := {|
  f_finite := fun _ => True;
  f_same := eq
|}.

End Exact.

(** Comparisons of concrete reals are settled by [lra]; [real_eval] unfolds
    the embedding down to the real operations and settles every comparison
    it meets. *)
Ltac real_cmp :=
  repeat match goal with
  | |- context [Exact.Rltb ?a ?b] =>
      first
        [ replace (Exact.Rltb a b) with true
            by (unfold Exact.Rltb; destruct (Rlt_dec a b); [reflexivity | exfalso; lra])
        | replace (Exact.Rltb a b) with false
            by (unfold Exact.Rltb; destruct (Rlt_dec a b); [exfalso; lra | reflexivity]) ]
  | |- context [Exact.Rleb ?a ?b] =>
      first
        [ replace (Exact.Rleb a b) with true
            by (unfold Exact.Rleb; destruct (Rle_dec a b); [reflexivity | exfalso; lra])
        | replace (Exact.Rleb a b) with false
            by (unfold Exact.Rleb; destruct (Rle_dec a b); [exfalso; lra | reflexivity]) ]
  end.

Ltac real_step :=
  cbv -[Exact.Rleb Exact.Rltb Rplus Rminus Rmult Rdiv Ropp Rinv IZR sqrt pow acos sin].

Ltac real_eval := real_step; repeat (progress real_cmp; real_step).

(** ** The specification's side *)

Section Specification.

Context {F : Type} `{FloatArith F}.
Local Open Scope float_scope.
Import Wrap.

(** The layout the spec gives to a CUBIC track: "per keyframe, an
    in-tangent, a value, and an out-tangent (3 x stride floats per
    keyframe)".  [c] is the component. *)
Definition in_tangent (s : AnimationSampler F) (stride k c : Z) : option F :=
  at_ (outputs s) (k * (3 * stride) + c).
Definition value (s : AnimationSampler F) (stride k c : Z) : option F :=
  at_ (outputs s) (k * (3 * stride) + stride + c).
Definition out_tangent (s : AnimationSampler F) (stride k c : Z) : option F :=
  at_ (outputs s) (k * (3 * stride) + 2 * stride + c).

(** The Hermite formula as the spec writes it:
    [(2t3 - 3t2 + 1)*p0 + (t3 - 2t2 + t)*m0 + (-2t3 + 3t2)*p1 + (t3 - t2)*m1]
    with [t2 = t*t] and [t3 = t*t*t]. *)
Definition hermite (p0 m0 p1 m1 t : F) : F :=
  let t2 := t * t in
  let t3 := t * t * t in
  ((f_two * t3 - f_three * t2 + f_one) * p0)
  + ((t3 - f_two * t2 + t) * m0)
  + ((- f_two * t3 + f_three * t2) * p1)
  + ((t3 - t2) * m1).

(** The component [c] of the spec's CUBIC evaluation of the segment [i]:
    [p0 = value[i]], [m0 = delta * out_tangent[i]], [p1 = value[i+1]],
    [m1 = delta * in_tangent[i+1]], [t] the fraction. *)
Definition hermite_spec (s : AnimationSampler F) (i : Z) (time : F)
    (stride c : Z) : option F :=
  t0 ← at_ (inputs s) i;
  t1 ← at_ (inputs s) (i + 1);
  let delta := t1 - t0 in
  t ← fraction s i time;
  p0 ← value s stride i c;
  o0 ← out_tangent s stride i c;
  p1 ← value s stride (i + 1) c;
  n1 ← in_tangent s stride (i + 1) c;
  Some (hermite p0 (delta * o0) p1 (delta * n1) t).


Definition keyframe4 (s : AnimationSampler F) (k : Z) : option (quat F) :=
  match interpolation s with
  | CUBICSPLINE =>
      x ← value s 4 k 0; y ← value s 4 k 1; z ← value s 4 k 2;
      w ← value s 4 k 3;
      Some (Quat x y z w)
  | _ => quat_of_vec4 <$> at_ (outputsVec4 s) k
  end.


(** What the clock's wrap-around needs of the arithmetic: zero is not below
    zero, and a sum of two values that are not below zero is not below zero. *)
Class ClockLaws : Prop := {
  zero_ge_zero : (f_zero >=? f_zero) = true;
  add_ge_zero : forall x y : F,
    (x >=? f_zero) = true -> (y >=? f_zero) = true ->
    (x + y >=? f_zero) = true
}.

(** What keeps the clock from staying past [end]: zero is not above a bound
    that is not below zero. *)
Class EndLaws : Prop := {
  zero_not_past : forall e : F, (e >=? f_zero) = true -> (f_zero >? e) = false
}.

(** The four coefficients of [cubicSplineInterpolation] as the code writes
    them, and the combination it assigns to [pt[i]]: the last term takes
    [m0] again. *)
Definition hermite_p0 (t : F) : F :=
  f_two * f_pow t 3 - f_three * f_pow t 2 + f_one.
Definition hermite_m0 (t : F) : F := f_pow t 3 - f_two * f_pow t 2 + t.
Definition hermite_p1 (t : F) : F := - f_two * f_pow t 3 + f_three * f_pow t 2.
Definition hermite_m1 (t : F) : F := f_pow t 3 - f_pow t 2.

Definition code_spline (p0 m0 p1 t : F) : F :=
  hermite_p0 t * p0 + hermite_m0 t * m0 + hermite_p1 t * p1
  + hermite_m1 t * m0.

(** The quaternion [-q], which stands for the same rotation as [q]. *)
Definition quat_neg (q : quat F) : quat F :=
  Quat (- qx q) (- qy q) (- qz q) (- qw q).

(** What the clamp of the fraction gives: for a segment of positive length
    the clamped fraction is not below zero. *)
Class FractionLaws : Prop := {
  clamped_not_negative : forall x d : F,
    (f_zero <? d) = true -> (std_max f_zero x / d <? f_zero) = false
}.

(** The components a path animates: [cubicSplineInterpolation] is called
    with 3 by [translate] and [scale] and with 4 by [rotate]. *)
Definition stride_of (p : PathType) : Z :=
  match p with
  | ROTATION => 4
  | _ => 3
  end.

(** What [update] relies on for a channel: its node exists, its sampler
    index is in range, the sampler has a time stamp, and a CUBICSPLINE
    sampler holds [3 * stride] floats for each time stamp. *)
Definition sampler_safe (p : PathType) (s : AnimationSampler F) : Prop :=
  0 < size (inputs s) /\
  (interpolation s = CUBICSPLINE ->
   3 * stride_of p * size (inputs s) <= size (outputs s)).

Definition channel_safe (a : Animation F) (nodes : list (Transform F))
    (c : AnimationChannel) : Prop :=
  (node c < length nodes)%nat /\
  exists s, at_ (animation_samplers a) (samplerIndex c) = Some s /\
            sampler_safe (path c) s.

Section Ends.

Context `{Exactness F}.

(** Equality as [==] has it, component by component. *)
Definition same3 (v w : vec3 F) : Prop :=
  f_same (v3x v) (v3x w) /\ f_same (v3y v) (v3y w) /\ f_same (v3z v) (v3z w).

Definition same_quat (q r : quat F) : Prop :=
  f_same (qx q) (qx r) /\ f_same (qy q) (qy r) /\ f_same (qz q) (qz r)
  /\ f_same (qw q) (qw r).

Definition finite4 (v : vec4 F) : Prop :=
  f_finite (v4x v) /\ f_finite (v4y v) /\ f_finite (v4z v) /\ f_finite (v4w v).

(** A track made of numbers: every entry of [outputsVec4] and of [outputs]
    is one, and so is every entry of [outputs] scaled by the length [delta]
    of the segment at hand. *)
Definition track_finite (s : AnimationSampler F) (delta : F) : Prop :=
  Forall finite4 (outputsVec4 s)
  /\ Forall (fun x => f_finite x /\ f_finite (delta * x)) (outputs s).

(** What the values at the two ends of a segment need of the arithmetic.
    All of it holds of the real numbers and of IEEE binary32. *)
Class SegmentEndLaws : Prop := {
  same_refl : forall x : F, f_finite x -> f_same x x;
  zero_finite : f_finite f_zero;
  neg_finite : forall x : F, f_finite x -> f_finite (- x);
  sub_self : forall x : F, f_finite x -> x - x = f_zero;
  zero_not_positive : (f_zero <? f_zero) = false;
  zero_div : forall d : F, (f_zero <? d) = true -> f_zero / d = f_zero;
  div_self : forall d : F,
    f_finite d -> (f_zero <? d) = true -> d / d = f_one;
  one_minus_zero : f_one - f_zero = f_one;
  one_minus_one : f_one - f_one = f_zero;
  mul_one : forall x : F, f_finite x -> x * f_one = x;
  one_mul : forall x : F, f_finite x -> f_one * x = x;
  mul_zero : forall x : F, f_finite x -> f_same (x * f_zero) f_zero;
  zero_mul : forall z x : F,
    f_same z f_zero -> f_finite x -> f_same (z * x) f_zero;
  add_zero : forall y x z : F,
    f_same y x -> f_finite x -> f_same z f_zero -> f_same (y + z) x;
  zero_add : forall y x : F,
    f_same y f_zero -> f_finite x -> f_same (y + x) x;
  spline_start :
    hermite_p0 f_zero = f_one /\ f_same (hermite_m0 f_zero) f_zero
    /\ f_same (hermite_p1 f_zero) f_zero /\ f_same (hermite_m1 f_zero) f_zero;
  spline_end :
    f_same (hermite_p0 f_one) f_zero /\ f_same (hermite_m0 f_one) f_zero
    /\ hermite_p1 f_one = f_one /\ f_same (hermite_m1 f_one) f_zero
}.

End Ends.

End Specification.

(** Strictly increasing time stamps. *)
Definition strictly_increasing (l : list R) : Prop :=
  forall (j : nat) (x y : R),
    l !! j = Some x -> l !! S j = Some y -> (x < y)%R.

(** The magnitude of a quaternion is 1 "within tolerance 1e-5". *)
Definition unit_within_tolerance (q : quat R) : Prop :=
  (Rabs (length_quat q - 1) <= 1 / 100000)%R.

(** ** Concrete tracks and clips *)

Module Examples.

Import Exact.
Local Open Scope R_scope.

Definition v3 (x y z : R) : vec4 R := Vec4 x y z 0.

(** A node away from the origin, unrotated and unscaled. *)
Definition a_node : Transform R :=
  mkTransform (Vec3 1 1 1) (Quat 0 0 0 1) (Vec3 1 1 1).

(** A clip around one sampler, driving property [p] of node 0, with the
    clock at [t] and bounds from 0 to [e]. *)
Definition clip_of (s : AnimationSampler R) (p : PathType) (t e : R)
    : Animation R :=
  mkAnimation t [s] [mkChannel p 0 0%nat] 0 e.

(** Two CUBIC keyframes of a translation at times 0 and 1: the values are
    (1,0,0) and (3,0,0); both tangents of the first are (4,0,0) and both
    tangents of the second are (8,0,0). *)
Definition hermite_track : AnimationSampler R :=
  mkSampler CUBICSPLINE [0; 1] [v3 1 0 0; v3 3 0 0]
    [4; 0; 0;  1; 0; 0;  4; 0; 0;
     8; 0; 0;  3; 0; 0;  8; 0; 0].

(** A STEP rotation track holding the quaternion (0,0,0,2). *)
Definition step_rotation_track : AnimationSampler R :=
  mkSampler STEP [0; 1] [Vec4 0 0 0 2; Vec4 0 0 0 2] [].

(** A CUBIC rotation track whose values are (0,0,0,2) and whose tangents
    vanish. *)
Definition cubic_rotation_track : AnimationSampler R :=
  mkSampler CUBICSPLINE [0; 1] [Vec4 0 0 0 2; Vec4 0 0 0 2]
    [0; 0; 0; 0;  0; 0; 0; 2;  0; 0; 0; 0;
     0; 0; 0; 0;  0; 0; 0; 2;  0; 0; 0; 0].

(** Two time stamps and three values. *)
Definition longer_values_track : AnimationSampler R :=
  mkSampler LINEAR [0; 1] [v3 2 0 0; v3 3 0 0; v3 4 0 0] [].

(** Three time stamps and two values. *)
Definition longer_times_track : AnimationSampler R :=
  mkSampler LINEAR [0; 1; 2] [v3 2 0 0; v3 3 0 0] [].

(** The spec's concrete scenario: [times = [0.0, 1.0]],
    [values = [vec3(0,0,0), vec3(10,0,0)]], mode LINEAR, on a fresh clip
    whose [end] the loader has set to 1.0. *)
Definition scenario_track : AnimationSampler R :=
  mkSampler LINEAR [0; 1] [v3 0 0 0; v3 10 0 0] [].
Definition scenario_clip : Animation R :=
  mkAnimation (current_time Animation_new) [scenario_track]
    [mkChannel TRANSLATION 0 0%nat] 0 1.

(** Three STEP keyframes at times 0, 1 and 2. *)
Definition step_track : AnimationSampler R :=
  mkSampler STEP [0; 1; 2] [v3 2 0 0; v3 3 0 0; v3 4 0 0] [].

(** A CUBIC sampler with time stamps and [outputsVec4] but no [outputs]. *)
Definition no_outputs_track : AnimationSampler R :=
  mkSampler CUBICSPLINE [0; 1] [v3 0 0 0; v3 0 0 0] [].

(** A LINEAR rotation track between the unit quaternions (0,0,0,1) and
    (0,0,0,-1), which stand for the same rotation. *)
Definition antipodal_rotation_track : AnimationSampler R :=
  mkSampler LINEAR [0; 1] [Vec4 0 0 0 1; Vec4 0 0 0 (-1)] [].

End Examples.

(** The same tracks and clips in binary32. *)
Module Examples32.

Import Binary32.

Definition f (n d : Z) : binary32 := of_ratio n d.
Definition v3 (x y z : binary32) : vec4 binary32 := Vec4 x y z zero.

Definition a_node : Transform binary32 :=
  mkTransform (Vec3 one one one) (Quat zero zero zero one) (Vec3 one one one).

Definition scenario_track : AnimationSampler binary32 :=
  mkSampler LINEAR [zero; one]
    [v3 zero zero zero; v3 (f 10 1) zero zero] [].
Definition scenario_clip : Animation binary32 :=
  mkAnimation (current_time Animation_new) [scenario_track]
    [mkChannel TRANSLATION 0 0%nat] zero one.

Definition hermite_track : AnimationSampler binary32 :=
  mkSampler CUBICSPLINE [zero; one]
    [v3 one zero zero; v3 three zero zero]
    [f 4 1; zero; zero;  one; zero; zero;  f 4 1; zero; zero;
     f 8 1; zero; zero;  three; zero; zero;  f 8 1; zero; zero].

Definition clip_of (s : AnimationSampler binary32) (p : PathType)
    (t e : binary32) : Animation binary32 :=
  mkAnimation t [s] [mkChannel p 0 0%nat] zero e.

Definition step_rotation_track : AnimationSampler binary32 :=
  mkSampler STEP [zero; one]
    [Vec4 zero zero zero two; Vec4 zero zero zero two] [].

Definition cubic_rotation_track : AnimationSampler binary32 :=
  mkSampler CUBICSPLINE [zero; one]
    [Vec4 zero zero zero two; Vec4 zero zero zero two]
    [zero; zero; zero; zero;  zero; zero; zero; two;  zero; zero; zero; zero;
     zero; zero; zero; zero;  zero; zero; zero; two;  zero; zero; zero; zero].

Definition longer_values_track : AnimationSampler binary32 :=
  mkSampler LINEAR [zero; one]
    [v3 two zero zero; v3 three zero zero; v3 (f 4 1) zero zero] [].

Definition step_track : AnimationSampler binary32 :=
  mkSampler STEP [zero; one; two]
    [v3 two zero zero; v3 three zero zero; v3 (f 4 1) zero zero] [].

Definition no_outputs_track : AnimationSampler binary32 :=
  mkSampler CUBICSPLINE [zero; one] [v3 zero zero zero; v3 zero zero zero] [].


(** A LINEAR rotation track between (0,0,0,1) and (0,0,0,-1). *)
Definition antipodal_rotation_track : AnimationSampler binary32 :=
  mkSampler LINEAR [zero; one]
    [Vec4 zero zero zero one; Vec4 zero zero zero (SFopp one)] [].



End Examples32.

(** ** core/instance.cpp

    The Vulkan instance wrapper.  What the Vulkan loader and the driver
    answer is collected in [Env]; a C++ exception is the [Throws] outcome.
    The log macros leave no trace in the model. *)

Module Vk.

(** A [const char *]: the address it holds and the characters found there
    up to the terminating zero.  [std::find] compares the addresses,
    [strcmp] the characters. *)
Record cstr := CStr { addr : Z; text : string }.

Record VkExtensionProperties := mkExtension {
  extensionName : string;
  extension_specVersion : Z
}.

Record VkLayerProperties := mkLayer {
  layerName : string;
  layer_specVersion : Z;
  implementationVersion : Z;
  description : string
}.

Inductive VkPhysicalDeviceType :=
  | OTHER | INTEGRATED_GPU | DISCRETE_GPU | VIRTUAL_GPU | CPU.

(** [VK_SUCCESS] and [VK_NULL_HANDLE] of the Vulkan headers. *)
Definition VK_SUCCESS : Z := 0.
Definition VK_NULL_HANDLE : Z := 0.

(** [strcmp(a, b) == 0] *)
Definition strcmp_eq (a b : string) : bool := String.eqb a b.

Inductive exception :=
  | VulkanException (result : Z) (msg : string)
  | runtime_error (msg : string)
  | out_of_range.

Inductive outcome (A : Type) :=
  | Returns (a : A)
  | Throws (e : exception).
Arguments Returns {A}. Arguments Throws {A}.

(** What [vkCreateInstance] is handed: the application name, the enabled
    extensions and layers, and whether the debug report callback is
    chained in. *)
Record VkInstanceCreateInfo := mkCreateInfo {
  pApplicationName : string;
  ppEnabledExtensionNames : list cstr;
  ppEnabledLayerNames : list cstr;
  debug_report_chained : bool
}.

(** The surroundings of the code: the address the compiler gives to each
    of the eight string literals of [get_optimal_validation_layers], the
    three extension names the Vulkan headers define as macros, the two build
    flags, and the answers of the loader and driver calls ([volkInitialize],
    the enumerations, the creations, and the device type
    [vkGetPhysicalDeviceProperties] reports).  The enumerations answer with
    [VK_SUCCESS]: [VK_CHECK] aborts the process otherwise. *)
Record Env := mkEnv {
  literal : nat -> Z;
  VK_EXT_DEBUG_REPORT_EXTENSION_NAME : cstr;
  VK_EXT_HEADLESS_SURFACE_EXTENSION_NAME : cstr;
  VK_KHR_SURFACE_EXTENSION_NAME : cstr;
  VKB_DEBUG : bool;
  VKB_VALIDATION_LAYERS : bool;
  volkInitialize : Z;
  vkEnumerateInstanceExtensionProperties : list VkExtensionProperties;
  vkEnumerateInstanceLayerProperties : list VkLayerProperties;
  vkCreateInstance : VkInstanceCreateInfo -> Z * Z;
  vkCreateDebugReportCallbackEXT : Z -> Z * Z;
  vkEnumeratePhysicalDevices : Z -> list Z;
  deviceType : Z -> VkPhysicalDeviceType
}.

(** The members of [Instance]. *)
Record Instance := mkInstance {
  handle : Z;
  extensions : list cstr;
  gpus : list Z;
  debug_report_callback : Z
}.

(** The inner loop of [validate_extensions]: is there an available
    extension of that name? *)
Fixpoint extension_found (extension : cstr)
    (available : list VkExtensionProperties) : bool :=
  match available with
  | [] => false
  | available_extension :: rest =>
      if strcmp_eq (extensionName available_extension) (text extension)
      then true
      else extension_found extension rest
  end.

(** [validate_extensions] *)
Fixpoint validate_extensions (required : list cstr)
    (available : list VkExtensionProperties) : bool :=
  match required with
  | [] => true
  | extension :: rest =>
      if extension_found extension available
      then validate_extensions rest available
      else false
  end.

(** The inner loop of [validate_layers]. *)
Fixpoint layer_found (layer : cstr) (available : list VkLayerProperties)
    : bool :=
  match available with
  | [] => false
  | available_layer :: rest =>
      if strcmp_eq (layerName available_layer) (text layer)
      then true
      else layer_found layer rest
  end.

(** [validate_layers] *)
Fixpoint validate_layers (required : list cstr)
    (available : list VkLayerProperties) : bool :=
  match required with
  | [] => true
  | layer :: rest =>
      if layer_found layer available
      then validate_layers rest available
      else false
  end.

(** An extension, a layer of that name is among the available ones. *)
Definition has_extension (available : list VkExtensionProperties)
    (name : string) : Prop :=
  exists a, a ∈ available /\ extensionName a = name.

Definition has_layer (available : list VkLayerProperties)
    (name : string) : Prop :=
  exists a, a ∈ available /\ layerName a = name.

Section WithEnv.

Variable env : Env.

(** The [k]-th string literal of [get_optimal_validation_layers]. *)
Definition lit (k : nat) (s : string) : cstr := CStr (literal env k) s.

Definition validation_layer_priority_list : list (list cstr) :=
  [ [lit 0 "VK_LAYER_KHRONOS_validation"];
    [lit 1 "VK_LAYER_LUNARG_standard_validation"];
    [lit 2 "VK_LAYER_GOOGLE_threading";
     lit 3 "VK_LAYER_LUNARG_parameter_validation";
     lit 4 "VK_LAYER_LUNARG_object_tracker";
     lit 5 "VK_LAYER_LUNARG_core_validation";
     lit 6 "VK_LAYER_GOOGLE_unique_objects"];
    [lit 7 "VK_LAYER_LUNARG_core_validation"] ].

(** The loop of [get_optimal_validation_layers] over the priority list. *)
Fixpoint first_supported (priority_list : list (list cstr))
    (supported_instance_layers : list VkLayerProperties) : list cstr :=
  match priority_list with
  | [] => []
  | validation_layers :: rest =>
      if validate_layers validation_layers supported_instance_layers
      then validation_layers
      else first_supported rest supported_instance_layers
  end.

(** [get_optimal_validation_layers] *)
Definition get_optimal_validation_layers
    (supported_instance_layers : list VkLayerProperties) : list cstr :=
  first_supported validation_layer_priority_list supported_instance_layers.

(** The loop of the constructor that looks for the headless surface
    extension: every available extension of that name appends the name to
    [extensions]. *)
Fixpoint push_headless (available : list VkExtensionProperties)
    (extensions : list cstr) : list cstr :=
  match available with
  | [] => extensions
  | available_extension :: rest =>
      if strcmp_eq (extensionName available_extension)
           (text (VK_EXT_HEADLESS_SURFACE_EXTENSION_NAME env))
      then push_headless rest
             (extensions ++ [VK_EXT_HEADLESS_SURFACE_EXTENSION_NAME env])
      else push_headless rest extensions
  end.

(** The extensions the constructor asks for, before it validates them. *)
Definition enabled_extensions (required_extensions : list cstr)
    (headless : bool) : list cstr :=
  let extensions := required_extensions in
  let extensions :=
    if VKB_DEBUG env || VKB_VALIDATION_LAYERS env
    then extensions ++ [VK_EXT_DEBUG_REPORT_EXTENSION_NAME env]
    else extensions in
  if headless
  then push_headless (vkEnumerateInstanceExtensionProperties env) extensions
  else extensions ++ [VK_KHR_SURFACE_EXTENSION_NAME env].

(** The layers the constructor asks for, before it validates them. *)
Definition requested_validation_layers
    (required_validation_layers : list cstr) : list cstr :=
  if VKB_VALIDATION_LAYERS env
  then required_validation_layers
       ++ get_optimal_validation_layers (vkEnumerateInstanceLayerProperties env)
  else required_validation_layers.

(** [Instance::query_gpus], on the handle of the instance: the devices
    enumerated, or an exception when there is none. *)
Definition query_gpus (handle : Z) : outcome (list Z) :=
  let devices := vkEnumeratePhysicalDevices env handle in
  if (Z.of_nat (length devices) <? 1)%Z
  then Throws (runtime_error
                 "Couldn't find a physical device that supports Vulkan.")
  else Returns devices.

(** The constructor
    [Instance(application_name, required_extensions,
              required_validation_layers, headless)]. *)
Definition Instance_new (application_name : string)
    (required_extensions required_validation_layers : list cstr)
    (headless : bool) : outcome Instance :=
  let result := volkInitialize env in
  if negb (result =? 0)%Z
  then Throws (VulkanException result "Failed to initialize volk.")
  else
    let extensions := enabled_extensions required_extensions headless in
    if negb (validate_extensions extensions
               (vkEnumerateInstanceExtensionProperties env))
    then Throws (runtime_error "Required instance extensions are missing.")
    else
      let layers := requested_validation_layers required_validation_layers in
      if negb (validate_layers layers (vkEnumerateInstanceLayerProperties env))
      then Throws (runtime_error "Required validation layers are missing.")
      else
        let debug := VKB_DEBUG env || VKB_VALIDATION_LAYERS env in
        let instance_info :=
          mkCreateInfo application_name extensions layers debug in
        let '(result, handle) := vkCreateInstance env instance_info in
        if negb (result =? VK_SUCCESS)%Z
        then Throws (VulkanException result "Could not create Vulkan instance")
        else
          let '(result, callback) :=
            if debug then vkCreateDebugReportCallbackEXT env handle
            else (VK_SUCCESS, VK_NULL_HANDLE) in
          if negb (result =? VK_SUCCESS)%Z
          then Throws (VulkanException result
                         "Could not create debug reporting callback")
          else
            match query_gpus handle with
            | Throws e => Throws e
            | Returns devices =>
                Returns (mkInstance handle extensions devices callback)
            end.

(** The constructor [Instance(VkInstance instance)]. *)
Definition Instance_of_handle (instance : Z) : outcome Instance :=
  if negb (instance =? VK_NULL_HANDLE)%Z
  then
    match query_gpus instance with
    | Throws e => Throws e
    | Returns devices => Returns (mkInstance instance [] devices VK_NULL_HANDLE)
    end
  else Throws (runtime_error "Instance not valid").

(** The loop of [get_gpu]: the first discrete GPU, if there is one. *)
Fixpoint find_discrete (gpus : list Z) : option Z :=
  match gpus with
  | [] => None
  | gpu :: rest =>
      match deviceType env gpu with
      | DISCRETE_GPU => Some gpu
      | _ => find_discrete rest
      end
  end.

(** [Instance::get_gpu]; [gpus.at(0)] throws on an empty vector. *)
Definition get_gpu (i : Instance) : outcome Z :=
  match find_discrete (gpus i) with
  | Some gpu => Returns gpu
  | None =>
      match gpus i with
      | [] => Throws out_of_range
      | gpu :: _ => Returns gpu
      end
  end.

End WithEnv.

(** [Instance::is_enabled]: [std::find] over the addresses. *)
Fixpoint find_address (extensions : list cstr) (extension : cstr) : bool :=
  match extensions with
  | [] => false
  | e :: rest =>
      if (addr e =? addr extension)%Z then true
      else find_address rest extension
  end.

Definition is_enabled (i : Instance) (extension : cstr) : bool :=
  find_address (extensions i) extension.

(** [Instance::get_handle] and [Instance::get_extensions]. *)
Definition get_handle (i : Instance) : Z := handle i.
Definition get_extensions (i : Instance) : list cstr := extensions i.

End Vk.

(** A machine with two devices, the second of them discrete, on which the
    surface and debug report extensions and the Khronos validation layer
    are available; the build has validation layers switched on. *)
Module VkExamples.

Import Vk.

Definition surface : cstr := CStr 3 "VK_KHR_surface".

Definition a_machine : Env :=
  {| literal := fun k => 100 + Z.of_nat k;
     VK_EXT_DEBUG_REPORT_EXTENSION_NAME := CStr 1 "VK_EXT_debug_report";
     VK_EXT_HEADLESS_SURFACE_EXTENSION_NAME := CStr 2 "VK_EXT_headless_surface";
     VK_KHR_SURFACE_EXTENSION_NAME := surface;
     VKB_DEBUG := false;
     VKB_VALIDATION_LAYERS := true;
     volkInitialize := 0;
     vkEnumerateInstanceExtensionProperties :=
       [mkExtension "VK_KHR_surface" 25; mkExtension "VK_EXT_debug_report" 9;
        mkExtension "VK_KHR_get_physical_device_properties2" 2];
     vkEnumerateInstanceLayerProperties :=
       [mkLayer "VK_LAYER_KHRONOS_validation" 1 1 "Khronos validation"];
     vkCreateInstance := fun _ => (0, 7);
     vkCreateDebugReportCallbackEXT := fun _ => (0, 9);
     vkEnumeratePhysicalDevices := fun _ => [11; 12];
     deviceType := fun gpu => if (gpu =? 12)%Z then DISCRETE_GPU
                              else INTEGRATED_GPU |}.

(** An extension the application asks for by a pointer of its own. *)
Definition wanted : cstr :=
  CStr 40 "VK_KHR_get_physical_device_properties2".

(** What the constructor builds on that machine. *)
Definition an_instance : Instance :=
  mkInstance 7
    [wanted; VK_EXT_DEBUG_REPORT_EXTENSION_NAME a_machine; surface]
    [11; 12] 9.

End VkExamples.

(** * Properties *)

(** ** Subscripts and wrap-around *)

Lemma size_t_small (z : Z) : 0 <= z < 2 ^ 64 -> Wrap.size_t z = z.
Proof. intros Hz. unfold Wrap.size_t, Wrap.size_t_mod. apply Z.mod_small, Hz. Qed.

Lemma size_t_bounds (z : Z) : 0 <= Wrap.size_t z < 2 ^ 64.
Proof. unfold Wrap.size_t, Wrap.size_t_mod. apply Z.mod_pos_bound. lia. Qed.

Lemma size_t_le (z : Z) : 0 <= z -> 0 <= Wrap.size_t z <= z.
Proof.
  intros Hz. unfold Wrap.size_t, Wrap.size_t_mod. split.
  - apply Z.mod_pos_bound. lia.
  - apply Z.mod_le; lia.
Qed.

Lemma uint32_small (z : Z) : 0 <= z < 2 ^ 32 -> Wrap.uint32 z = z.
Proof. intros Hz. unfold Wrap.uint32, Wrap.uint32_mod. apply Z.mod_small, Hz. Qed.

Lemma uint32_le (z : Z) : 0 <= z -> 0 <= Wrap.uint32 z <= z.
Proof.
  intros Hz. unfold Wrap.uint32, Wrap.uint32_mod. split.
  - apply Z.mod_pos_bound. lia.
  - apply Z.mod_le; lia.
Qed.

Lemma at_is_Some {A} (v : list A) (i : Z) :
  0 <= i < Wrap.size v -> is_Some (Wrap.at_ v i).
Proof.
  intros Hi. unfold Wrap.at_, Wrap.size in *. apply lookup_lt_is_Some. lia.
Qed.

Lemma at_Some_lt {A} (v : list A) (i : Z) (x : A) :
  0 <= i -> Wrap.at_ v i = Some x -> i < Wrap.size v.
Proof.
  intros Hi Hx. unfold Wrap.at_, Wrap.size in *.
  apply lookup_lt_Some in Hx. lia.
Qed.

Lemma at_nil {A} (i : Z) : Wrap.at_ (@nil A) i = None.
Proof. unfold Wrap.at_. apply lookup_nil. Qed.

Lemma at_succ {A} (v : list A) (j : nat) :
  Wrap.at_ v (Z.of_nat j + 1) = v !! S j.
Proof. unfold Wrap.at_. f_equal. lia. Qed.

Lemma at_of_nat {A} (v : list A) (j : nat) :
  Wrap.at_ v (Z.of_nat j) = v !! j.
Proof. unfold Wrap.at_. f_equal. lia. Qed.

(** ** Memory safety of the sampler and of [update] *)

Section Safety.

Context {F : Type} `{FloatArith F} `{Trig F}.
Import Wrap.

Lemma fraction_is_Some (s : AnimationSampler F) (i : Z) (time : F) :
  0 <= i -> i + 1 < size (inputs s) -> i + 1 < 2 ^ 64 ->
  is_Some (fraction s i time).
Proof.
  intros Hi Hlen Hfit. unfold fraction.
  destruct (at_is_Some (inputs s) i) as [t0 ->]; [lia|].
  rewrite size_t_small by lia.
  destruct (at_is_Some (inputs s) (i + 1)) as [t1 ->]; [lia|].
  simpl. eauto.
Qed.

Lemma cubic_component_is_Some (s : AnimationSampler F) (delta t : F)
    (current next stride c : Z) (pt : vec4 F) :
  0 <= current -> 0 <= next -> 0 <= stride -> 0 <= c < 4 ->
  current + c + 2 * stride < size (outputs s) ->
  next + c + 2 * stride < size (outputs s) ->
  is_Some (cubic_component s delta t current next stride c pt).
Proof.
  intros Hcur Hnext Hstride Hc Hcb Hnb. unfold cubic_component.
  pose proof (uint32_le (stride * 1) ltac:(lia)) as HV.
  pose proof (uint32_le (stride * 2) ltac:(lia)) as HB.
  pose proof (uint32_le (current + c) ltac:(lia)) as Hcc.
  pose proof (uint32_le (next + c) ltac:(lia)) as Hnc.
  pose proof (uint32_le (uint32 (current + c) + uint32 (stride * 1)) ltac:(lia)).
  pose proof (uint32_le (uint32 (current + c) + 0) ltac:(lia)).
  pose proof (uint32_le (uint32 (next + c) + uint32 (stride * 1)) ltac:(lia)).
  pose proof (uint32_le (uint32 (next + c) + uint32 (stride * 2)) ltac:(lia)).
  destruct (at_is_Some (outputs s)
              (uint32 (uint32 (current + c) + uint32 (stride * 1)))) as [p0 ->]; [lia|].
  destruct (at_is_Some (outputs s) (uint32 (uint32 (current + c) + 0))) as [a0 ->]; [lia|].
  destruct (at_is_Some (outputs s)
              (uint32 (uint32 (next + c) + uint32 (stride * 1)))) as [p1 ->]; [lia|].
  destruct (at_is_Some (outputs s)
              (uint32 (uint32 (next + c) + uint32 (stride * 2)))) as [b1 ->]; [lia|].
  simpl. unfold vec4_set.
  assert (c = 0 \/ c = 1 \/ c = 2 \/ c = 3) as [-> | [-> | [-> | ->]]] by lia; eauto.
Qed.

Lemma cubic_components_is_Some (s : AnimationSampler F) (delta t : F)
    (current next stride : Z) (n : nat) (c : Z) (pt : vec4 F) :
  0 <= current -> 0 <= next -> 0 <= stride <= 4 ->
  0 <= c -> c + Z.of_nat n <= stride ->
  current + 3 * stride <= size (outputs s) ->
  next + 3 * stride <= size (outputs s) ->
  is_Some (cubic_components s delta t current next stride n c pt).
Proof.
  intros Hcur Hnext Hstride. revert c pt.
  induction n as [|n IH]; intros c pt Hc Hn Hcb Hnb; simpl; [eauto|].
  destruct (cubic_component_is_Some s delta t current next stride c pt)
    as [pt' ->]; try lia.
  simpl. rewrite uint32_small by lia. apply IH; lia.
Qed.

Lemma cubicSplineInterpolation_is_Some (s : AnimationSampler F) (i : Z)
    (time : F) (stride : Z) :
  0 <= i -> i + 1 < size (inputs s) -> i + 1 < 2 ^ 64 ->
  0 < stride <= 4 ->
  3 * stride * size (inputs s) <= size (outputs s) ->
  is_Some (cubicSplineInterpolation s i time stride).
Proof.
  intros Hi Hlen Hfit Hstride Hout.
  unfold cubicSplineInterpolation, cubicSplineInterpolation_from, cubic_t, cubic_delta.
  rewrite (size_t_small (i + 1)) by lia.
  destruct (at_is_Some (inputs s) i) as [t0 ->]; [lia|].
  destruct (at_is_Some (inputs s) (i + 1)) as [t1 ->]; [lia|].
  simpl.
  pose proof (size_t_le (i * stride) ltac:(nia)).
  pose proof (size_t_le (size_t (i * stride) * 3) ltac:(lia)).
  pose proof (uint32_le (size_t (size_t (i * stride) * 3)) ltac:(lia)).
  pose proof (size_t_le ((i + 1) * stride) ltac:(nia)).
  pose proof (size_t_le (size_t ((i + 1) * stride) * 3) ltac:(lia)).
  pose proof (uint32_le (size_t (size_t ((i + 1) * stride) * 3)) ltac:(lia)).
  assert (i * stride * 3 + 6 * stride <= 3 * stride * size (inputs s)) by nia.
  assert ((i + 1) * stride * 3 + 3 * stride <= 3 * stride * size (inputs s)) by nia.
  apply cubic_components_is_Some; lia.
Qed.

Lemma apply_path_is_Some (p : PathType) (s : AnimationSampler F) (i : Z)
    (time : F) (transform : Transform F) :
  0 <= i -> i + 1 < size (inputs s) -> i + 1 < 2 ^ 64 ->
  size (inputs s) <= size (outputsVec4 s) ->
  sampler_safe p s ->
  is_Some (apply_path p s i time transform).
Proof.
  intros Hi Hlen Hfit Hvals [_ Hcubic].
  destruct (fraction_is_Some s i time Hi Hlen Hfit) as [u Hu].
  destruct (at_is_Some (outputsVec4 s) i) as [a Ha]; [lia|].
  destruct (at_is_Some (outputsVec4 s) (i + 1)) as [b Hb]; [lia|].
  assert (forall stride, 0 < stride <= 4 -> stride <= stride_of p ->
            interpolation s = CUBICSPLINE ->
            is_Some (cubicSplineInterpolation s i time stride)) as Hc.
  { intros stride Hs Hp Hcub.
    apply cubicSplineInterpolation_is_Some; try lia.
    specialize (Hcubic Hcub).
    assert (0 < size (inputs s)) by lia. nia. }
  destruct p; unfold apply_path, translate, scale, rotate;
    destruct (interpolation s) eqn:Hint;
    rewrite ?Hu, ?(size_t_small (i + 1)) by lia; simpl;
    rewrite ?Ha; simpl; rewrite ?Hb; simpl; eauto.
  - destruct (Hc 3) as [pt ->]; simpl; eauto; simpl; lia.
  - destruct (Hc 4) as [pt ->]; simpl; eauto; simpl; lia.
  - destruct (Hc 3) as [pt ->]; simpl; eauto; simpl; lia.
Qed.

Lemma apply_segment_length (c : AnimationChannel) (s : AnimationSampler F)
    (i : Z) (time : F) (nodes nodes' : list (Transform F)) :
  apply_segment c s i time nodes = Some nodes' -> length nodes' = length nodes.
Proof.
  unfold apply_segment. intros Hs.
  destruct (nodes !! node c) as [tr|]; simpl in Hs; [|discriminate].
  destruct (apply_path (path c) s i time tr) as [tr'|]; simpl in Hs; [|discriminate].
  injection Hs as <-. apply length_insert.
Qed.

Lemma segment_step_length (time : F) (c : AnimationChannel)
    (s : AnimationSampler F) (i : Z) (nodes nodes' : list (Transform F)) :
  segment_step time c s i nodes = Some nodes' -> length nodes' = length nodes.
Proof.
  unfold segment_step. intros Hs.
  destruct (at_ (inputs s) i) as [t0|]; simpl in Hs; [|discriminate].
  destruct (f_le t0 time); [|congruence].
  destruct (at_ (inputs s) (size_t (i + 1))) as [t1|]; simpl in Hs; [|discriminate].
  destruct (f_le time t1); [|congruence].
  destruct (fraction s i time) as [u|]; simpl in Hs; [|discriminate].
  destruct (f_le u f_one); [|congruence].
  eapply apply_segment_length, Hs.
Qed.

Lemma segment_step_is_Some (time : F) (c : AnimationChannel)
    (s : AnimationSampler F) (i : Z) (nodes : list (Transform F)) :
  0 <= i -> i + 1 < size (inputs s) -> i + 1 < 2 ^ 64 ->
  size (inputs s) <= size (outputsVec4 s) ->
  sampler_safe (path c) s ->
  (node c < length nodes)%nat ->
  is_Some (segment_step time c s i nodes).
Proof.
  intros Hi Hlen Hfit Hvals Hsafe Hnode. unfold segment_step.
  destruct (at_is_Some (inputs s) i) as [t0 ->]; [lia|]. simpl.
  destruct (f_le t0 time); [|eauto].
  rewrite size_t_small by lia.
  destruct (at_is_Some (inputs s) (i + 1)) as [t1 ->]; [lia|]. simpl.
  destruct (f_le time t1); [|eauto].
  destruct (fraction_is_Some s i time Hi Hlen Hfit) as [u ->]. simpl.
  destruct (f_le u f_one); [|eauto].
  unfold apply_segment.
  destruct (lookup_lt_is_Some_2 nodes (node c) Hnode) as [tr ->]. simpl.
  destruct (apply_path_is_Some (path c) s i time tr) as [tr' ->]; auto.
Qed.

Lemma segments_is_Some (time : F) (c : AnimationChannel)
    (s : AnimationSampler F) (n : nat) (i : Z) (nodes : list (Transform F)) :
  0 <= i -> i + Z.of_nat n < size (inputs s) -> i + Z.of_nat n < 2 ^ 64 ->
  size (inputs s) <= size (outputsVec4 s) ->
  sampler_safe (path c) s ->
  (node c < length nodes)%nat ->
  exists nodes', segments time c s n i nodes = Some nodes'
                 /\ length nodes' = length nodes.
Proof.
  intros Hi Hlen Hfit Hvals Hsafe. revert i nodes Hi Hlen Hfit.
  induction n as [|n IH]; intros i nodes Hi Hlen Hfit Hnode; simpl; [eauto|].
  destruct (segment_step_is_Some time c s i nodes) as [nodes1 Hstep];
    try lia; auto.
  rewrite Hstep. simpl. rewrite size_t_small by lia.
  pose proof (segment_step_length _ _ _ _ _ _ Hstep) as Hl.
  destruct (IH (i + 1) nodes1) as (nodes' & Hn & Hl'); try lia.
  exists nodes'. split; [exact Hn | lia].
Qed.

Lemma update_channel_is_Some (a : Animation F) (c : AnimationChannel)
    (nodes : list (Transform F)) :
  channel_safe a nodes c ->
  exists nodes', update_channel a c nodes = Some nodes'
                 /\ length nodes' = length nodes.
Proof.
  intros (Hnode & s & Hs & Hsafe). unfold update_channel. rewrite Hs. simpl.
  destruct (size (inputs s) >? size (outputsVec4 s)) eqn:Hg; [eauto|].
  pose proof Hsafe as [Hpos _].
  pose proof (size_t_le (size (inputs s) - 1) ltac:(lia)).
  pose proof (size_t_bounds (size (inputs s) - 1)).
  apply segments_is_Some; auto; lia.
Qed.

Lemma update_channels_is_Some (a : Animation F) (cs : list AnimationChannel)
    (nodes : list (Transform F)) :
  Forall (channel_safe a nodes) cs ->
  is_Some (update_channels a cs nodes).
Proof.
  revert nodes. induction cs as [|c cs IH]; intros nodes Hall; simpl; [eauto|].
  inversion Hall as [|? ? Hc Hcs]; subst.
  destruct (update_channel_is_Some a c nodes Hc) as (nodes1 & -> & Hl). simpl.
  apply IH. eapply Forall_impl; [exact Hcs|].
  intros c' (Hn & Hrest). split; [lia | exact Hrest].
Qed.

(** A sampler without time stamps is not passed over, and the first read of
    the segment loop is out of range. *)
Lemma update_channel_empty_inputs (a : Animation F) (c : AnimationChannel)
    (s : AnimationSampler F) (nodes : list (Transform F)) :
  at_ (animation_samplers a) (samplerIndex c) = Some s ->
  inputs s = [] ->
  update_channel a c nodes = None.
Proof.
  intros Hs Hin. unfold update_channel. rewrite Hs. simpl. rewrite Hin.
  replace (size (@nil F) >? size (outputsVec4 s)) with false
    by (unfold size; simpl; symmetry; rewrite Z.gtb_ltb; apply Z.ltb_ge; lia).
  replace (size_t (size (@nil F) - 1)) with (2 ^ 64 - 1) by reflexivity.
  destruct (Z.to_nat (2 ^ 64 - 1)) as [|n] eqn:Hn; [lia|].
  simpl. unfold segment_step. rewrite Hin, at_nil. reflexivity.
Qed.

(** A channel on which [update_channel] is undefined whatever the nodes
    hold makes the whole list of channels undefined. *)
Lemma update_channels_None (a : Animation F) (cs : list AnimationChannel)
    (c : AnimationChannel) (nodes : list (Transform F)) :
  c ∈ cs ->
  (forall nodes', update_channel a c nodes' = None) ->
  update_channels a cs nodes = None.
Proof.
  intros Hin Hnone. revert nodes.
  induction cs as [|c' cs IH]; intros nodes; [inversion Hin|].
  simpl. apply elem_of_cons in Hin as [-> | Hin].
  - rewrite Hnone. reflexivity.
  - destruct (update_channel a c' nodes); simpl; [apply IH, Hin | reflexivity].
Qed.

End Safety.

(** ** The uninitialised local of [cubicSplineInterpolation] *)

Section Indeterminate.

Context {F : Type} `{FloatArith F}.

Lemma cubic_component_pt0 (s : AnimationSampler F) (delta t : F)
    (current next stride c : Z) :
  exists x : option F,
    forall pt, cubic_component s delta t current next stride c pt
               = x ≫= vec4_set pt c.
Proof.
  unfold cubic_component.
  destruct (Wrap.at_ (outputs s)
              (Wrap.uint32 (Wrap.uint32 (current + c) + Wrap.uint32 (stride * 1))))
    as [p0|]; [|exists None; reflexivity].
  destruct (Wrap.at_ (outputs s) (Wrap.uint32 (Wrap.uint32 (current + c) + 0)))
    as [a0|]; [|exists None; reflexivity].
  destruct (Wrap.at_ (outputs s)
              (Wrap.uint32 (Wrap.uint32 (next + c) + Wrap.uint32 (stride * 1))))
    as [p1|]; [|exists None; reflexivity].
  destruct (Wrap.at_ (outputs s)
              (Wrap.uint32 (Wrap.uint32 (next + c) + Wrap.uint32 (stride * 2))))
    as [b1|]; [|exists None; reflexivity].
  eexists (Some _). intros pt'. reflexivity.
Qed.

(** What [pt] holds before the loop does not reach the callers: with
    stride 4 every component is overwritten, and with stride 3 the callers
    keep [x], [y] and [z] only. *)
Lemma cubicSplineInterpolation_pt0 (pt0 pt0' : vec4 F)
    (s : AnimationSampler F) (i : Z) (time : F) :
  vec3_of_vec4 <$> cubicSplineInterpolation_from pt0 s i time 3
  = vec3_of_vec4 <$> cubicSplineInterpolation_from pt0' s i time 3
  /\ cubicSplineInterpolation_from pt0 s i time 4
     = cubicSplineInterpolation_from pt0' s i time 4.
Proof.
  unfold cubicSplineInterpolation_from.
  destruct (cubic_delta s i) as [delta|]; [|split; reflexivity]. simpl.
  destruct (cubic_t s i time) as [t|]; [|split; reflexivity]. simpl.
  split.
  - set (cur := Wrap.uint32 _). set (nxt := Wrap.uint32 _).
    change (Z.to_nat 3) with 3%nat. cbn [cubic_components].
    change (Wrap.uint32 (0 + 1)) with 1. change (Wrap.uint32 (1 + 1)) with 2.
    destruct (cubic_component_pt0 s delta t cur nxt 3 0) as [x0 H0].
    destruct (cubic_component_pt0 s delta t cur nxt 3 1) as [x1 H1].
    destruct (cubic_component_pt0 s delta t cur nxt 3 2) as [x2 H2].
    rewrite !H0. destruct x0 as [x0|]; [|reflexivity]. simpl.
    rewrite !H1. destruct x1 as [x1|]; [|reflexivity]. simpl.
    rewrite !H2. destruct x2 as [x2|]; reflexivity.
  - set (cur := Wrap.uint32 _). set (nxt := Wrap.uint32 _).
    change (Z.to_nat 4) with 4%nat. cbn [cubic_components].
    change (Wrap.uint32 (0 + 1)) with 1. change (Wrap.uint32 (1 + 1)) with 2.
    change (Wrap.uint32 (2 + 1)) with 3.
    destruct (cubic_component_pt0 s delta t cur nxt 4 0) as [x0 H0].
    destruct (cubic_component_pt0 s delta t cur nxt 4 1) as [x1 H1].
    destruct (cubic_component_pt0 s delta t cur nxt 4 2) as [x2 H2].
    destruct (cubic_component_pt0 s delta t cur nxt 4 3) as [x3 H3].
    rewrite !H0. destruct x0 as [x0|]; [|reflexivity]. simpl.
    rewrite !H1. destruct x1 as [x1|]; [|reflexivity]. simpl.
    rewrite !H2. destruct x2 as [x2|]; [|reflexivity]. simpl.
    rewrite !H3. destruct x3 as [x3|]; reflexivity.
Qed.

End Indeterminate.

(** ** Exact arithmetic: order and square roots *)

Lemma real_clock_laws : @ClockLaws R Exact.arith.
Proof.
  split; simpl; unfold Exact.Rleb.
  - destruct (Rle_dec 0 0); [reflexivity | exfalso; lra].
  - intros x y Hx Hy.
    destruct (Rle_dec 0 x); [|discriminate].
    destruct (Rle_dec 0 y); [|discriminate].
    destruct (Rle_dec 0 (x + y)); [reflexivity | exfalso; lra].
Qed.

Lemma Rleb_le (x y : R) : Exact.Rleb x y = true <-> (x <= y)%R.
Proof. unfold Exact.Rleb. destruct (Rle_dec x y); split; auto; discriminate. Qed.

Lemma Rltb_lt (x y : R) : Exact.Rltb x y = true <-> (x < y)%R.
Proof. unfold Exact.Rltb. destruct (Rlt_dec x y); split; auto; discriminate. Qed.

Lemma Rleb_gt (x y : R) : Exact.Rleb x y = false <-> (y < x)%R.
Proof.
  unfold Exact.Rleb. destruct (Rle_dec x y); split; auto; try discriminate; lra.
Qed.

Lemma Rltb_ge (x y : R) : Exact.Rltb x y = false <-> (y <= x)%R.
Proof.
  unfold Exact.Rltb. destruct (Rlt_dec x y); split; auto; try discriminate; lra.
Qed.

Lemma sqrt_of_square (x y : R) : (x = y * y)%R -> (0 <= y)%R -> sqrt x = y.
Proof. intros -> Hy. apply sqrt_square, Hy. Qed.

(** ** The malformed-track guard (C3) *)

(** C3, as stated, fails: a track with fewer time stamps than values is not
    passed over.  [longer_values_track] has two time stamps and three
    values; its channel is evaluated at time 0 and the translation of the
    node is overwritten. *)
Lemma longer_values_evaluated :
  let a := Examples.clip_of Examples.longer_values_track TRANSLATION 0 1 in
  let c := mkChannel TRANSLATION 0 0%nat in
  Wrap.size (inputs Examples.longer_values_track)
    <> Wrap.size (outputsVec4 Examples.longer_values_track)
  /\ update_channel a c [Examples.a_node]
     = Some [set_translation Examples.a_node (Vec3 2 0 0)%R]
  /\ update_channel a c [Examples.a_node] <> Some [Examples.a_node].
Proof.
  assert (update_channel
            (Examples.clip_of Examples.longer_values_track TRANSLATION 0 1)
            (mkChannel TRANSLATION 0 0%nat) [Examples.a_node]
          = Some [set_translation Examples.a_node (Vec3 2 0 0)%R]) as Hrun.
  { real_eval. repeat f_equal; lra. }
  cbv zeta. split; [|split].
  - vm_compute. discriminate.
  - exact Hrun.
  - rewrite Hrun. intros Heq. injection Heq as Heq. lra.
Qed.

(** C3 (amended): a channel whose sampler has more time stamps than
    [outputsVec4] entries is passed over for the tick: its node table is
    left as it was, nothing is undefined, and the channels after it are
    evaluated as if it were not there. *)
Theorem longer_times_skipped {F : Type} `{FloatArith F} `{Trig F}
    (a : Animation F) (c : AnimationChannel) (cs : list AnimationChannel)
    (s : AnimationSampler F) (nodes : list (Transform F)) :
  Wrap.at_ (animation_samplers a) (samplerIndex c) = Some s ->
  Wrap.size (inputs s) > Wrap.size (outputsVec4 s) ->
  update_channel a c nodes = Some nodes
  /\ update_channels a (c :: cs) nodes = update_channels a cs nodes.
Proof.
  intros Hs Hlen.
  assert (update_channel a c nodes = Some nodes) as Hskip.
  { unfold update_channel. rewrite Hs. simpl.
    destruct (Wrap.size (inputs s) >? Wrap.size (outputsVec4 s)) eqn:Hg;
      [reflexivity|].
    rewrite Z.gtb_ltb in Hg. apply Z.ltb_ge in Hg. lia. }
  split; [exact Hskip|]. simpl. rewrite Hskip. reflexivity.
Qed.

Lemma longer_times_skipped_witness :
  let a := Examples.clip_of Examples.longer_times_track TRANSLATION 0 2 in
  let c := mkChannel TRANSLATION 0 0%nat in
  update_channel a c [Examples.a_node] = Some [Examples.a_node]
  /\ update_channels a [c] [Examples.a_node]
     = update_channels a [] [Examples.a_node].
Proof.
  cbv zeta.
  apply (longer_times_skipped
           (Examples.clip_of Examples.longer_times_track TRANSLATION 0 2)
           (mkChannel TRANSLATION 0 0%nat) [] Examples.longer_times_track
           [Examples.a_node]).
  - reflexivity.
  - vm_compute. reflexivity.
Defined.

(** ** Subscripts in range (C10) *)

(** C10, as stated, fails: a valid sampler index and a sampler with time
    stamps do not keep every subscript in range.  [no_outputs_track] is a
    CUBICSPLINE sampler with two time stamps and two [outputsVec4] entries
    but an empty [outputs]; the guard lets it through and
    [cubicSplineInterpolation] reads [outputs] out of range. *)
Lemma cubic_outputs_unchecked :
  let a := Examples.clip_of Examples.no_outputs_track TRANSLATION 0 1 in
  Forall (fun c => exists s,
            Wrap.at_ (animation_samplers a) (samplerIndex c) = Some s
            /\ inputs s <> []) (animation_channels a)
  /\ update a [Examples.a_node] 0%R = None.
Proof.
  cbv zeta. split.
  - repeat constructor. exists Examples.no_outputs_track.
    split; [reflexivity | discriminate].
  - real_eval. reflexivity.
Qed.

(** C10 (amended): [update] keeps every subscript in range when, for every
    channel, the node exists, the sampler index is valid, the sampler has a
    time stamp and, for a CUBICSPLINE sampler, [outputs] holds [3 * stride]
    floats per time stamp; and a channel whose sampler has no time stamp is
    not passed over by the guard: the unsigned bound [inputs.size() - 1]
    wraps around and the first read of the segment loop is out of range. *)
Theorem update_in_bounds {F : Type} `{FloatArith F} `{Trig F}
    (a : Animation F) (nodes : list (Transform F)) (delta_time : F) :
  (Forall (channel_safe a nodes) (animation_channels a) ->
   is_Some (update a nodes delta_time))
  /\ (forall c s,
        c ∈ animation_channels a ->
        Wrap.at_ (animation_samplers a) (samplerIndex c) = Some s ->
        inputs s = [] ->
        update a nodes delta_time = None).
Proof.
  split.
  - intros Hsafe. unfold update.
    destruct (update_channels_is_Some a (animation_channels a) nodes Hsafe)
      as [nodes' ->].
    simpl. eauto.
  - intros c s Hin Hs Hempty. unfold update.
    rewrite (update_channels_None a (animation_channels a) c nodes Hin).
    + reflexivity.
    + intros nodes'. eapply update_channel_empty_inputs; eauto.
Qed.

(** The spec's concrete scenario meets the conditions of [update_in_bounds],
    and a clip over a sampler without time stamps is undefined. *)
Lemma update_in_bounds_witness :
  is_Some (update Examples.scenario_clip [Examples.a_node] (1 / 2)%R)
  /\ update (Examples.clip_of (mkSampler LINEAR [] [] []) TRANSLATION 0 1)
       [Examples.a_node] (1 / 2)%R = None.
Proof.
  split.
  - apply (update_in_bounds Examples.scenario_clip [Examples.a_node] (1 / 2)%R).
    apply Forall_cons. split; [split | constructor].
    + simpl. lia.
    + exists Examples.scenario_track. split; [reflexivity | split].
      * vm_compute. reflexivity.
      * intros Hc. discriminate Hc.
  - apply (proj2 (update_in_bounds
                    (Examples.clip_of (mkSampler LINEAR [] [] []) TRANSLATION 0 1)
                    [Examples.a_node] (1 / 2)%R)
             (mkChannel TRANSLATION 0 0%nat) (mkSampler LINEAR [] [] [])).
    + apply list_elem_of_here.
    + reflexivity.
    + reflexivity.
Defined.

(** ** The playback clock (C5) *)

(** C5: after [update], the clock is the old time plus [delta_time] when
    that sum is not past [end], and exactly zero otherwise; a clock and a
    step that are not below zero leave a clock that is not below zero.  The
    arithmetic enters through [ClockLaws] only, which both exact arithmetic
    ([real_clock_laws]) and IEEE binary32 ([binary32_clock_laws]) obey. *)
Theorem advance_wraps_to_zero {F : Type} `{FloatArith F} `{Trig F}
    (laws : @ClockLaws F _)
    (a a' : Animation F) (nodes nodes' : list (Transform F)) (delta_time : F) :
  (current_time a >=? f_zero)%flt = true ->
  (delta_time >=? f_zero)%flt = true ->
  update a nodes delta_time = Some (a', nodes') ->
  let t := (current_time a + delta_time)%flt in
  ((t >? end_ a)%flt = false -> current_time a' = t)
  /\ ((t >? end_ a)%flt = true -> current_time a' = f_zero)
  /\ (current_time a' >=? f_zero)%flt = true.
Proof.
  intros Hct Hdt Hup t. unfold update in Hup.
  destruct (update_channels a (animation_channels a) nodes) as [nodes1|];
    simpl in Hup; [|discriminate].
  injection Hup as <- <-. unfold advance_clock. simpl. fold t.
  destruct (f_lt (end_ a) t) eqn:Hpast; repeat split; try discriminate; auto.
  - apply zero_ge_zero.
  - apply add_ge_zero; assumption.
Qed.

Lemma advance_wraps_to_zero_witness :
  let a := Examples.scenario_clip in
  let a' := advance_clock a (1 / 2)%R in
  let t := (current_time a + 1 / 2)%R in
  ((t >? end_ a)%flt = false -> current_time a' = t)
  /\ ((t >? end_ a)%flt = true -> current_time a' = 0%R)
  /\ (current_time a' >=? 0%R)%flt = true.
Proof.
  cbv zeta.
  apply (advance_wraps_to_zero real_clock_laws Examples.scenario_clip
           (advance_clock Examples.scenario_clip (1 / 2)%R)
           [Examples.a_node]
           [set_translation Examples.a_node (Vec3 0 0 0)%R] (1 / 2)%R).
  - real_eval. reflexivity.
  - real_eval. reflexivity.
  - real_eval. repeat f_equal; lra.
Defined.

(** ** IEEE binary32: the sign of a rounded sum *)

Section RoundedSign.

Variables prec emax : Z.

Lemma shr_1_nonneg (mrs : shr_record) :
  0 <= shr_m mrs -> 0 <= shr_m (shr_1 mrs).
Proof.
  destruct mrs as [m r s]. simpl.
  destruct m as [|p|p]; [| destruct p |]; simpl; lia.
Qed.

Lemma iter_pos_shr_1_nonneg (p : positive) (mrs : shr_record) :
  0 <= shr_m mrs -> 0 <= shr_m (SpecFloat.iter_pos shr_1 p mrs).
Proof.
  revert mrs. induction p as [p IH|p IH|]; intros mrs Hm; simpl.
  - apply IH, IH, shr_1_nonneg, Hm.
  - apply IH, IH, Hm.
  - apply shr_1_nonneg, Hm.
Qed.

Lemma shr_fexp_nonneg (m e : Z) (l : location) :
  0 <= m -> 0 <= shr_m (fst (shr_fexp prec emax m e l)).
Proof.
  intros Hm. unfold shr_fexp, shr.
  assert (0 <= shr_m (shr_record_of_loc m l)) as Hrec.
  { destruct l as [|[]]; simpl; exact Hm. }
  destruct (fexp prec emax (Zdigits2 m + e) - e) as [|p|p]; simpl; auto.
  apply iter_pos_shr_1_nonneg, Hrec.
Qed.

Lemma round_nearest_even_nonneg (m : Z) (l : location) :
  0 <= m -> 0 <= round_nearest_even m l.
Proof.
  intros Hm. unfold round_nearest_even.
  destruct l as [|[]]; try destruct (Z.even m); lia.
Qed.

(** Rounding a magnitude keeps the sign it is given, and never yields NaN. *)
Lemma binary_round_aux_sign (sx : bool) (m e : Z) (l : location) :
  0 <= m ->
  match binary_round_aux prec emax sx m e l with
  | S754_nan => False
  | S754_zero s | S754_infinity s | S754_finite s _ _ => s = sx
  end.
Proof.
  intros Hm. unfold binary_round_aux.
  pose proof (shr_fexp_nonneg m e l Hm) as H1.
  destruct (shr_fexp prec emax m e l) as [mrs' e'] eqn:E1. simpl in H1.
  pose proof (shr_fexp_nonneg
                (round_nearest_even (shr_m mrs') (loc_of_shr_record mrs'))
                e' loc_Exact
                (round_nearest_even_nonneg _ _ H1)) as H2.
  destruct (shr_fexp prec emax
              (round_nearest_even (shr_m mrs') (loc_of_shr_record mrs'))
              e' loc_Exact) as [mrs'' e''] eqn:E2.
  simpl in H2.
  destruct (shr_m mrs'') as [|p|p]; [reflexivity | | lia].
  destruct (e'' <=? emax - prec); reflexivity.
Qed.

Lemma binary_round_sign (sx : bool) (m : positive) (e : Z) :
  match binary_round prec emax sx m e with
  | S754_nan => False
  | S754_zero s | S754_infinity s | S754_finite s _ _ => s = sx
  end.
Proof.
  unfold binary_round.
  destruct (shl_align m e (fexp prec emax (Z.pos (digits2_pos m) + e)))
    as [mz ez].
  apply binary_round_aux_sign. lia.
Qed.

(** [x >= 0.0f] holds of the zeros, of the positive finite values and of
    positive infinity. *)
Lemma SFleb_zero_cases (x : spec_float) :
  SFleb (S754_zero false) x = true <->
  match x with
  | S754_nan => False
  | S754_zero _ => True
  | S754_infinity s | S754_finite s _ _ => s = false
  end.
Proof.
  destruct x as [s|s| |s m e]; unfold SFleb; simpl;
    try destruct s; split; intros; try discriminate; auto; contradiction.
Qed.

Lemma SFadd_ge_zero (x y : spec_float) :
  SFleb (S754_zero false) x = true ->
  SFleb (S754_zero false) y = true ->
  SFleb (S754_zero false) (SFadd prec emax x y) = true.
Proof.
  rewrite !SFleb_zero_cases.
  destruct x as [sx|sx| |sx mx ex]; destruct y as [sy|sy| |sy my ey];
    try contradiction; intros Hx Hy; subst; simpl; auto.
  - destruct sx, sy; exact I.
  - set (ez := Z.min ex ey).
    set (ax := fst (shl_align mx ex ez)).
    set (ay := fst (shl_align my ey ez)).
    change (Z.pos ax + Z.pos ay) with (Z.pos (ax + ay)).
    unfold binary_normalize.
    pose proof (binary_round_sign false (ax + ay) ez) as Hs.
    destruct (binary_round prec emax false (ax + ay) ez); auto.
Qed.

End RoundedSign.

Lemma binary32_clock_laws : @ClockLaws Binary32.binary32 Binary32.arith.
Proof.
  split.
  - reflexivity.
  - intros x y. apply SFadd_ge_zero.
Qed.

(** ** The cubic spline (C1) *)

(** C1 fails on the code, which is at fault: on [hermite_track], halfway
    through the segment, the spec's Hermite formula gives the first
    component [3/2], the last term being [(t3 - t2) * m1] with [m1 = 8];
    [cubicSplineInterpolation] returns [2], its last term being
    [(t3 - t2) * m0] with [m0 = 4]. *)
Theorem cubicSpline_differs_from_hermite :
  cubicSplineInterpolation Examples.hermite_track 0 (1 / 2)%R 3
    = Some (Vec4 2 0 0 0)%R
  /\ hermite_spec Examples.hermite_track 0 (1 / 2)%R 3 0 = Some (3 / 2)%R.
Proof.
  split.
  - real_eval. f_equal. f_equal; lra.
  - real_eval. f_equal. lra.
Qed.

(** The same evaluation in binary32, whatever the trigonometric functions
    are: the result is [2.0f]. *)
Lemma cubicSpline_binary32 (trig : Trig Binary32.binary32) :
  v4x <$> cubicSplineInterpolation Examples32.hermite_track 0
            (Examples32.f 1 2) 3
  = Some Binary32.two.
Proof. vm_compute. reflexivity. Qed.

(** ** Tick order (C4) *)

(** C4, as stated, fails: the first [update(0.5)] of the scenario does not
    write the translation (5,0,0). *)
Lemma tick_does_not_advance_first :
  ~ (exists a1 nodes1,
       update Examples.scenario_clip [Examples.a_node] (1 / 2)%R
         = Some (a1, nodes1)
       /\ translation <$> nodes1 !! 0%nat = Some (Vec3 5 0 0)%R).
Proof.
  intros (a1 & nodes1 & Hup & Htr).
  assert (update Examples.scenario_clip [Examples.a_node] (1 / 2)%R
          = Some (advance_clock Examples.scenario_clip (1 / 2)%R,
                  [set_translation Examples.a_node (Vec3 0 0 0)%R])) as Hrun.
  { real_eval. repeat f_equal; lra. }
  rewrite Hrun in Hup. injection Hup as <- <-.
  simpl in Htr. injection Htr as Hx. lra.
Qed.

(** C4 (amended): each tick evaluates the channels at the current time and
    advances the clock afterwards.  On the scenario, [update(0.5)] writes the
    translation (0,0,0), the value at time 0, and leaves the clock at 0.5;
    the further [update(0.6)] writes (5,0,0), the value at time 0.5, and
    resets the clock to 0. *)
Theorem tick_evaluates_then_advances :
  let a1 := advance_clock Examples.scenario_clip (1 / 2)%R in
  let nodes1 := [set_translation Examples.a_node (Vec3 0 0 0)%R] in
  let a2 := advance_clock a1 (6 / 10)%R in
  let nodes2 := [set_translation Examples.a_node (Vec3 5 0 0)%R] in
  update Examples.scenario_clip [Examples.a_node] (1 / 2)%R = Some (a1, nodes1)
  /\ current_time a1 = (1 / 2)%R
  /\ update a1 nodes1 (6 / 10)%R = Some (a2, nodes2)
  /\ current_time a2 = 0%R.
Proof.
  cbv zeta. repeat split.
  - real_eval. repeat f_equal; lra.
  - real_eval. lra.
  - real_eval. repeat f_equal; lra.
  - real_eval. reflexivity.
Qed.

(** The same two ticks in binary32, whatever the trigonometric functions
    are; 0.6 is the [float] nearest to it, and the sum 0.5f + 0.6f is past
    1.0f. *)
Lemma tick_order_binary32 (trig : Trig Binary32.binary32) :
  let a1 := advance_clock Examples32.scenario_clip (Examples32.f 1 2) in
  let nodes1 := [set_translation Examples32.a_node
                   (Vec3 Binary32.zero Binary32.zero Binary32.zero)] in
  let a2 := advance_clock a1 (Examples32.f 6 10) in
  let nodes2 := [set_translation Examples32.a_node
                   (Vec3 (Examples32.f 5 1) Binary32.zero Binary32.zero)] in
  update Examples32.scenario_clip [Examples32.a_node] (Examples32.f 1 2)
    = Some (a1, nodes1)
  /\ update a1 nodes1 (Examples32.f 6 10) = Some (a2, nodes2)
  /\ current_time a2 = Binary32.zero.
Proof. cbv zeta. repeat split; vm_compute; reflexivity. Qed.

(** ** The initial bounds of a clip (C8) *)

Lemma digits2_pos_bound (m : positive) : Z.pos m < 2 ^ Z.pos (digits2_pos m).
Proof.
  induction m as [p IH|p IH|]; simpl digits2_pos.
  - rewrite Pos2Z.inj_succ, Z.pow_succ_r by lia. lia.
  - rewrite Pos2Z.inj_succ, Z.pow_succ_r by lia. lia.
  - reflexivity.
Qed.

(** Every finite binary32 value is at most [FLT_MAX]. *)
Lemma limits_max_greatest (x : Binary32.binary32) :
  valid_binary Binary32.prec Binary32.emax x = true ->
  Binary32.is_finite x = true ->
  SFleb x Binary32.limits_max = true.
Proof.
  destruct x as [s|s| |s m e]; simpl; try discriminate; intros Hv _.
  - reflexivity.
  - unfold bounded, canonical_mantissa in Hv.
    apply andb_prop in Hv as [Hc He].
    apply Z.eqb_eq in Hc. apply Z.leb_le in He.
    unfold Binary32.emax, Binary32.prec, fexp, emin in Hc, He.
    unfold SFleb, SFcompare, Binary32.limits_max.
    destruct s; [reflexivity|].
    destruct (Z.compare_spec e 104) as [-> | Hlt | Hgt]; [| reflexivity | lia].
    assert (Z.pos (digits2_pos m) = 24) as Hd by lia.
    pose proof (digits2_pos_bound m) as Hm. rewrite Hd in Hm.
    change (Pos.compare_cont Eq m 16777215) with (Pos.compare m 16777215).
    destruct (Pos.compare_spec m 16777215) as [-> | Hlt | Hgt];
      [reflexivity | reflexivity | lia].
Qed.

(** C8, as stated, fails: the bounds of a new clip are not infinite. *)
Lemma clip_bounds_not_infinite :
  ~ (start (@Animation_new Binary32.binary32 _) = S754_infinity false
     /\ end_ (@Animation_new Binary32.binary32 _) = S754_infinity true
     /\ current_time (@Animation_new Binary32.binary32 _) = S754_zero false).
Proof. intros [Hstart _]. discriminate Hstart. Qed.

(** C8 (amended): a new clip has [start] at the largest finite [float]
    ([std::numeric_limits<float>::max()]), a finite [end] and the clock at
    zero. *)
Theorem clip_initial_bounds :
  let a := @Animation_new Binary32.binary32 _ in
  start a = SFmax_float Binary32.prec Binary32.emax
  /\ Binary32.is_finite (start a) = true
  /\ (forall x, valid_binary Binary32.prec Binary32.emax x = true ->
                Binary32.is_finite x = true -> SFleb x (start a) = true)
  /\ Binary32.is_finite (end_ a) = true
  /\ current_time a = S754_zero false.
Proof.
  cbv zeta. repeat split.
  intros x Hv Hf. apply limits_max_greatest; assumption.
Qed.

(** What [end] starts from is [std::numeric_limits<float>::min()], the
    smallest positive normal [float], which is above zero. *)
Lemma clip_initial_end_positive :
  let a := @Animation_new Binary32.binary32 _ in
  end_ a = S754_finite false 8388608 (-149)
  /\ SFltb (S754_zero false) (end_ a) = true.
Proof. cbv zeta. split; reflexivity. Qed.

(** ** Normalisation of rotations (C2) *)

Lemma dot_self_nonneg (q : quat R) : (0 <= dot q q)%R.
Proof. unfold dot. destruct q as [x y z w]. simpl. nra. Qed.

(** In exact arithmetic [normalize] returns a quaternion of magnitude 1,
    whatever it is given. *)
Lemma normalize_unit (q : quat R) : length_quat (normalize q) = 1%R.
Proof.
  pose proof (dot_self_nonneg q) as Hd.
  assert (length_quat q * length_quat q = dot q q)%R as Hsq
    by (unfold length_quat; simpl; apply sqrt_sqrt, Hd).
  unfold normalize.
  remember (length_quat q) as len eqn:Elen. clear Elen.
  destruct (f_le len f_zero) eqn:Hlen.
  - unfold length_quat, dot. simpl. apply sqrt_of_square; lra.
  - apply Rleb_gt in Hlen.
    unfold length_quat, dot in *. simpl in *.
    apply sqrt_of_square; [|lra].
    destruct q as [x y z w]; simpl in *.
    transitivity ((w * w + x * x + (y * y + z * z)) / (len * len))%R;
      [field; apply Rgt_not_eq; lra|].
    rewrite <- Hsq. field. apply Rgt_not_eq; lra.
Qed.

Lemma unit_is_within_tolerance (q : quat R) :
  length_quat q = 1%R -> unit_within_tolerance q.
Proof.
  intros Hq. unfold unit_within_tolerance. rewrite Hq.
  replace (1 - 1)%R with 0%R by lra. rewrite Rabs_R0. lra.
Qed.




(** ** The segment fraction (C7) *)

Lemma std_max_Rmax (x : R) : std_max 0%R x = Rmax 0 x.
Proof.
  unfold std_max, Rmax. simpl. unfold Exact.Rltb.
  destruct (Rlt_dec 0 x), (Rle_dec 0 x); try reflexivity; lra.
Qed.

Lemma fraction_real (s : AnimationSampler R) (i : Z) (time t0 t1 : R) :
  0 <= i -> i + 1 < 2 ^ 64 ->
  Wrap.at_ (inputs s) i = Some t0 ->
  Wrap.at_ (inputs s) (i + 1) = Some t1 ->
  fraction s i time = Some (Rmax 0 (time - t0) / (t1 - t0))%R.
Proof.
  intros Hi Hfit H0 H1. unfold fraction.
  rewrite size_t_small by lia. rewrite H0, H1. simpl.
  rewrite std_max_Rmax. reflexivity.
Qed.

Lemma cubic_t_real (s : AnimationSampler R) (i : Z) (time t0 t1 : R) :
  0 <= i -> i + 1 < 2 ^ 64 ->
  Wrap.at_ (inputs s) i = Some t0 ->
  Wrap.at_ (inputs s) (i + 1) = Some t1 ->
  cubic_delta s i = Some (t1 - t0)%R
  /\ cubic_t s i time = Some ((time - t0) / (t1 - t0))%R.
Proof.
  intros Hi Hfit H0 H1. unfold cubic_t, cubic_delta.
  rewrite size_t_small by lia. rewrite H0, H1. simpl.
  split; reflexivity.
Qed.

(** ** IEEE binary32: exact operations *)











(** The sign of a quotient. *)
Lemma SFdiv_not_negative (n d : spec_float) :
  SFltb (S754_zero false) d = true ->
  n = S754_zero false \/ SFltb (S754_zero false) n = true ->
  SFltb (SFdiv Binary32.prec Binary32.emax n d) (S754_zero false) = false.
Proof.
  intros Hd Hn.
  assert (exists sd, match d with
                     | S754_infinity s | S754_finite s _ _ => s = false
                     | _ => False
                     end /\ sd = d) as (sd & Hsd & _).
  { exists d. split; [|reflexivity].
    destruct d as [s|s| |s m e]; try discriminate Hd;
      destruct s; try discriminate Hd; reflexivity. }
  assert (match n with
          | S754_zero s | S754_infinity s | S754_finite s _ _ => s = false
          | S754_nan => False
          end) as Hsn.
  { destruct Hn as [-> | Hn]; [reflexivity|].
    destruct n as [s|s| |s m e]; try discriminate Hn;
      destruct s; try discriminate Hn; reflexivity. }
  destruct n as [sn|sn| |sn mn en]; destruct d as [sd'|sd'| |sd' md ed];
    try contradiction; subst; try reflexivity.
  unfold SFdiv.
  destruct (SFdiv_core_binary Binary32.prec Binary32.emax (Z.pos mn) en
              (Z.pos md) ed) as [[mz ez] lz] eqn:Hcore.
  assert (0 <= mz) as Hmz.
  { unfold SFdiv_core_binary in Hcore.
    set (m' := match en - ed - Z.min _ _ with
               | 0 => Z.pos mn | Z.pos _ => _ | Z.neg _ => 0 end) in Hcore.
    assert (0 <= m') as Hm'.
    { unfold m'. destruct (en - ed - Z.min _ _); try lia.
      apply Z.shiftl_nonneg. lia. }
    pose proof (Z.div_pos m' (Z.pos md) Hm' ltac:(lia)) as Hq.
    unfold Z.div in Hq.
    change (IntDef.Z.div_eucl m' (Z.pos md)) with (Z.div_eucl m' (Z.pos md)) in Hcore.
    destruct (Z.div_eucl m' (Z.pos md)) as [q r]. simpl in Hq.
    injection Hcore as <- _ _. exact Hq. }
  pose proof (binary_round_aux_sign Binary32.prec Binary32.emax false mz ez lz Hmz)
    as Hs.
  simpl. destruct (binary_round_aux _ _ false mz ez lz) as [s|s| |s m e];
    try contradiction; subst; reflexivity.
Qed.

Lemma binary32_fraction_laws : @FractionLaws Binary32.binary32 Binary32.arith.
Proof.
  split. intros x d Hd. simpl in *. apply SFdiv_not_negative; [exact Hd|].
  unfold std_max. simpl. destruct (SFltb Binary32.zero x) eqn:Hx; auto.
Qed.

Lemma real_fraction_laws : @FractionLaws R Exact.arith.
Proof.
  split. intros x d Hd. simpl in *. apply Rltb_lt in Hd. apply Rltb_ge.
  rewrite std_max_Rmax. unfold Rdiv.
  apply Rmult_le_pos; [apply Rmax_l|]. left. apply Rinv_0_lt_compat, Hd.
Qed.


Lemma real_segment_end_laws : @SegmentEndLaws R Exact.arith Exact.exactness.
Proof.
  split; simpl.
  - reflexivity.
  - exact I.
  - intros x _. exact I.
  - intros x _. ring.
  - apply Rltb_ge. lra.
  - intros d _. unfold Rdiv. ring.
  - intros d _ Hd. apply Rltb_lt in Hd. field. lra.
  - ring.
  - ring.
  - intros x _. ring.
  - intros x _. ring.
  - intros x _. ring.
  - intros z x -> _. ring.
  - intros y x z -> _ ->. ring.
  - intros y x -> _. ring.
  - unfold hermite_p0, hermite_m0, hermite_p1, hermite_m1. simpl.
    repeat split; ring.
  - unfold hermite_p0, hermite_m0, hermite_p1, hermite_m1. simpl.
    repeat split; ring.
Qed.

(** ** What [cubicSplineInterpolation] computes *)

Section Spline.

Context {F : Type} `{FloatArith F}.
Import Wrap.

Lemma vec4_set_get (pt pt' : vec4 F) (c : Z) (x : F) :
  vec4_set pt c x = Some pt' -> vec4_get pt' c = Some x.
Proof.
  unfold vec4_set, vec4_get.
  destruct c as [|[[|[]|]|[|[]|]|]|]; intros Hset; try discriminate;
    injection Hset as <-; reflexivity.
Qed.

Lemma vec4_set_get_other (pt pt' : vec4 F) (c k : Z) (x : F) :
  vec4_set pt c x = Some pt' -> k <> c -> vec4_get pt' k = vec4_get pt k.
Proof.
  unfold vec4_set, vec4_get.
  destruct c as [|[[|[]|]|[|[]|]|]|]; intros Hset Hne; try discriminate;
    injection Hset as <-;
    destruct k as [|[[|[]|]|[|[]|]|]|]; try reflexivity; contradiction.
Qed.

(** One turn of the loop stores the code's combination of the value and
    the in-tangent behind [current] and the value behind [next]. *)
Lemma cubic_component_spec (s : AnimationSampler F) (delta t : F)
    (current next stride c : Z) (pt : vec4 F) :
  0 <= current -> 0 <= next -> 0 <= stride -> 0 <= c < 4 ->
  current + c + 2 * stride < size (outputs s) ->
  next + c + 2 * stride < size (outputs s) ->
  current + c + 2 * stride < 2 ^ 32 ->
  next + c + 2 * stride < 2 ^ 32 ->
  exists p0 a0 p1 pt',
    at_ (outputs s) (current + stride + c) = Some p0
    /\ at_ (outputs s) (current + c) = Some a0
    /\ at_ (outputs s) (next + stride + c) = Some p1
    /\ cubic_component s delta t current next stride c pt = Some pt'
    /\ vec4_set pt c (code_spline p0 (f_mul delta a0) p1 t) = Some pt'.
Proof.
  intros Hcur Hnext Hstride Hc Hcb Hnb Hcw Hnw. unfold cubic_component.
  rewrite (uint32_small (stride * 1)), (uint32_small (stride * 2)),
    (uint32_small (current + c)), (uint32_small (next + c)) by lia.
  rewrite (uint32_small (current + c + stride * 1)),
    (uint32_small (current + c + 0)), (uint32_small (next + c + stride * 1)),
    (uint32_small (next + c + stride * 2)) by lia.
  destruct (at_is_Some (outputs s) (current + c + stride * 1)) as [p0 Hp0]; [lia|].
  destruct (at_is_Some (outputs s) (current + c + 0)) as [a0 Ha0]; [lia|].
  destruct (at_is_Some (outputs s) (next + c + stride * 1)) as [p1 Hp1]; [lia|].
  destruct (at_is_Some (outputs s) (next + c + stride * 2)) as [b1 Hb1]; [lia|].
  rewrite Hp0, Ha0, Hp1, Hb1. simpl.
  assert (is_Some (vec4_set pt c (code_spline p0 (f_mul delta a0) p1 t)))
    as [pt' Hset].
  { unfold vec4_set.
    assert (c = 0 \/ c = 1 \/ c = 2 \/ c = 3) as [-> | [-> | [-> | ->]]] by lia;
      eauto. }
  exists p0, a0, p1, pt'. repeat split.
  - rewrite <- Hp0. f_equal. lia.
  - rewrite <- Ha0. f_equal. lia.
  - rewrite <- Hp1. f_equal. lia.
  - exact Hset.
  - exact Hset.
Qed.

Lemma cubic_components_spec (s : AnimationSampler F) (delta t : F)
    (current next stride : Z) (n : nat) (c : Z) (pt : vec4 F) :
  0 <= current -> 0 <= next -> 0 <= stride <= 4 ->
  0 <= c -> c + Z.of_nat n <= stride ->
  current + 3 * stride <= size (outputs s) ->
  next + 3 * stride <= size (outputs s) ->
  current + 3 * stride <= 2 ^ 32 ->
  next + 3 * stride <= 2 ^ 32 ->
  exists pt',
    cubic_components s delta t current next stride n c pt = Some pt'
    /\ (forall k, c <= k < c + Z.of_nat n ->
          exists p0 a0 p1,
            at_ (outputs s) (current + stride + k) = Some p0
            /\ at_ (outputs s) (current + k) = Some a0
            /\ at_ (outputs s) (next + stride + k) = Some p1
            /\ vec4_get pt' k = Some (code_spline p0 (f_mul delta a0) p1 t))
    /\ (forall k, ~ c <= k < c + Z.of_nat n -> vec4_get pt' k = vec4_get pt k).
Proof.
  intros Hcur Hnext Hstride. revert c pt.
  induction n as [|n IH]; intros c pt Hc Hn Hcb Hnb Hcw Hnw; simpl.
  - exists pt. split; [reflexivity|]. split; [intros k Hk; lia | reflexivity].
  - destruct (cubic_component_spec s delta t current next stride c pt)
      as (p0 & a0 & p1 & pt1 & Hp0 & Ha0 & Hp1 & Hstep & Hset); try lia.
    rewrite Hstep. simpl. rewrite uint32_small by lia.
    destruct (IH (c + 1) pt1) as (pt' & Hrun & Hin & Hout); try lia.
    exists pt'. split; [exact Hrun|]. split.
    + intros k Hk. destruct (decide (k = c)) as [-> | Hne].
      * exists p0, a0, p1. repeat split; auto.
        rewrite Hout by lia. eapply vec4_set_get, Hset.
      * apply Hin. lia.
    + intros k Hk. rewrite Hout by lia.
      eapply vec4_set_get_other; [exact Hset | lia].
Qed.

(** [cubicSplineInterpolation] on the segment [i]: the component [k] is
    the code's combination of the value and the in-tangent of the keyframe
    [i] and the value of the keyframe [i + 1], taken at
    [t = (time - times[i]) / (times[i+1] - times[i])], which is not
    clamped. *)
Lemma cubicSplineInterpolation_spec (s : AnimationSampler F) (i : Z)
    (time t0 t1 : F) (stride : Z) :
  0 <= i -> at_ (inputs s) i = Some t0 -> at_ (inputs s) (i + 1) = Some t1 ->
  0 < stride <= 4 ->
  3 * stride * (i + 2) <= size (outputs s) ->
  3 * stride * (i + 2) <= 2 ^ 32 ->
  exists pt,
    cubicSplineInterpolation s i time stride = Some pt
    /\ (forall k, 0 <= k < stride ->
          exists p0 a0 p1,
            value s stride i k = Some p0
            /\ in_tangent s stride i k = Some a0
            /\ value s stride (i + 1) k = Some p1
            /\ vec4_get pt k
               = Some (code_spline p0 (f_mul (f_sub t1 t0) a0) p1
                         (f_div (f_sub time t0) (f_sub t1 t0)))).
Proof.
  intros Hi H0 H1 Hstride Hout Hwrap.
  assert (i + 1 < 2 ^ 64) as Hfit by nia.
  unfold cubicSplineInterpolation, cubicSplineInterpolation_from, cubic_t,
    cubic_delta.
  rewrite (size_t_small (i + 1)) by lia. rewrite H0, H1. simpl.
  assert (i * stride * 3 < 2 ^ 32 /\ (i + 1) * stride * 3 < 2 ^ 32) as [Hc Hn]
    by (split; nia).
  rewrite (size_t_small (i * stride)), (size_t_small ((i + 1) * stride)) by nia.
  rewrite (size_t_small (i * stride * 3)),
    (size_t_small ((i + 1) * stride * 3)) by nia.
  rewrite (uint32_small (i * stride * 3)),
    (uint32_small ((i + 1) * stride * 3)) by nia.
  destruct (cubic_components_spec s (f_sub t1 t0)
              (f_div (f_sub time t0) (f_sub t1 t0)) (i * stride * 3)
              ((i + 1) * stride * 3) stride (Z.to_nat stride) 0
              (Vec4 f_zero f_zero f_zero f_zero))
    as (pt & Hrun & Hin & _); try nia.
  exists pt. split; [exact Hrun|].
  intros k Hk. destruct (Hin k) as (p0 & a0 & p1 & Hp0 & Ha0 & Hp1 & Hget); [lia|].
  exists p0, a0, p1. unfold value, in_tangent. repeat split.
  - rewrite <- Hp0. f_equal. ring.
  - rewrite <- Ha0. f_equal. ring.
  - rewrite <- Hp1. f_equal. ring.
  - exact Hget.
Qed.

End Spline.

(** C7, as stated, fails: in CUBIC mode the numerator is not clamped.
    Half a unit before the first time stamp, [translate] on the LINEAR
    [scenario_track] writes what it writes at the time stamp itself, the
    keyframe (0,0,0); on the CUBIC [hermite_track] it writes (-3,0,0), and
    not the (1,0,0) it writes at the time stamp.  The same holds in
    binary32. *)
Lemma cubic_fraction_not_clamped :
  (translate Examples.scenario_track 0 (- (1 / 2))%R Examples.a_node
     = Some (set_translation Examples.a_node (Vec3 0 0 0)%R)
   /\ translate Examples.scenario_track 0 0%R Examples.a_node
      = Some (set_translation Examples.a_node (Vec3 0 0 0)%R)
   /\ translate Examples.hermite_track 0 (- (1 / 2))%R Examples.a_node
      = Some (set_translation Examples.a_node (Vec3 (-3) 0 0)%R)
   /\ translate Examples.hermite_track 0 0%R Examples.a_node
      = Some (set_translation Examples.a_node (Vec3 1 0 0)%R)
   /\ (Vec3 (-3) 0 0)%R <> (Vec3 1 0 0)%R)
  /\ (translate Examples32.scenario_track 0 (Examples32.f (-1) 2)
        Examples32.a_node
      = translate Examples32.scenario_track 0 Binary32.zero Examples32.a_node
      /\ translate Examples32.hermite_track 0 (Examples32.f (-1) 2)
           Examples32.a_node
         = Some (set_translation Examples32.a_node
                   (Vec3 (Examples32.f (-3) 1) Binary32.zero Binary32.zero))
      /\ translate Examples32.hermite_track 0 Binary32.zero Examples32.a_node
         = Some (set_translation Examples32.a_node
                   (Vec3 Binary32.one Binary32.zero Binary32.zero))).
Proof.
  split.
  - repeat split.
    + real_eval. repeat f_equal; lra.
    + real_eval. repeat f_equal; lra.
    + real_eval. repeat f_equal; lra.
    + real_eval. repeat f_equal; lra.
    + intros Heq. injection Heq as Heq. lra.
  - repeat split; vm_compute; reflexivity.
Qed.

(** C7 (amended), in any arithmetic that meets [FractionLaws], as the real
    numbers and IEEE binary32 do.  In LINEAR mode [translate], [scale] and
    [rotate] blend the two keyframes at the fraction
    [max(0, time - times[i]) / (times[i+1] - times[i])]: it is not below
    zero when the length of the segment, as computed, is positive, and it
    is [0 / (times[i+1] - times[i])] for every time that is not after
    [times[i]].  In STEP mode what is written does not depend on the time.
    In CUBIC mode each component that [cubicSplineInterpolation] returns is
    the code's combination taken at
    [(time - times[i]) / (times[i+1] - times[i])], without a clamp. *)
Theorem fraction_clamped_except_cubic {F : Type} {arith : FloatArith F}
    {trig : Trig F} {laws : FractionLaws}
    (p : PathType) (s : AnimationSampler F) (i : Z) (time t0 t1 : F)
    (a b : vec4 F) (transform : Transform F)
    (Hindex : 0 <= i < 2 ^ 64 - 1)
    (Ht0 : Wrap.at_ (inputs s) i = Some t0)
    (Ht1 : Wrap.at_ (inputs s) (i + 1) = Some t1)
    (Ha : Wrap.at_ (outputsVec4 s) i = Some a)
    (Hb : Wrap.at_ (outputsVec4 s) (i + 1) = Some b) :
  let u := f_div (std_max f_zero (f_sub time t0)) (f_sub t1 t0) in
  (interpolation s = LINEAR ->
   apply_path p s i time transform
   = Some match p with
          | TRANSLATION =>
              set_translation transform (vec3_of_vec4 (mix4 a b u))
          | SCALE => set_scale transform (vec3_of_vec4 (mix4 a b u))
          | ROTATION =>
              set_rotation transform
                (normalize (slerp (quat_of_vec4 a) (quat_of_vec4 b) u))
          end
   /\ (f_lt f_zero (f_sub t1 t0) = true -> f_lt u f_zero = false)
   /\ (f_lt f_zero (f_sub time t0) = false -> u = f_div f_zero (f_sub t1 t0)))
  /\ (interpolation s = STEP ->
      forall time' : F,
        apply_path p s i time' transform = apply_path p s i time transform)
  /\ (interpolation s = CUBICSPLINE ->
      3 * stride_of p * (i + 2) <= Wrap.size (outputs s) ->
      3 * stride_of p * (i + 2) <= 2 ^ 32 ->
      exists pt,
        cubicSplineInterpolation s i time (stride_of p) = Some pt
        /\ apply_path p s i time transform
           = Some match p with
                  | TRANSLATION => set_translation transform (vec3_of_vec4 pt)
                  | SCALE => set_scale transform (vec3_of_vec4 pt)
                  | ROTATION =>
                      set_rotation transform (normalize (quat_of_vec4 pt))
                  end
        /\ forall k, 0 <= k < stride_of p ->
             exists p0 a0 p1,
               value s (stride_of p) i k = Some p0
               /\ in_tangent s (stride_of p) i k = Some a0
               /\ value s (stride_of p) (i + 1) k = Some p1
               /\ vec4_get pt k
                  = Some (code_spline p0 (f_mul (f_sub t1 t0) a0) p1
                            (f_div (f_sub time t0) (f_sub t1 t0)))).
Proof.
  cbv zeta. split; [|split].
  - intros Hlinear. split; [|split].
    + assert (fraction s i time
              = Some (f_div (std_max f_zero (f_sub time t0)) (f_sub t1 t0)))
        as Hf.
      { unfold fraction. rewrite size_t_small by lia. rewrite Ht0, Ht1.
        reflexivity. }
      destruct p; unfold apply_path, translate, scale, rotate;
        rewrite Hlinear, Hf; simpl; rewrite Ha; simpl;
        rewrite size_t_small by lia; rewrite Hb; reflexivity.
    + apply clamped_not_negative.
    + intros Hbefore. unfold std_max. rewrite Hbefore. reflexivity.
  - intros Hstep time'.
    destruct p; unfold apply_path, translate, scale, rotate;
      rewrite Hstep; reflexivity.
  - intros Hcubic Hout Hwrap.
    destruct (cubicSplineInterpolation_spec s i time t0 t1 (stride_of p))
      as (pt & Hrun & Hval); try assumption; try lia.
    { destruct p; simpl; lia. }
    exists pt. split; [exact Hrun | split; [|exact Hval]].
    destruct p; unfold apply_path, translate, scale, rotate;
      rewrite Hcubic; simpl stride_of in Hrun; rewrite Hrun; reflexivity.
Qed.

Lemma fraction_clamped_except_cubic_witness :
  apply_path TRANSLATION Examples.scenario_track 0 (- (1 / 2))%R Examples.a_node
  = Some (set_translation Examples.a_node
            (vec3_of_vec4
               (mix4 (Examples.v3 0 0 0) (Examples.v3 10 0 0)
                  (std_max 0 (- (1 / 2) - 0) / (1 - 0))%R)))
  /\ Exact.Rltb (std_max 0 (- (1 / 2) - 0) / (1 - 0))%R 0 = false.
Proof.
  destruct (@fraction_clamped_except_cubic R Exact.arith Exact.trig
              real_fraction_laws TRANSLATION Examples.scenario_track 0
              (- (1 / 2))%R 0%R 1%R (Examples.v3 0 0 0) (Examples.v3 10 0 0)
              Examples.a_node ltac:(lia) eq_refl eq_refl eq_refl eq_refl)
    as [Hlinear _].
  destruct (Hlinear eq_refl) as (Hpath & Hpos & _).
  split; [exact Hpath|]. apply Hpos. apply Rltb_lt. simpl. lra.
Defined.

(** ** A time on the boundary of two segments (C6) *)

Lemma increasing_lt (l : list R) (j k : nat) (x y : R) :
  strictly_increasing l -> (j < k)%nat ->
  l !! j = Some x -> l !! k = Some y -> (x < y)%R.
Proof.
  intros Hinc. revert y. induction k as [|k IH]; intros y Hjk Hx Hy; [lia|].
  destruct (decide (j = k)) as [-> | Hne].
  - eapply Hinc; eauto.
  - destruct (lookup_lt_is_Some_2 l k) as [z Hz].
    { apply lookup_lt_Some in Hy. lia. }
    apply Rlt_trans with z; [apply IH; auto; lia | eapply Hinc; eauto].
Qed.

Lemma option_bind_Some {A} (m : option A) : m ≫= Some = m.
Proof. destruct m; reflexivity. Qed.

Section Boundary.

Variables (c : AnimationChannel) (s : AnimationSampler R) (time : R).
Import Wrap.

Lemma segment_step_ends_before (j : Z) (y : R) (nodes : list (Transform R)) :
  0 <= j -> j + 1 < 2 ^ 64 ->
  is_Some (at_ (inputs s) j) ->
  at_ (inputs s) (j + 1) = Some y -> (y < time)%R ->
  segment_step time c s j nodes = Some nodes.
Proof.
  intros Hj Hfit [x Hx] Hy Hlt. unfold segment_step.
  rewrite size_t_small by lia. rewrite Hx, Hy. simpl.
  destruct (Exact.Rleb x time); [|reflexivity].
  replace (Exact.Rleb time y) with false; [reflexivity|].
  symmetry. apply Rleb_gt, Hlt.
Qed.

Lemma segment_step_starts_after (j : Z) (x : R) (nodes : list (Transform R)) :
  at_ (inputs s) j = Some x -> (time < x)%R ->
  segment_step time c s j nodes = Some nodes.
Proof.
  intros Hx Hlt. unfold segment_step. rewrite Hx. simpl.
  replace (Exact.Rleb x time) with false; [reflexivity|].
  symmetry. apply Rleb_gt, Hlt.
Qed.

Lemma segment_step_at_end (j : Z) (x : R) (nodes : list (Transform R)) :
  0 <= j -> j + 1 < 2 ^ 64 ->
  at_ (inputs s) j = Some x -> at_ (inputs s) (j + 1) = Some time ->
  (x < time)%R ->
  segment_step time c s j nodes = apply_segment c s j time nodes.
Proof.
  intros Hj Hfit Hx Ht Hlt. unfold segment_step.
  rewrite (fraction_real s j time x time Hj Hfit Hx Ht).
  rewrite size_t_small by lia. rewrite Hx, Ht. simpl.
  replace (Exact.Rleb x time) with true by (symmetry; apply Rleb_le; lra).
  replace (Exact.Rleb time time) with true by (symmetry; apply Rleb_le; lra).
  rewrite Rmax_right by lra.
  replace ((time - x) / (time - x))%R with 1%R by (field; lra).
  replace (Exact.Rleb 1 1) with true by (symmetry; apply Rleb_le; lra).
  reflexivity.
Qed.

Lemma segment_step_at_start (j : Z) (y : R) (nodes : list (Transform R)) :
  0 <= j -> j + 1 < 2 ^ 64 ->
  at_ (inputs s) j = Some time -> at_ (inputs s) (j + 1) = Some y ->
  (time < y)%R ->
  segment_step time c s j nodes = apply_segment c s j time nodes.
Proof.
  intros Hj Hfit Ht Hy Hlt. unfold segment_step.
  rewrite (fraction_real s j time time y Hj Hfit Ht Hy).
  rewrite size_t_small by lia. rewrite Ht, Hy. simpl.
  replace (Exact.Rleb time time) with true by (symmetry; apply Rleb_le; lra).
  replace (Exact.Rleb time y) with true by (symmetry; apply Rleb_le; lra).
  replace (time - time)%R with 0%R by lra.
  rewrite Rmax_left by lra.
  replace (0 / (y - time))%R with 0%R by (unfold Rdiv; ring).
  replace (Exact.Rleb 0 1) with true by (symmetry; apply Rleb_le; lra).
  reflexivity.
Qed.

Lemma segments_none_hit (n : nat) (i : Z) (nodes : list (Transform R)) :
  0 <= i -> i + Z.of_nat n < 2 ^ 64 ->
  (forall j, i <= j < i + Z.of_nat n ->
             segment_step time c s j nodes = Some nodes) ->
  segments time c s n i nodes = Some nodes.
Proof.
  revert i. induction n as [|n IH]; intros i Hi Hfit Hmiss; simpl; [reflexivity|].
  rewrite Hmiss by lia. simpl. rewrite size_t_small by lia.
  apply IH; try lia. intros j Hj. apply Hmiss. lia.
Qed.

Lemma segments_app (n m : nat) (i : Z) (nodes : list (Transform R)) :
  0 <= i -> i + Z.of_nat n < 2 ^ 64 ->
  segments time c s (n + m) i nodes
  = segments time c s n i nodes ≫= segments time c s m (i + Z.of_nat n).
Proof.
  revert i nodes. induction n as [|n IH]; intros i nodes Hi Hfit; simpl.
  - replace (i + Z.of_nat 0) with i by lia. reflexivity.
  - destruct (segment_step time c s i nodes) as [nodes1|]; simpl; [|reflexivity].
    rewrite size_t_small by lia. rewrite IH by lia.
    replace (i + 1 + Z.of_nat n) with (i + Z.of_nat (S n)) by lia.
    reflexivity.
Qed.

End Boundary.

(** C6, as stated, fails: on [step_track], at the time 1 shared by the
    segments 0 and 1, the translation finally written is the one of
    segment 1, (3,0,0), and not the one segment 0 evaluates to, (2,0,0). *)
Lemma boundary_step_takes_later_segment :
  let a := Examples.clip_of Examples.step_track TRANSLATION 1 2 in
  let c := mkChannel TRANSLATION 0 0%nat in
  update_channel a c [Examples.a_node]
    = Some [set_translation Examples.a_node (Vec3 3 0 0)%R]
  /\ apply_segment c Examples.step_track 0 1%R [Examples.a_node]
     = Some [set_translation Examples.a_node (Vec3 2 0 0)%R]
  /\ update_channel a c [Examples.a_node]
     <> apply_segment c Examples.step_track 0 1%R [Examples.a_node].
Proof.
  assert (update_channel (Examples.clip_of Examples.step_track TRANSLATION 1 2)
            (mkChannel TRANSLATION 0 0%nat) [Examples.a_node]
          = Some [set_translation Examples.a_node (Vec3 3 0 0)%R]) as Hrun
    by (real_eval; reflexivity).
  assert (apply_segment (mkChannel TRANSLATION 0 0%nat) Examples.step_track 0 1%R
            [Examples.a_node]
          = Some [set_translation Examples.a_node (Vec3 2 0 0)%R]) as Hseg
    by (real_eval; reflexivity).
  cbv zeta. split; [exact Hrun | split; [exact Hseg|]].
  rewrite Hrun, Hseg. intros Heq. injection Heq as Heq. lra.
Qed.

(** C6 (amended): for a track with strictly increasing time stamps that the
    guard lets through, at a time equal to the boundary [times[i+1]] of the
    segments [i] and [i+1], evaluation is deterministic: segment [i] is
    applied, then segment [i+1] is applied on top of it, and no other
    segment is; what the node finally holds is what segment [i+1] wrote. *)
Theorem boundary_applies_both_segments (a : Animation R)
    (c : AnimationChannel) (s : AnimationSampler R) (i : nat) (t : R)
    (nodes : list (Transform R)) :
  Wrap.at_ (animation_samplers a) (samplerIndex c) = Some s ->
  Wrap.size (inputs s) <= Wrap.size (outputsVec4 s) ->
  Wrap.size (inputs s) < 2 ^ 64 ->
  strictly_increasing (inputs s) ->
  inputs s !! S i = Some t ->
  (S (S i) < length (inputs s))%nat ->
  current_time a = t ->
  update_channel a c nodes
  = apply_segment c s (Z.of_nat i) t nodes
      ≫= apply_segment c s (Z.of_nat i + 1) t
  /\ (forall nodes', update_channel a c nodes = Some nodes' ->
        exists transform transform',
          apply_path (path c) s (Z.of_nat i + 1) t transform = Some transform'
          /\ nodes' !! node c = Some transform').
Proof.
  intros Hs Hvals Hfit Hinc Ht Hlen Hnow.
  assert (update_channel a c nodes
          = apply_segment c s (Z.of_nat i) t nodes
              ≫= apply_segment c s (Z.of_nat i + 1) t) as Heq.
  { unfold update_channel. rewrite Hs. simpl.
    replace (Wrap.size (inputs s) >? Wrap.size (outputsVec4 s)) with false
      by (symmetry; rewrite Z.gtb_ltb; apply Z.ltb_ge; lia).
    rewrite Hnow. unfold Wrap.size in *.
    rewrite size_t_small by lia.
    set (rest := (length (inputs s) - i - 3)%nat).
    replace (Z.to_nat (Z.of_nat (length (inputs s)) - 1))
      with (i + (1 + (1 + rest)))%nat by lia.
    destruct (lookup_lt_is_Some_2 (inputs s) i) as [x Hx]; [lia|].
    destruct (lookup_lt_is_Some_2 (inputs s) (S (S i))) as [y Hy]; [lia|].
    assert (x < t)%R as Hxt by (eapply Hinc; eauto).
    assert (t < y)%R as Hty by (eapply Hinc; eauto).
    rewrite segments_app by lia.
    rewrite segments_none_hit; try lia.
    2:{ intros j Hj.
        destruct (lookup_lt_is_Some_2 (inputs s) (Z.to_nat j)) as [xj Hxj]; [lia|].
        destruct (lookup_lt_is_Some_2 (inputs s) (S (Z.to_nat j))) as [yj Hyj]; [lia|].
        apply segment_step_ends_before with (y := yj); try lia.
        - unfold Wrap.at_. eauto.
        - unfold Wrap.at_. rewrite <- Hyj. f_equal. lia.
        - apply (increasing_lt (inputs s) (S (Z.to_nat j)) (S i)); auto. lia. }
    simpl.
    replace (0 + Z.of_nat i) with (Z.of_nat i) by lia.
    rewrite (segment_step_at_end c s t (Z.of_nat i) x); try lia; auto.
    2:{ rewrite at_of_nat. exact Hx. }
    2:{ rewrite at_succ. exact Ht. }
    destruct (apply_segment c s (Z.of_nat i) t nodes) as [nodes1|];
      simpl; [|reflexivity].
    rewrite (size_t_small (Z.of_nat i + 1)) by lia.
    rewrite (size_t_small (Z.of_nat i + 1 + 1)) by lia.
    rewrite (segment_step_at_start c s t (Z.of_nat i + 1) y); try lia; auto.
    2:{ rewrite at_succ. exact Ht. }
    2:{ unfold Wrap.at_. rewrite <- Hy. f_equal. lia. }
    destruct (apply_segment c s (Z.of_nat i + 1) t nodes1) as [nodes2|];
      simpl; [|reflexivity].
    apply segments_none_hit; try lia.
    intros j Hj.
    destruct (lookup_lt_is_Some_2 (inputs s) (Z.to_nat j)) as [xj Hxj]; [lia|].
    apply segment_step_starts_after with (x := xj); [exact Hxj|].
    apply (increasing_lt (inputs s) (S i) (Z.to_nat j)); auto. lia. }
  split; [exact Heq|].
  intros nodes' Hup. rewrite Heq in Hup.
  destruct (apply_segment c s (Z.of_nat i) t nodes) as [nodes1|];
    simpl in Hup; [|discriminate].
  unfold apply_segment in Hup.
  destruct (nodes1 !! node c) as [tr|] eqn:Hnode; simpl in Hup; [|discriminate].
  destruct (apply_path (path c) s (Z.of_nat i + 1) t tr) as [tr'|] eqn:Hpath;
    simpl in Hup; [|discriminate].
  injection Hup as <-. exists tr, tr'. split; [exact Hpath|].
  apply list_lookup_insert_eq. eapply lookup_lt_Some, Hnode.
Qed.

Lemma boundary_applies_both_segments_witness :
  let a := Examples.clip_of Examples.step_track TRANSLATION 1 2 in
  let c := mkChannel TRANSLATION 0 0%nat in
  update_channel a c [Examples.a_node]
  = apply_segment c Examples.step_track (Z.of_nat 0) 1%R [Examples.a_node]
      ≫= apply_segment c Examples.step_track (Z.of_nat 0 + 1) 1%R
  /\ (forall nodes', update_channel a c [Examples.a_node] = Some nodes' ->
        exists transform transform',
          apply_path (path c) Examples.step_track (Z.of_nat 0 + 1) 1%R transform
            = Some transform'
          /\ nodes' !! node c = Some transform').
Proof.
  cbv zeta.
  apply (boundary_applies_both_segments
           (Examples.clip_of Examples.step_track TRANSLATION 1 2)
           (mkChannel TRANSLATION 0 0%nat) Examples.step_track 0%nat 1%R
           [Examples.a_node]).
  - reflexivity.
  - vm_compute. discriminate.
  - vm_compute. reflexivity.
  - intros j x y Hx Hy.
    destruct j as [|[|j]]; simpl in Hx, Hy.
    + injection Hx as <-. injection Hy as <-. lra.
    + injection Hx as <-. injection Hy as <-. lra.
    + destruct j; discriminate Hy.
  - reflexivity.
  - simpl. lia.
  - reflexivity.
Defined.

(** ** The two ends of a segment, in any arithmetic *)

Section GenericEnds.

Context {F : Type} {arith : FloatArith F} {trig : Trig F}
  {exactness : Exactness F} {laws : SegmentEndLaws}.
Import Wrap.

Lemma mix_start (a b : F) :
  f_finite a -> f_finite b -> f_same (mix a b f_zero) a.
Proof.
  intros Ha Hb. unfold mix. rewrite one_minus_zero, (mul_one a Ha).
  apply add_zero; [apply same_refl, Ha | exact Ha | apply mul_zero, Hb].
Qed.

Lemma mix_end (a b : F) :
  f_finite a -> f_finite b -> f_same (mix a b f_one) b.
Proof.
  intros Ha Hb. unfold mix. rewrite one_minus_one, (mul_one b Hb).
  apply zero_add; [apply mul_zero, Ha | exact Hb].
Qed.

Lemma code_spline_start (p0 m0 p1 : F) :
  f_finite p0 -> f_finite m0 -> f_finite p1 ->
  f_same (code_spline p0 m0 p1 f_zero) p0.
Proof.
  intros Hp0 Hm0 Hp1. unfold code_spline.
  destruct spline_start as (-> & H1 & H2 & H3).
  rewrite (one_mul p0 Hp0).
  apply add_zero; [|exact Hp0 | apply zero_mul; assumption].
  apply add_zero; [|exact Hp0 | apply zero_mul; assumption].
  apply add_zero; [apply same_refl, Hp0 | exact Hp0 | apply zero_mul; assumption].
Qed.

Lemma code_spline_end (p0 m0 p1 : F) :
  f_finite p0 -> f_finite m0 -> f_finite p1 ->
  f_same (code_spline p0 m0 p1 f_one) p1.
Proof.
  intros Hp0 Hm0 Hp1. unfold code_spline.
  destruct spline_end as (H0' & H1 & -> & H3).
  rewrite (one_mul p1 Hp1).
  apply add_zero; [|exact Hp1 | apply zero_mul; assumption].
  apply zero_add; [|exact Hp1].
  apply add_zero; [apply zero_mul; assumption | apply zero_finite
                  | apply zero_mul; assumption].
Qed.

(** Where [slerp] blends linearly, for keyframes that are nearly parallel,
    it returns at 0 a quaternion equal to the first keyframe and at 1 one
    equal to the second, negated when their dot product is below zero. *)
Lemma slerp_near_ends (a b : vec4 F) (at_end : bool) :
  finite4 a -> finite4 b ->
  f_lt (f_sub f_one f_epsilon)
    (if f_lt (dot (quat_of_vec4 a) (quat_of_vec4 b)) f_zero
     then f_neg (dot (quat_of_vec4 a) (quat_of_vec4 b))
     else dot (quat_of_vec4 a) (quat_of_vec4 b)) = true ->
  same_quat
    (slerp (quat_of_vec4 a) (quat_of_vec4 b) (if at_end then f_one else f_zero))
    (if at_end
     then if f_lt (dot (quat_of_vec4 a) (quat_of_vec4 b)) f_zero
          then quat_neg (quat_of_vec4 b) else quat_of_vec4 b
     else quat_of_vec4 a).
Proof.
  intros (Hax & Hay & Haz & Haw) (Hbx & Hby & Hbz & Hbw) Hnear.
  unfold slerp. cbv zeta. rewrite Hnear.
  destruct (f_lt (dot (quat_of_vec4 a) (quat_of_vec4 b)) f_zero);
    destruct at_end; unfold same_quat, quat_neg; simpl;
    repeat split;
    first [apply mix_end | apply mix_start]; auto using neg_finite.
Qed.

Variable s : AnimationSampler F.
Variables (i : Z) (t0 t1 : F).

Hypothesis index_nonneg : 0 <= i.
Hypothesis index_fits : i + 1 < 2 ^ 64.
Hypothesis time_start : at_ (inputs s) i = Some t0.
Hypothesis time_end : at_ (inputs s) (i + 1) = Some t1.
Hypothesis start_finite : f_finite t0.
Hypothesis length_finite : f_finite (f_sub t1 t0).
Hypothesis length_positive : f_lt f_zero (f_sub t1 t0) = true.

(** At [times[i]] the fraction is exactly 0 and at [times[i+1]] exactly 1,
    with and without the clamp. *)
Lemma fraction_at_end (at_end : bool) :
  fraction s i (if at_end then t1 else t0)
  = Some (if at_end then f_one else f_zero).
Proof.
  unfold fraction. rewrite size_t_small by lia.
  rewrite time_start, time_end. simpl. f_equal. unfold std_max.
  destruct at_end.
  - rewrite length_positive. apply div_self; assumption.
  - rewrite (sub_self t0 start_finite), zero_not_positive.
    apply zero_div, length_positive.
Qed.

Lemma cubic_t_at_end (at_end : bool) :
  f_div (f_sub (if at_end then t1 else t0) t0) (f_sub t1 t0)
  = if at_end then f_one else f_zero.
Proof.
  destruct at_end.
  - apply div_self; assumption.
  - rewrite (sub_self t0 start_finite). apply zero_div, length_positive.
Qed.

Hypothesis values_finite : track_finite s (f_sub t1 t0).

Lemma outputsVec4_finite (k : Z) (v : vec4 F) :
  at_ (outputsVec4 s) k = Some v -> finite4 v.
Proof.
  intros Hv. destruct values_finite as [Hall _].
  rewrite Forall_forall in Hall. apply Hall.
  eapply list_elem_of_lookup_2, Hv.
Qed.

Lemma outputs_finite (k : Z) (x : F) :
  at_ (outputs s) k = Some x -> f_finite x /\ f_finite (f_mul (f_sub t1 t0) x).
Proof.
  intros Hx. destruct values_finite as [_ Hall].
  rewrite Forall_forall in Hall. apply Hall.
  eapply list_elem_of_lookup_2, Hx.
Qed.

(** The LINEAR blend at an end of the segment. *)
Lemma linear_at_end (at_end : bool) :
  size (inputs s) <= size (outputsVec4 s) ->
  exists a b,
    at_ (outputsVec4 s) i = Some a
    /\ at_ (outputsVec4 s) (size_t (i + 1)) = Some b
    /\ same3 (vec3_of_vec4 (mix4 a b (if at_end then f_one else f_zero)))
         (vec3_of_vec4 (if at_end then b else a)).
Proof.
  intros Hvals.
  assert (i + 1 < size (inputs s)) as Hlen
    by (apply (at_Some_lt (inputs s) (i + 1) t1); [lia | exact time_end]).
  destruct (at_is_Some (outputsVec4 s) i) as [a Ha]; [lia|].
  destruct (at_is_Some (outputsVec4 s) (i + 1)) as [b Hb]; [lia|].
  destruct (outputsVec4_finite _ _ Ha) as (Hax & Hay & Haz & _).
  destruct (outputsVec4_finite _ _ Hb) as (Hbx & Hby & Hbz & _).
  exists a, b. rewrite size_t_small by lia. repeat split; auto;
    destruct at_end; simpl; first [apply mix_end | apply mix_start]; assumption.
Qed.

(** The cubic spline at an end of the segment. *)
Lemma cubic_at_end (at_end : bool) (stride : Z) :
  0 < stride <= 4 ->
  3 * stride * (i + 2) <= size (outputs s) ->
  3 * stride * (i + 2) <= 2 ^ 32 ->
  exists pt,
    cubicSplineInterpolation s i (if at_end then t1 else t0) stride = Some pt
    /\ (forall k, 0 <= k < stride ->
          exists x v,
            vec4_get pt k = Some x
            /\ value s stride (if at_end then i + 1 else i) k = Some v
            /\ f_same x v).
Proof.
  intros Hstride Hout Hwrap.
  destruct (cubicSplineInterpolation_spec s i (if at_end then t1 else t0)
              t0 t1 stride) as (pt & Hrun & Hval); try assumption.
  exists pt. split; [exact Hrun|].
  intros k Hk.
  destruct (Hval k Hk) as (p0 & a0 & p1 & Hp0 & Ha0 & Hp1 & Hget).
  rewrite cubic_t_at_end in Hget.
  destruct (outputs_finite _ _ Hp0) as [Fp0 _].
  destruct (outputs_finite _ _ Hp1) as [Fp1 _].
  destruct (outputs_finite _ _ Ha0) as [_ Fm0].
  destruct at_end.
  - exists (code_spline p0 (f_mul (f_sub t1 t0) a0) p1 f_one), p1.
    repeat split; auto. apply code_spline_end; assumption.
  - exists (code_spline p0 (f_mul (f_sub t1 t0) a0) p1 f_zero), p0.
    repeat split; auto. apply code_spline_start; assumption.
Qed.


(** A rotation channel at an end of the segment: in CUBIC mode it
    normalises a quaternion equal to the keyframe there; in LINEAR mode it
    normalises the [slerp] of the two keyframes taken at exactly 0,
    respectively 1, which for nearly parallel keyframes is equal to the
    keyframe there, up to its sign. *)
Lemma rotate_at_end (at_end : bool) (transform : Transform F) :
  interpolation s <> STEP ->
  size (inputs s) <= size (outputsVec4 s) ->
  (interpolation s = CUBICSPLINE ->
   3 * 4 * (i + 2) <= size (outputs s) /\ 3 * 4 * (i + 2) <= 2 ^ 32) ->
  exists k0 k1 q,
    keyframe4 s i = Some k0 /\ keyframe4 s (i + 1) = Some k1
    /\ rotate s i (if at_end then t1 else t0) transform
       = Some (set_rotation transform (normalize q))
    /\ match interpolation s with
       | CUBICSPLINE => same_quat q (if at_end then k1 else k0)
       | _ =>
           q = slerp k0 k1 (if at_end then f_one else f_zero)
           /\ (f_lt (f_sub f_one f_epsilon)
                 (if f_lt (dot k0 k1) f_zero then f_neg (dot k0 k1)
                  else dot k0 k1) = true ->
               same_quat q
                 (if at_end
                  then if f_lt (dot k0 k1) f_zero then quat_neg k1 else k1
                  else k0))
       end.
Proof.
  intros Hmode Hvals Hcubic.
  destruct (interpolation s) eqn:Hint; [| congruence |].
  - destruct (linear_at_end at_end Hvals) as (a & b & Ha & Hb & _).
    exists (quat_of_vec4 a), (quat_of_vec4 b),
           (slerp (quat_of_vec4 a) (quat_of_vec4 b)
              (if at_end then f_one else f_zero)).
    unfold keyframe4, rotate. rewrite Hint, fraction_at_end, Ha. simpl.
    rewrite Hb. rewrite size_t_small in Hb by lia. rewrite Hb. simpl.
    split; [reflexivity | split; [reflexivity | split; [reflexivity|]]].
    split; [reflexivity|].
    apply slerp_near_ends;
      [apply (outputsVec4_finite _ _ Ha) | apply (outputsVec4_finite _ _ Hb)].
  - destruct (Hcubic eq_refl) as [Hout Hwrap].
    assert (forall e : bool, exists pt k,
              cubicSplineInterpolation s i (if e then t1 else t0) 4 = Some pt
              /\ keyframe4 s (if e then i + 1 else i) = Some k
              /\ same_quat (quat_of_vec4 pt) k) as Hend.
    { intros e. destruct (cubic_at_end e 4) as (pt & Hrun & Hval); try lia.
      destruct (Hval 0) as (x & vx & Hx & Hvx & Sx); [lia|].
      destruct (Hval 1) as (y & vy & Hy & Hvy & Sy); [lia|].
      destruct (Hval 2) as (z & vz & Hz & Hvz & Sz); [lia|].
      destruct (Hval 3) as (w & vw & Hw & Hvw & Sw); [lia|].
      exists pt, (Quat vx vy vz vw). split; [exact Hrun | split].
      - unfold keyframe4. rewrite Hint, Hvx, Hvy, Hvz, Hvw. reflexivity.
      - simpl in Hx, Hy, Hz, Hw. injection Hx as <-. injection Hy as <-.
        injection Hz as <-. injection Hw as <-. repeat split; assumption. }
    destruct (Hend false) as (pt0 & k0 & Hrun0 & Hk0 & S0).
    destruct (Hend true) as (pt1 & k1 & Hrun1 & Hk1 & S1).
    exists k0, k1, (quat_of_vec4 (if at_end then pt1 else pt0)).
    split; [exact Hk0 | split; [exact Hk1 | split]].
    + unfold rotate. rewrite Hint.
      destruct at_end; [rewrite Hrun1 | rewrite Hrun0]; reflexivity.
    + destruct at_end; assumption.
Qed.

End GenericEnds.

(** ** [slerp] at 0 and at 1, in exact arithmetic

    In exact arithmetic what the LINEAR rotation of a segment normalises
    at its two ends is the keyframe there for any two keyframes, nearly
    parallel or not. *)

Lemma sin_acos_pos (c : R) :
  (0 <= c)%R -> (c <= 1 - / 2 ^ 23)%R -> (0 < sin (acos c))%R.
Proof.
  intros H0 H1.
  assert (0 < / 2 ^ 23)%R as Heps by (apply Rinv_0_lt_compat; lra).
  destruct (acos_bound_lt c) as [Hlo Hhi]; [lra|].
  apply sin_gt_0; assumption.
Qed.

Lemma slerp_ends (q0 q1 : quat R) :
  slerp q0 q1 0%R = q0
  /\ slerp q0 q1 1%R
     = if Exact.Rltb (dot q0 q1) 0 then quat_neg q1 else q1.
Proof.
  unfold slerp, quat_neg. cbv zeta.
  remember (dot q0 q1) as c eqn:Ec. clear Ec. cbn -[pow].
  remember (if Exact.Rltb c 0 then (- c)%R else c) as c' eqn:Ec'.
  assert (0 <= c')%R as Hc.
  { subst c'. destruct (Exact.Rltb c 0) eqn:Hneg.
    - apply Rltb_lt in Hneg. lra.
    - apply Rltb_ge in Hneg. exact Hneg. }
  clear Ec'.
  destruct (Exact.Rltb (1 - / 2 ^ 23) c') eqn:Hnear.
  - unfold mix. simpl.
    destruct q0 as [x0 y0 z0 w0], q1 as [x1 y1 z1 w1].
    destruct (Exact.Rltb c 0); simpl; split; f_equal; ring.
  - apply Rltb_ge in Hnear.
    pose proof (sin_acos_pos _ Hc Hnear) as Hsin.
    remember (acos c') as angle eqn:Ea. clear Ea.
    replace ((1 - 0) * angle)%R with angle by ring.
    replace ((1 - 1) * angle)%R with 0%R by ring.
    replace (0 * angle)%R with 0%R by ring.
    replace (1 * angle)%R with angle by ring.
    rewrite sin_0.
    destruct q0 as [x0 y0 z0 w0], q1 as [x1 y1 z1 w1].
    destruct (Exact.Rltb c 0); simpl; split; f_equal; field; lra.
Qed.

Lemma same_quat_eq (q r : quat R) : same_quat q r -> q = r.
Proof.
  destruct q, r. unfold same_quat. simpl. intros (-> & -> & -> & ->).
  reflexivity.
Qed.

Lemma real_track_finite (s : AnimationSampler R) (delta : R) :
  track_finite s delta.
Proof.
  split; apply Forall_forall; intros; repeat split.
Qed.

(** In exact arithmetic, a LINEAR or CUBIC rotation channel evaluated at
    [times[i]] writes [values[i]] normalised, and at [times[i+1]] writes
    [values[i+1]] normalised, negated first in LINEAR mode when the dot
    product of the two keyframes is below zero. *)
Lemma rotation_at_segment_ends_exact (s : AnimationSampler R) (i : Z)
    (t0 t1 : R) (transform : Transform R) :
  interpolation s <> STEP ->
  0 <= i < 2 ^ 64 - 1 ->
  Wrap.at_ (inputs s) i = Some t0 ->
  Wrap.at_ (inputs s) (i + 1) = Some t1 ->
  (t0 < t1)%R ->
  Wrap.size (inputs s) <= Wrap.size (outputsVec4 s) ->
  (interpolation s = CUBICSPLINE ->
   3 * 4 * (i + 2) <= Wrap.size (outputs s)
   /\ 3 * 4 * (i + 2) <= 2 ^ 32) ->
  exists k0 k1,
    keyframe4 s i = Some k0 /\ keyframe4 s (i + 1) = Some k1
    /\ rotate s i t0 transform
       = Some (set_rotation transform (normalize k0))
    /\ rotate s i t1 transform
       = Some (set_rotation transform
                 (normalize
                    match interpolation s with
                    | CUBICSPLINE => k1
                    | _ => if Exact.Rltb (dot k0 k1) 0
                           then quat_neg k1 else k1
                    end)).
Proof.
  intros Hmode Hi H0 H1 Hlt Hvals Hcubic.
  assert (Exact.Rltb 0 (t1 - t0) = true) as Hd by (apply Rltb_lt; lra).
  pose proof (fun e => @rotate_at_end R Exact.arith Exact.trig Exact.exactness
                real_segment_end_laws s i t0 t1 ltac:(lia) ltac:(lia) H0 H1 I I Hd
                (real_track_finite s _) e transform Hmode Hvals Hcubic) as Hend.
  destruct (Hend false) as (k0 & k1 & q0 & Hk0 & Hk1 & Hr0 & Hq0).
  destruct (Hend true) as (k0' & k1' & q1 & Hk0' & Hk1' & Hr1 & Hq1).
  rewrite Hk0 in Hk0'. injection Hk0' as <-.
  rewrite Hk1 in Hk1'. injection Hk1' as <-.
  exists k0, k1. split; [exact Hk0 | split; [exact Hk1|]].
  simpl in Hr0, Hr1. rewrite Hr0, Hr1.
  destruct (slerp_ends k0 k1) as [Hs0 Hs1].
  destruct (interpolation s); [| congruence |].
  - destruct Hq0 as [-> _]. destruct Hq1 as [-> _]. simpl.
    rewrite Hs0, Hs1. auto.
  - apply same_quat_eq in Hq0, Hq1. subst. auto.
Qed.

(** ** Values at the ends of a segment (C9) *)




(** ** The concrete runs in binary32 *)

(** The runs that refute C2, C3, C6, C7, C9 and C10 as stated come out the
    same in binary32, whatever the trigonometric functions are: a STEP
    rotation of magnitude 2 is written as it is; a CUBIC rotation of
    magnitude 2 is written normalised; a track with more values than time
    stamps is evaluated; on a shared boundary the later segment has the
    last word; the [t] of the cubic spline is negative before the segment;
    and an empty [outputs] is read out of range. *)
Lemma concrete_runs_binary32 (trig : Trig Binary32.binary32) :
  let c := mkChannel TRANSLATION 0 0%nat in
  let zero := Binary32.zero in
  let one := Binary32.one in
  let two := Binary32.two in
  let three := Binary32.three in
  rotate Examples32.step_rotation_track 0 zero Examples32.a_node
    = Some (set_rotation Examples32.a_node (Quat zero zero zero two))
  /\ length_quat (Quat zero zero zero two) = two
  /\ rotate Examples32.cubic_rotation_track 0 zero Examples32.a_node
     = Some (set_rotation Examples32.a_node (Quat zero zero zero one))
  /\ update_channel
       (Examples32.clip_of Examples32.longer_values_track TRANSLATION zero one)
       c [Examples32.a_node]
     = Some [set_translation Examples32.a_node (Vec3 two zero zero)]
  /\ update_channel
       (Examples32.clip_of Examples32.step_track TRANSLATION one two)
       c [Examples32.a_node]
     = Some [set_translation Examples32.a_node (Vec3 three zero zero)]
  /\ fraction Examples32.hermite_track 0 (Examples32.f (-1) 2) = Some zero
  /\ cubic_t Examples32.hermite_track 0 (Examples32.f (-1) 2)
     = Some (Examples32.f (-1) 2)
  /\ v4x <$> cubicSplineInterpolation Examples32.hermite_track 0
               (Examples32.f (-1) 2) 3
     = Some (Examples32.f (-3) 1)
  /\ update
       (Examples32.clip_of Examples32.no_outputs_track TRANSLATION zero one)
       [Examples32.a_node] zero
     = None.
Proof. cbv zeta. repeat split; vm_compute; reflexivity. Qed.

(** * The Vulkan instance *)

(** ** Extensions and layers by name *)

Lemma strcmp_eq_true (a b : string) : Vk.strcmp_eq a b = true <-> a = b.
Proof. unfold Vk.strcmp_eq. apply String.eqb_eq. Qed.

Lemma extension_found_iff (e : Vk.cstr) (available : list Vk.VkExtensionProperties) :
  Vk.extension_found e available = true
  <-> exists a, a ∈ available /\ Vk.extensionName a = Vk.text e.
Proof.
  induction available as [|a rest IH]; simpl.
  - split; [discriminate | intros (a & Ha & _); inversion Ha].
  - destruct (Vk.strcmp_eq (Vk.extensionName a) (Vk.text e)) eqn:Hcmp.
    + split; [intros _ | reflexivity].
      exists a. split; [apply list_elem_of_here | apply strcmp_eq_true, Hcmp].
    + rewrite IH. split.
      * intros (b & Hb & Heq). exists b. split; [apply list_elem_of_further, Hb | exact Heq].
      * intros (b & Hb & Heq). apply elem_of_cons in Hb as [-> | Hb].
        -- apply strcmp_eq_true in Heq. congruence.
        -- eauto.
Qed.

Lemma layer_found_iff (l : Vk.cstr) (available : list Vk.VkLayerProperties) :
  Vk.layer_found l available = true
  <-> exists a, a ∈ available /\ Vk.layerName a = Vk.text l.
Proof.
  induction available as [|a rest IH]; simpl.
  - split; [discriminate | intros (a & Ha & _); inversion Ha].
  - destruct (Vk.strcmp_eq (Vk.layerName a) (Vk.text l)) eqn:Hcmp.
    + split; [intros _ | reflexivity].
      exists a. split; [apply list_elem_of_here | apply strcmp_eq_true, Hcmp].
    + rewrite IH. split.
      * intros (b & Hb & Heq). exists b. split; [apply list_elem_of_further, Hb | exact Heq].
      * intros (b & Hb & Heq). apply elem_of_cons in Hb as [-> | Hb].
        -- apply strcmp_eq_true in Heq. congruence.
        -- eauto.
Qed.

Lemma validate_extensions_Forall (required : list Vk.cstr) available :
  Vk.validate_extensions required available = true
  <-> Forall (fun e => Vk.extension_found e available = true) required.
Proof.
  induction required as [|e rest IH]; simpl.
  - split; [constructor | reflexivity].
  - destruct (Vk.extension_found e available) eqn:He.
    + rewrite IH. split; [intros Hr; constructor; auto | intros Hall; inversion Hall; auto].
    + split; [discriminate | intros Hall; inversion Hall; congruence].
Qed.

Lemma validate_layers_Forall (required : list Vk.cstr) available :
  Vk.validate_layers required available = true
  <-> Forall (fun l => Vk.layer_found l available = true) required.
Proof.
  induction required as [|e rest IH]; simpl.
  - split; [constructor | reflexivity].
  - destruct (Vk.layer_found e available) eqn:He.
    + rewrite IH. split; [intros Hr; constructor; auto | intros Hall; inversion Hall; auto].
    + split; [discriminate | intros Hall; inversion Hall; congruence].
Qed.

(** X1.  [validate_extensions] and [validate_layers] answer true exactly
    when every required name is the name of some available extension
    (layer); the comparison is by characters, the addresses play no part. *)
Theorem validation_is_membership_by_name (required : list Vk.cstr)
    (extensions : list Vk.VkExtensionProperties)
    (layers : list Vk.VkLayerProperties) :
  (Vk.validate_extensions required extensions = true
   <-> forall e, e ∈ required -> Vk.has_extension extensions (Vk.text e))
  /\ (Vk.validate_layers required layers = true
      <-> forall l, l ∈ required -> Vk.has_layer layers (Vk.text l)).
Proof.
  split.
  - rewrite validate_extensions_Forall, Forall_forall.
    split; intros Hall e He; apply extension_found_iff, Hall, He.
  - rewrite validate_layers_Forall, Forall_forall.
    split; intros Hall l Hl; apply layer_found_iff, Hall, Hl.
Qed.

(** ** The validation layers chosen *)

Lemma first_supported_spec (priority : list (list Vk.cstr)) supported :
  Vk.validate_layers (Vk.first_supported priority supported) supported = true
  /\ (Vk.first_supported priority supported = []
      \/ Vk.first_supported priority supported ∈ priority).
Proof.
  induction priority as [|l rest [IHv IHm]]; simpl.
  - split; [reflexivity | left; reflexivity].
  - destruct (Vk.validate_layers l supported) eqn:Hl.
    + split; [exact Hl | right; apply list_elem_of_here].
    + split; [exact IHv|]. destruct IHm as [-> | Hin]; [left; reflexivity|].
      right. apply list_elem_of_further, Hin.
Qed.

(** X2.  Whatever the machine supports, every layer
    [get_optimal_validation_layers] returns is supported, and what it
    returns is one whole entry of the priority list or nothing: it never
    returns part of the five LunarG layers. *)
Theorem optimal_layers_are_supported (env : Vk.Env)
    (supported : list Vk.VkLayerProperties) :
  (forall l, l ∈ Vk.get_optimal_validation_layers env supported ->
     Vk.has_layer supported (Vk.text l))
  /\ (Vk.get_optimal_validation_layers env supported = []
      \/ Vk.get_optimal_validation_layers env supported
         ∈ Vk.validation_layer_priority_list env).
Proof.
  unfold Vk.get_optimal_validation_layers.
  destruct (first_supported_spec (Vk.validation_layer_priority_list env) supported)
    as [Hv Hm].
  split; [|exact Hm].
  apply validate_layers_Forall in Hv. rewrite Forall_forall in Hv.
  intros l Hl. apply layer_found_iff, Hv, Hl.
Qed.

Lemma layer_found_lit (env : Vk.Env) supported (k : nat) (name : string) :
  Vk.layer_found (Vk.lit env k name) supported = true
  <-> Vk.has_layer supported name.
Proof. apply layer_found_iff. Qed.

(** X3.  The order of preference: with the Khronos layer supported it
    alone is chosen; without it, the LunarG meta layer if supported; and
    nothing is chosen exactly when neither of these two nor the LunarG core
    layer is supported. *)
Theorem optimal_layers_priority (env : Vk.Env)
    (supported : list Vk.VkLayerProperties) :
  (Vk.has_layer supported "VK_LAYER_KHRONOS_validation" ->
   map Vk.text (Vk.get_optimal_validation_layers env supported)
   = ["VK_LAYER_KHRONOS_validation"])
  /\ (~ Vk.has_layer supported "VK_LAYER_KHRONOS_validation" ->
      Vk.has_layer supported "VK_LAYER_LUNARG_standard_validation" ->
      map Vk.text (Vk.get_optimal_validation_layers env supported)
      = ["VK_LAYER_LUNARG_standard_validation"])
  /\ (Vk.get_optimal_validation_layers env supported = [] <->
      ~ Vk.has_layer supported "VK_LAYER_KHRONOS_validation"
      /\ ~ Vk.has_layer supported "VK_LAYER_LUNARG_standard_validation"
      /\ ~ Vk.has_layer supported "VK_LAYER_LUNARG_core_validation").
Proof.
  unfold Vk.get_optimal_validation_layers, Vk.validation_layer_priority_list.
  rewrite <- (layer_found_lit env supported 0).
  rewrite <- (layer_found_lit env supported 1).
  rewrite <- (layer_found_lit env supported 5).
  assert (Vk.layer_found (Vk.lit env 7 "VK_LAYER_LUNARG_core_validation") supported
          = Vk.layer_found (Vk.lit env 5 "VK_LAYER_LUNARG_core_validation") supported)
    as Hsame.
  { destruct (Vk.layer_found (Vk.lit env 5 _) supported) eqn:H5.
    - apply layer_found_lit. apply layer_found_lit in H5. exact H5.
    - destruct (Vk.layer_found (Vk.lit env 7 _) supported) eqn:H7; [|reflexivity].
      apply layer_found_lit in H7. apply (layer_found_lit env supported 5) in H7.
      congruence. }
  simpl. rewrite Hsame.
  destruct (Vk.layer_found (Vk.lit env 0 "VK_LAYER_KHRONOS_validation") supported);
    [repeat split; try reflexivity; try discriminate;
     intros H; exfalso; [apply H; reflexivity | destruct H as [H _]; apply H; reflexivity]|].
  destruct (Vk.layer_found (Vk.lit env 1 "VK_LAYER_LUNARG_standard_validation") supported);
    [repeat split; try reflexivity; try discriminate;
     intros H; exfalso; destruct H as (_ & H & _); apply H; reflexivity|].
  split; [discriminate|]. split; [intros _; discriminate|].
  destruct (Vk.layer_found (Vk.lit env 5 "VK_LAYER_LUNARG_core_validation") supported).
  - split; [|intros (_ & _ & H); exfalso; apply H; reflexivity].
    destruct (Vk.layer_found (Vk.lit env 2 "VK_LAYER_GOOGLE_threading") supported);
    destruct (Vk.layer_found (Vk.lit env 3 "VK_LAYER_LUNARG_parameter_validation") supported);
    destruct (Vk.layer_found (Vk.lit env 4 "VK_LAYER_LUNARG_object_tracker") supported);
    destruct (Vk.layer_found (Vk.lit env 6 "VK_LAYER_GOOGLE_unique_objects") supported);
    discriminate.
  - split; [intros _; repeat split; discriminate|].
    intros _.
    destruct (Vk.layer_found (Vk.lit env 2 "VK_LAYER_GOOGLE_threading") supported);
    destruct (Vk.layer_found (Vk.lit env 3 "VK_LAYER_LUNARG_parameter_validation") supported);
    destruct (Vk.layer_found (Vk.lit env 4 "VK_LAYER_LUNARG_object_tracker") supported);
    reflexivity.
Qed.

Lemma validate_extensions_members (required : list Vk.cstr)
    (available : list Vk.VkExtensionProperties) :
  Vk.validate_extensions required available = true
  <-> forall e, e ∈ required -> Vk.has_extension available (Vk.text e).
Proof.
  rewrite validate_extensions_Forall, Forall_forall.
  split; intros Hall e He; apply extension_found_iff, Hall, He.
Qed.

Lemma validate_layers_members (required : list Vk.cstr)
    (available : list Vk.VkLayerProperties) :
  Vk.validate_layers required available = true
  <-> forall l, l ∈ required -> Vk.has_layer available (Vk.text l).
Proof.
  rewrite validate_layers_Forall, Forall_forall.
  split; intros Hall l Hl; apply layer_found_iff, Hall, Hl.
Qed.

(** ** The GPU picked *)

Lemma find_discrete_Some (env : Vk.Env) (gpus : list Z) (g : Z) :
  Vk.find_discrete env gpus = Some g ->
  exists before after,
    gpus = before ++ g :: after
    /\ Vk.deviceType env g = Vk.DISCRETE_GPU
    /\ Forall (fun d => Vk.deviceType env d <> Vk.DISCRETE_GPU) before.
Proof.
  induction gpus as [|d rest IH]; simpl; [discriminate|].
  destruct (Vk.deviceType env d) eqn:Hd;
    try (intros Hf; destruct (IH Hf) as (before & after & -> & Hg & Hb);
         exists (d :: before), after; repeat split; auto;
         constructor; [congruence | exact Hb]).
  intros [= <-]. exists [], rest. repeat split; auto.
Qed.

Lemma find_discrete_None (env : Vk.Env) (gpus : list Z) :
  Vk.find_discrete env gpus = None ->
  Forall (fun d => Vk.deviceType env d <> Vk.DISCRETE_GPU) gpus.
Proof.
  induction gpus as [|d rest IH]; simpl; [constructor|].
  destruct (Vk.deviceType env d) eqn:Hd; try discriminate;
    intros Hf; constructor; try congruence; auto.
Qed.

(** X4.  [get_gpu] returns the first discrete GPU of [gpus]; when no GPU
    is discrete it returns the first GPU; on an empty [gpus] the call
    [gpus.at(0)] throws [std::out_of_range]. *)
Theorem get_gpu_prefers_discrete (env : Vk.Env) (i : Vk.Instance) :
  (Vk.gpus i = [] -> Vk.get_gpu env i = Vk.Throws Vk.out_of_range)
  /\ (Vk.gpus i <> [] ->
      exists gpu before after,
        Vk.get_gpu env i = Vk.Returns gpu
        /\ Vk.gpus i = before ++ gpu :: after
        /\ Forall (fun d => Vk.deviceType env d <> Vk.DISCRETE_GPU) before
        /\ (Vk.deviceType env gpu = Vk.DISCRETE_GPU
            \/ (before = []
                /\ Forall (fun d => Vk.deviceType env d <> Vk.DISCRETE_GPU)
                     (Vk.gpus i)))).
Proof.
  unfold Vk.get_gpu. split.
  - intros ->. reflexivity.
  - intros Hne. destruct (Vk.find_discrete env (Vk.gpus i)) as [g|] eqn:Hf.
    + destruct (find_discrete_Some env _ _ Hf) as (before & after & Heq & Hg & Hb).
      exists g, before, after. auto.
    + pose proof (find_discrete_None env _ Hf) as Hnone.
      destruct (Vk.gpus i) as [|g rest]; [congruence|].
      exists g, [], rest. repeat split; auto.
Qed.

(** ** The constructors *)

Lemma query_gpus_Returns (env : Vk.Env) (handle : Z) (devices : list Z) :
  Vk.query_gpus env handle = Vk.Returns devices ->
  devices = Vk.vkEnumeratePhysicalDevices env handle /\ devices <> [].
Proof.
  unfold Vk.query_gpus.
  destruct (Z.of_nat (length (Vk.vkEnumeratePhysicalDevices env handle)) <? 1) eqn:Hc;
    [discriminate|].
  intros Heq. injection Heq as Heq. rewrite <- Heq. split; [reflexivity|].
  intros Hnil. rewrite Hnil in Hc. discriminate.
Qed.


Lemma push_headless_spec (env : Vk.Env) available (extensions : list Vk.cstr) :
  exists n : nat,
    Vk.push_headless env available extensions
    = extensions ++ replicate n (Vk.VK_EXT_HEADLESS_SURFACE_EXTENSION_NAME env)
    /\ (n <> 0%nat ->
        Vk.extension_found (Vk.VK_EXT_HEADLESS_SURFACE_EXTENSION_NAME env) available = true)
    /\ (n = 0%nat ->
        Vk.extension_found (Vk.VK_EXT_HEADLESS_SURFACE_EXTENSION_NAME env) available = false).
Proof.
  revert extensions. induction available as [|a rest IH]; intros extensions; simpl.
  - exists 0%nat. rewrite app_nil_r. repeat split; auto; congruence.
  - destruct (Vk.strcmp_eq (Vk.extensionName a)
                (Vk.text (Vk.VK_EXT_HEADLESS_SURFACE_EXTENSION_NAME env))).
    + destruct (IH (extensions ++ [Vk.VK_EXT_HEADLESS_SURFACE_EXTENSION_NAME env]))
        as (n & Heq & _).
      exists (S n). rewrite Heq, <- app_assoc. simpl. repeat split; auto. lia.
    + destruct (IH extensions) as (n & Heq & Hpos & Hzero).
      exists n. repeat split; auto.
Qed.


Lemma find_address_true (extensions : list Vk.cstr) (p : Vk.cstr) :
  Vk.find_address extensions p = true
  <-> exists e, e ∈ extensions /\ Vk.addr e = Vk.addr p.
Proof.
  induction extensions as [|e rest IH]; simpl.
  - split; [discriminate | intros (e & He & _); inversion He].
  - destruct (Vk.addr e =? Vk.addr p) eqn:Ha.
    + split; [intros _ | reflexivity].
      exists e. split; [apply list_elem_of_here | apply Z.eqb_eq, Ha].
    + rewrite IH. split.
      * intros (b & Hb & Heq). exists b. split; [apply list_elem_of_further, Hb | exact Heq].
      * intros (b & Hb & Heq). apply elem_of_cons in Hb as [-> | Hb].
        -- apply Z.eqb_neq in Ha. congruence.
        -- eauto.
Qed.

Lemma required_in_enabled (env : Vk.Env) (required : list Vk.cstr) (headless : bool) :
  required `prefix_of` Vk.enabled_extensions env required headless
  /\ (headless = false ->
      Vk.VK_KHR_SURFACE_EXTENSION_NAME env ∈ Vk.enabled_extensions env required headless).
Proof.
  unfold Vk.enabled_extensions.
  set (base := if Vk.VKB_DEBUG env || Vk.VKB_VALIDATION_LAYERS env
               then required ++ [Vk.VK_EXT_DEBUG_REPORT_EXTENSION_NAME env]
               else required).
  assert (required `prefix_of` base) as Hbase.
  { unfold base. destruct (Vk.VKB_DEBUG env || Vk.VKB_VALIDATION_LAYERS env);
      [apply prefix_app_r|]; reflexivity. }
  split.
  - destruct headless.
    + destruct (push_headless_spec env (Vk.vkEnumerateInstanceExtensionProperties env) base)
        as (n & -> & _).
      etransitivity; [exact Hbase | apply prefix_app_r; reflexivity].
    + etransitivity; [exact Hbase | apply prefix_app_r; reflexivity].
  - intros ->. apply elem_of_app. right. apply list_elem_of_here.
Qed.

(** What a successful run of the constructor went through. *)
Lemma Instance_new_Returns (env : Vk.Env) (application_name : string)
    (required_extensions required_validation_layers : list Vk.cstr)
    (headless : bool) (i : Vk.Instance) :
  Vk.Instance_new env application_name required_extensions
    required_validation_layers headless = Vk.Returns i ->
  Vk.volkInitialize env = 0
  /\ Vk.extensions i = Vk.enabled_extensions env required_extensions headless
  /\ Vk.validate_extensions (Vk.extensions i)
       (Vk.vkEnumerateInstanceExtensionProperties env) = true
  /\ Vk.validate_layers
       (Vk.requested_validation_layers env required_validation_layers)
       (Vk.vkEnumerateInstanceLayerProperties env) = true
  /\ Vk.gpus i = Vk.vkEnumeratePhysicalDevices env (Vk.handle i)
  /\ Vk.gpus i <> [].
Proof.
  unfold Vk.Instance_new.
  destruct (Vk.volkInitialize env =? 0) eqn:Hvolk; simpl; [|discriminate].
  destruct (Vk.validate_extensions _ _) eqn:Hext; simpl; [|discriminate].
  destruct (Vk.validate_layers _ _) eqn:Hlay; simpl; [|discriminate].
  destruct (Vk.vkCreateInstance env _) as [result handle].
  destruct (result =? Vk.VK_SUCCESS); simpl; [|discriminate].
  destruct (if Vk.VKB_DEBUG env || Vk.VKB_VALIDATION_LAYERS env
            then Vk.vkCreateDebugReportCallbackEXT env handle
            else (Vk.VK_SUCCESS, Vk.VK_NULL_HANDLE)) as [result' callback].
  destruct (result' =? Vk.VK_SUCCESS); simpl; [|discriminate].
  destruct (Vk.query_gpus env handle) as [devices|e] eqn:Hq; [|discriminate].
  intros [= <-]. simpl.
  destruct (query_gpus_Returns env handle devices Hq) as [Hd Hne].
  apply Z.eqb_eq in Hvolk. auto 10.
Qed.

Lemma enabled_extensions_headless (env : Vk.Env) (required : list Vk.cstr) :
  exists n : nat,
    Vk.enabled_extensions env required true
    = (required
       ++ (if Vk.VKB_DEBUG env || Vk.VKB_VALIDATION_LAYERS env
           then [Vk.VK_EXT_DEBUG_REPORT_EXTENSION_NAME env] else []))
      ++ replicate n (Vk.VK_EXT_HEADLESS_SURFACE_EXTENSION_NAME env)
    /\ (n <> 0%nat ->
        Vk.extension_found (Vk.VK_EXT_HEADLESS_SURFACE_EXTENSION_NAME env)
          (Vk.vkEnumerateInstanceExtensionProperties env) = true)
    /\ (n = 0%nat ->
        Vk.extension_found (Vk.VK_EXT_HEADLESS_SURFACE_EXTENSION_NAME env)
          (Vk.vkEnumerateInstanceExtensionProperties env) = false).
Proof.
  unfold Vk.enabled_extensions.
  destruct (push_headless_spec env (Vk.vkEnumerateInstanceExtensionProperties env)
              (if Vk.VKB_DEBUG env || Vk.VKB_VALIDATION_LAYERS env
               then required ++ [Vk.VK_EXT_DEBUG_REPORT_EXTENSION_NAME env]
               else required)) as (n & Heq & Hpos & Hzero).
  exists n. rewrite Heq. split; [|split; assumption].
  destruct (Vk.VKB_DEBUG env || Vk.VKB_VALIDATION_LAYERS env);
    [reflexivity | rewrite app_nil_r; reflexivity].
Qed.


(** X6.  What holds of an instance the constructor returns: volk was
    initialised; its extensions begin with the required ones, each of them
    is available by name, and outside headless mode the surface extension
    is among them; every requested layer is supported; and its GPUs are the
    devices enumerated on its handle, at least one. *)
Theorem constructed_instance_is_valid (env : Vk.Env) (application_name : string)
    (required_extensions required_validation_layers : list Vk.cstr)
    (headless : bool) (i : Vk.Instance)
    (Hnew : Vk.Instance_new env application_name required_extensions
              required_validation_layers headless = Vk.Returns i) :
  Vk.volkInitialize env = 0
  /\ required_extensions `prefix_of` Vk.extensions i
  /\ (forall e, e ∈ Vk.extensions i ->
        Vk.has_extension (Vk.vkEnumerateInstanceExtensionProperties env) (Vk.text e))
  /\ (headless = false -> Vk.VK_KHR_SURFACE_EXTENSION_NAME env ∈ Vk.extensions i)
  /\ (forall l, l ∈ required_validation_layers ->
        Vk.has_layer (Vk.vkEnumerateInstanceLayerProperties env) (Vk.text l))
  /\ Vk.gpus i = Vk.vkEnumeratePhysicalDevices env (Vk.handle i)
  /\ Vk.gpus i <> [].
Proof.
  destruct (Instance_new_Returns _ _ _ _ _ _ Hnew)
    as (Hvolk & Hext & Hvalid & Hlayers & Hgpus & Hne).
  destruct (required_in_enabled env required_extensions headless) as [Hpre Hsurf].
  rewrite Hext. repeat split; try assumption.
  - rewrite Hext in Hvalid.
    apply (proj1 (validate_extensions_members _ _)), Hvalid.
  - intros l Hl.
    apply (proj1 (validate_layers_members _ _) Hlayers).
    unfold Vk.requested_validation_layers.
    destruct (Vk.VKB_VALIDATION_LAYERS env); [apply elem_of_app; left|]; exact Hl.
Qed.

Lemma constructed_instance_is_valid_witness :
  Vk.Instance_new VkExamples.a_machine "sample" [VkExamples.wanted] [] false
    = Vk.Returns VkExamples.an_instance
  /\ Vk.gpus VkExamples.an_instance <> [].
Proof.
  split; [reflexivity|].
  apply (constructed_instance_is_valid VkExamples.a_machine "sample"
           [VkExamples.wanted] [] false VkExamples.an_instance).
  reflexivity.
Defined.

Lemma validate_extensions_false (required : list Vk.cstr) available :
  Vk.validate_extensions required available = false
  <-> exists e, e ∈ required /\ Vk.extension_found e available = false.
Proof.
  induction required as [|e rest IH]; simpl.
  - split; [discriminate | intros (e & He & _); inversion He].
  - destruct (Vk.extension_found e available) eqn:He.
    + rewrite IH. split.
      * intros (b & Hb & Hf). exists b. split; [apply list_elem_of_further, Hb | exact Hf].
      * intros (b & Hb & Hf). apply elem_of_cons in Hb as [-> | Hb]; [congruence | eauto].
    + split; [intros _ | reflexivity].
      exists e. split; [apply list_elem_of_here | exact He].
Qed.

Lemma extension_found_false (e : Vk.cstr) available :
  Vk.extension_found e available = false
  <-> ~ Vk.has_extension available (Vk.text e).
Proof.
  unfold Vk.has_extension. rewrite <- extension_found_iff.
  destruct (Vk.extension_found e available); split; congruence.
Qed.

Lemma enabled_extensions_members (env : Vk.Env) (required : list Vk.cstr)
    (headless : bool) (e : Vk.cstr) :
  e ∈ Vk.enabled_extensions env required headless ->
  Vk.extension_found e (Vk.vkEnumerateInstanceExtensionProperties env) = false ->
  e ∈ required
  \/ (Vk.VKB_DEBUG env || Vk.VKB_VALIDATION_LAYERS env = true
      /\ e = Vk.VK_EXT_DEBUG_REPORT_EXTENSION_NAME env)
  \/ (headless = false /\ e = Vk.VK_KHR_SURFACE_EXTENSION_NAME env).
Proof.
  destruct headless.
  - destruct (enabled_extensions_headless env required) as (n & -> & Hpos & _).
    rewrite !elem_of_app. intros [[Hr | Hd] | Hh] Hf.
    + left. exact Hr.
    + right. left. destruct (Vk.VKB_DEBUG env || Vk.VKB_VALIDATION_LAYERS env).
      * apply list_elem_of_singleton in Hd. auto.
      * inversion Hd.
    + apply elem_of_replicate in Hh as [-> Hn]. rewrite (Hpos Hn) in Hf. discriminate.
  - unfold Vk.enabled_extensions.
    destruct (Vk.VKB_DEBUG env || Vk.VKB_VALIDATION_LAYERS env);
      rewrite !elem_of_app; intros H _.
    + destruct H as [[Hr | Hd] | Hs].
      * left. exact Hr.
      * right. left. apply list_elem_of_singleton in Hd. auto.
      * right. right. apply list_elem_of_singleton in Hs. auto.
    + destruct H as [Hr | Hs].
      * left. exact Hr.
      * right. right. apply list_elem_of_singleton in Hs. auto.
Qed.

Lemma debug_in_enabled (env : Vk.Env) (required : list Vk.cstr) (headless : bool) :
  Vk.VKB_DEBUG env || Vk.VKB_VALIDATION_LAYERS env = true ->
  Vk.VK_EXT_DEBUG_REPORT_EXTENSION_NAME env
  ∈ Vk.enabled_extensions env required headless.
Proof.
  intros Hflag. destruct headless.
  - destruct (enabled_extensions_headless env required) as (n & -> & _).
    rewrite Hflag, !elem_of_app. left. right. apply list_elem_of_here.
  - unfold Vk.enabled_extensions. rewrite Hflag, !elem_of_app.
    left. right. apply list_elem_of_here.
Qed.

(** X7.  The first two failures of the constructor.  A failing
    [volkInitialize] is thrown on as a [VulkanException] whatever else is
    asked.  The constructor throws "Required instance extensions are
    missing." exactly when volk is initialised and a name is not available
    that is a required extension, the debug report extension in a build
    that has it, or the surface extension outside headless mode; a missing
    headless surface extension never makes it fail. *)
Theorem constructor_extension_failures (env : Vk.Env) (application_name : string)
    (required_extensions required_validation_layers : list Vk.cstr)
    (headless : bool) :
  (Vk.volkInitialize env <> 0 ->
   Vk.Instance_new env application_name required_extensions
     required_validation_layers headless
   = Vk.Throws (Vk.VulkanException (Vk.volkInitialize env)
                  "Failed to initialize volk."))
  /\ (Vk.Instance_new env application_name required_extensions
        required_validation_layers headless
      = Vk.Throws (Vk.runtime_error "Required instance extensions are missing.")
      <-> Vk.volkInitialize env = 0
          /\ ((exists e, e ∈ required_extensions
                 /\ ~ Vk.has_extension
                        (Vk.vkEnumerateInstanceExtensionProperties env) (Vk.text e))
              \/ (Vk.VKB_DEBUG env || Vk.VKB_VALIDATION_LAYERS env = true
                  /\ ~ Vk.has_extension
                         (Vk.vkEnumerateInstanceExtensionProperties env)
                         (Vk.text (Vk.VK_EXT_DEBUG_REPORT_EXTENSION_NAME env)))
              \/ (headless = false
                  /\ ~ Vk.has_extension
                         (Vk.vkEnumerateInstanceExtensionProperties env)
                         (Vk.text (Vk.VK_KHR_SURFACE_EXTENSION_NAME env))))).
Proof.
  unfold Vk.Instance_new. split.
  - intros Hvolk. apply Z.eqb_neq in Hvolk. rewrite Hvolk. reflexivity.
  - destruct (Vk.volkInitialize env =? 0) eqn:Hvolk; simpl.
    2:{ split; [discriminate|]. intros [H0 _]. apply Z.eqb_neq in Hvolk. contradiction. }
    apply Z.eqb_eq in Hvolk.
    destruct (Vk.validate_extensions _ _) eqn:Hext; simpl.
    + split.
      * destruct (Vk.validate_layers _ _); simpl; [|discriminate].
        destruct (Vk.vkCreateInstance env _) as [result handle].
        destruct (result =? Vk.VK_SUCCESS); simpl; [|discriminate].
        destruct (if Vk.VKB_DEBUG env || Vk.VKB_VALIDATION_LAYERS env
                  then Vk.vkCreateDebugReportCallbackEXT env handle
                  else (Vk.VK_SUCCESS, Vk.VK_NULL_HANDLE)) as [result' callback].
        destruct (result' =? Vk.VK_SUCCESS); simpl; [|discriminate].
        unfold Vk.query_gpus.
        destruct (Z.of_nat (length (Vk.vkEnumeratePhysicalDevices env handle)) <? 1);
          discriminate.
      * intros [_ Hmiss]. exfalso.
        pose proof (proj1 (validate_extensions_members _ _) Hext) as Hall.
        destruct (required_in_enabled env required_extensions headless) as [Hpre Hsurf].
        destruct Hmiss as [(e & He & Hno) | [[Hflag Hno] | [Hh Hno]]]; apply Hno, Hall.
        -- destruct Hpre as [k ->]. apply elem_of_app. left. exact He.
        -- apply debug_in_enabled, Hflag.
        -- apply Hsurf, Hh.
    + split; [intros _ | reflexivity]. split; [exact Hvolk|].
      apply validate_extensions_false in Hext as (e & He & Hf).
      destruct (enabled_extensions_members env _ _ e He Hf)
        as [Hr | [[Hflag ->] | [Hh ->]]]; apply extension_found_false in Hf.
      * left. eauto.
      * right. left. auto.
      * right. right. auto.
Qed.

(** X8.  The two constructors and [get_gpu] together: on an instance
    either constructor returns, [get_gpu] returns a device, one of those
    enumerated on the instance's handle; it cannot throw. *)
Theorem constructed_instance_has_gpu (env : Vk.Env) (application_name : string)
    (required_extensions required_validation_layers : list Vk.cstr)
    (headless : bool) (instance : Z) (i : Vk.Instance)
    (Hnew : Vk.Instance_new env application_name required_extensions
              required_validation_layers headless = Vk.Returns i
            \/ Vk.Instance_of_handle env instance = Vk.Returns i) :
  exists gpu, Vk.get_gpu env i = Vk.Returns gpu
              /\ gpu ∈ Vk.vkEnumeratePhysicalDevices env (Vk.get_handle i).
Proof.
  assert (Vk.gpus i = Vk.vkEnumeratePhysicalDevices env (Vk.handle i)
          /\ Vk.gpus i <> []) as [Hgpus Hne].
  { destruct Hnew as [Hnew | Hnew].
    - destruct (Instance_new_Returns _ _ _ _ _ _ Hnew) as (_ & _ & _ & _ & Hg & Hne).
      auto.
    - unfold Vk.Instance_of_handle in Hnew.
      destruct (instance =? Vk.VK_NULL_HANDLE); simpl in Hnew; [discriminate|].
      destruct (Vk.query_gpus env instance) as [devices|e] eqn:Hq; [|discriminate].
      injection Hnew as Hnew. rewrite <- Hnew. simpl.
      apply (query_gpus_Returns env instance devices Hq). }
  unfold Vk.get_handle, Vk.get_gpu. rewrite <- Hgpus.
  destruct (Vk.find_discrete env (Vk.gpus i)) as [g|] eqn:Hf.
  - destruct (find_discrete_Some env _ _ Hf) as (before & after & Heq & _).
    exists g. split; [reflexivity|].
    rewrite Heq. apply elem_of_app. right. apply list_elem_of_here.
  - destruct (Vk.gpus i) as [|g rest]; [congruence|].
    exists g. split; [reflexivity | apply list_elem_of_here].
Qed.

Lemma constructed_instance_has_gpu_witness :
  Vk.Instance_new VkExamples.a_machine "sample" [VkExamples.wanted] [] false
    = Vk.Returns VkExamples.an_instance
  /\ exists gpu, Vk.get_gpu VkExamples.a_machine VkExamples.an_instance
                 = Vk.Returns gpu
                 /\ gpu ∈ Vk.vkEnumeratePhysicalDevices VkExamples.a_machine
                          (Vk.get_handle VkExamples.an_instance).
Proof.
  split; [reflexivity|].
  apply (constructed_instance_has_gpu VkExamples.a_machine "sample"
           [VkExamples.wanted] [] false 0 VkExamples.an_instance).
  left. reflexivity.
Defined.

(** X9.  [is_enabled] compares addresses, not characters: on an instance
    the constructor returns it answers true for every pointer of the
    required extensions, and for any pointer it answers true exactly when
    an enabled extension has that very address, whatever the characters
    found there. *)
Theorem is_enabled_compares_addresses (env : Vk.Env) (application_name : string)
    (required_extensions required_validation_layers : list Vk.cstr)
    (headless : bool) (i : Vk.Instance)
    (Hnew : Vk.Instance_new env application_name required_extensions
              required_validation_layers headless = Vk.Returns i) :
  (forall p, p ∈ required_extensions -> Vk.is_enabled i p = true)
  /\ (forall q, Vk.is_enabled i q = true
                <-> exists e, e ∈ Vk.get_extensions i /\ Vk.addr e = Vk.addr q)
  /\ (forall q, (forall e, e ∈ Vk.get_extensions i -> Vk.addr e <> Vk.addr q) ->
                Vk.is_enabled i q = false).
Proof.
  destruct (Instance_new_Returns _ _ _ _ _ _ Hnew) as (_ & Hext & _).
  destruct (required_in_enabled env required_extensions headless) as [[k Hpre] _].
  unfold Vk.is_enabled, Vk.get_extensions. split; [|split].
  - intros p Hp. apply find_address_true. exists p. split; [|reflexivity].
    rewrite Hext, Hpre. apply elem_of_app. left. exact Hp.
  - intros q. apply find_address_true.
  - intros q Hq. destruct (Vk.find_address (Vk.extensions i) q) eqn:Hf; [|reflexivity].
    apply find_address_true in Hf as (e & He & Ha). destruct (Hq e He Ha).
Qed.

Lemma is_enabled_compares_addresses_witness :
  Vk.is_enabled VkExamples.an_instance VkExamples.wanted = true
  /\ Vk.is_enabled VkExamples.an_instance (Vk.CStr 41 "VK_KHR_surface") = false.
Proof.
  destruct (is_enabled_compares_addresses VkExamples.a_machine "sample"
              [VkExamples.wanted] [] false VkExamples.an_instance eq_refl)
    as (Hreq & _ & Hnot).
  split.
  - apply Hreq, list_elem_of_here.
  - apply Hnot. intros e He. simpl in He.
    repeat (apply elem_of_cons in He as [-> | He]; [discriminate|]).
    inversion He.
Defined.

(** X10.  The constructor from an existing handle: a null handle throws
    "Instance not valid"; an instance it returns keeps the handle, holds
    the devices enumerated on it, at least one, and reports every extension
    as not enabled, since it records none. *)
Theorem wrapped_handle_instance (env : Vk.Env) (instance : Z) :
  (instance = Vk.VK_NULL_HANDLE ->
   Vk.Instance_of_handle env instance
   = Vk.Throws (Vk.runtime_error "Instance not valid"))
  /\ (forall i, Vk.Instance_of_handle env instance = Vk.Returns i ->
        instance <> Vk.VK_NULL_HANDLE
        /\ Vk.get_handle i = instance
        /\ Vk.gpus i = Vk.vkEnumeratePhysicalDevices env instance
        /\ Vk.gpus i <> []
        /\ forall extension, Vk.is_enabled i extension = false).
Proof.
  unfold Vk.Instance_of_handle. split.
  - intros ->. reflexivity.
  - intros i. destruct (instance =? Vk.VK_NULL_HANDLE) eqn:Hnull; simpl; [discriminate|].
    destruct (Vk.query_gpus env instance) as [devices|e] eqn:Hq; [|discriminate].
    intros Hi. injection Hi as Hi. rewrite <- Hi. simpl.
    destruct (query_gpus_Returns env instance devices Hq) as [Hd Hne].
    apply Z.eqb_neq in Hnull. repeat split; auto.
Qed.

Lemma validate_layers_app (l1 l2 : list Vk.cstr) available :
  Vk.validate_layers (l1 ++ l2) available
  = Vk.validate_layers l1 available && Vk.validate_layers l2 available.
Proof.
  induction l1 as [|e l1 IH]; simpl; [reflexivity|].
  destruct (Vk.layer_found e available); [exact IH | reflexivity].
Qed.

Lemma validate_layers_false (required : list Vk.cstr) available :
  Vk.validate_layers required available = false
  <-> exists l, l ∈ required /\ ~ Vk.has_layer available (Vk.text l).
Proof.
  unfold Vk.has_layer. induction required as [|e rest IH]; simpl.
  - split; [discriminate | intros (e & He & _); inversion He].
  - destruct (Vk.layer_found e available) eqn:He.
    + rewrite IH. split.
      * intros (b & Hb & Hf). exists b. split; [apply list_elem_of_further, Hb | exact Hf].
      * intros (b & Hb & Hf). apply elem_of_cons in Hb as [-> | Hb]; [|eauto].
        apply layer_found_iff in He. contradiction.
    + split; [intros _ | reflexivity].
      exists e. split; [apply list_elem_of_here|].
      rewrite <- layer_found_iff. congruence.
Qed.

Lemma requested_layers_valid (env : Vk.Env) (required : list Vk.cstr) :
  Vk.validate_layers (Vk.requested_validation_layers env required)
    (Vk.vkEnumerateInstanceLayerProperties env)
  = Vk.validate_layers required (Vk.vkEnumerateInstanceLayerProperties env).
Proof.
  unfold Vk.requested_validation_layers.
  destruct (Vk.VKB_VALIDATION_LAYERS env); [|reflexivity].
  rewrite validate_layers_app. unfold Vk.get_optimal_validation_layers.
  rewrite (proj1 (first_supported_spec _ _)). apply andb_true_r.
Qed.

(** X11.  The layers the constructor adds for itself never make it fail:
    it throws "Required validation layers are missing." exactly when volk
    is initialised, the extensions it asks for are all available, and one of
    the layers the caller required is not supported. *)
Theorem constructor_layer_failure (env : Vk.Env) (application_name : string)
    (required_extensions required_validation_layers : list Vk.cstr)
    (headless : bool) :
  Vk.Instance_new env application_name required_extensions
    required_validation_layers headless
  = Vk.Throws (Vk.runtime_error "Required validation layers are missing.")
  <-> Vk.volkInitialize env = 0
      /\ Vk.validate_extensions
           (Vk.enabled_extensions env required_extensions headless)
           (Vk.vkEnumerateInstanceExtensionProperties env) = true
      /\ exists l, l ∈ required_validation_layers
           /\ ~ Vk.has_layer (Vk.vkEnumerateInstanceLayerProperties env) (Vk.text l).
Proof.
  unfold Vk.Instance_new.
  destruct (Vk.volkInitialize env =? 0) eqn:Hvolk; simpl.
  2:{ split; [discriminate|]. intros [H0 _]. apply Z.eqb_neq in Hvolk. contradiction. }
  apply Z.eqb_eq in Hvolk.
  destruct (Vk.validate_extensions _ _) eqn:Hext; simpl.
  2:{ split; [discriminate | intros (_ & H & _); discriminate]. }
  rewrite requested_layers_valid.
  destruct (Vk.validate_layers required_validation_layers _) eqn:Hlay; simpl.
  - split.
    + destruct (Vk.vkCreateInstance env _) as [result handle].
      destruct (result =? Vk.VK_SUCCESS); simpl; [|discriminate].
      destruct (if Vk.VKB_DEBUG env || Vk.VKB_VALIDATION_LAYERS env
                then Vk.vkCreateDebugReportCallbackEXT env handle
                else (Vk.VK_SUCCESS, Vk.VK_NULL_HANDLE)) as [result' callback].
      destruct (result' =? Vk.VK_SUCCESS); simpl; [|discriminate].
      unfold Vk.query_gpus.
      destruct (Z.of_nat (length (Vk.vkEnumeratePhysicalDevices env handle)) <? 1);
        discriminate.
    + intros (_ & _ & Hmiss). apply validate_layers_false in Hmiss. congruence.
  - split; [intros _ | reflexivity].
    repeat split; auto. apply validate_layers_false, Hlay.
Qed.

(** * More on the animation code *)

(** ** What a tick leaves alone *)

Section Frame.

Context {F : Type} `{FloatArith F} `{Trig F}.
Import Wrap.

Lemma apply_path_frame (q p : PathType) (s : AnimationSampler F) (i : Z)
    (time : F) (tr tr' : Transform F) :
  apply_path q s i time tr = Some tr' -> q <> p ->
  property p tr' = property p tr.
Proof.
  intros Hq Hne.
  destruct q; unfold apply_path, translate, scale, rotate in Hq;
    destruct (interpolation s);
    repeat match type of Hq with
           | (?m ≫= _) = Some _ =>
               destruct m; simpl in Hq; [|discriminate Hq]
           end;
    injection Hq as <-; destruct p; try reflexivity; congruence.
Qed.

Lemma apply_segment_frame (c : AnimationChannel) (s : AnimationSampler F)
    (i : Z) (time : F) (nodes nodes' : list (Transform F))
    (j : nat) (p : PathType) :
  apply_segment c s i time nodes = Some nodes' ->
  ~ (node c = j /\ path c = p) ->
  property p <$> nodes' !! j = property p <$> nodes !! j.
Proof.
  unfold apply_segment. intros Hs Hne.
  destruct (nodes !! node c) as [tr|] eqn:Hn; simpl in Hs; [|discriminate].
  destruct (apply_path (path c) s i time tr) as [tr'|] eqn:Hp;
    simpl in Hs; [|discriminate].
  injection Hs as <-.
  destruct (decide (node c = j)) as [<- | Hj].
  - rewrite list_lookup_insert_eq by (eapply lookup_lt_Some, Hn).
    rewrite Hn. simpl. f_equal.
    apply (apply_path_frame _ _ _ _ _ _ _ Hp). intros Heq. apply Hne. auto.
  - rewrite list_lookup_insert_ne by exact Hj. reflexivity.
Qed.

Lemma segment_step_frame (time : F) (c : AnimationChannel)
    (s : AnimationSampler F) (i : Z) (nodes nodes' : list (Transform F))
    (j : nat) (p : PathType) :
  segment_step time c s i nodes = Some nodes' ->
  ~ (node c = j /\ path c = p) ->
  property p <$> nodes' !! j = property p <$> nodes !! j.
Proof.
  unfold segment_step. intros Hs Hne.
  destruct (at_ (inputs s) i) as [t0|]; simpl in Hs; [|discriminate].
  destruct (f_le t0 time); [|congruence].
  destruct (at_ (inputs s) (size_t (i + 1))) as [t1|]; simpl in Hs; [|discriminate].
  destruct (f_le time t1); [|congruence].
  destruct (fraction s i time) as [u|]; simpl in Hs; [|discriminate].
  destruct (f_le u f_one); [|congruence].
  eapply apply_segment_frame; eauto.
Qed.

Lemma segments_frame (time : F) (c : AnimationChannel)
    (s : AnimationSampler F) (n : nat) (i : Z)
    (nodes nodes' : list (Transform F)) (j : nat) (p : PathType) :
  segments time c s n i nodes = Some nodes' ->
  ~ (node c = j /\ path c = p) ->
  length nodes' = length nodes
  /\ property p <$> nodes' !! j = property p <$> nodes !! j.
Proof.
  intros Hs Hne. revert i nodes Hs.
  induction n as [|n IH]; intros i nodes Hs; simpl in Hs.
  - injection Hs as <-. auto.
  - destruct (segment_step time c s i nodes) as [nodes1|] eqn:H1;
      simpl in Hs; [|discriminate].
    destruct (IH _ _ Hs) as [Hl Hp].
    rewrite Hl, Hp, (segment_step_length _ _ _ _ _ _ H1).
    split; [reflexivity|]. eapply segment_step_frame; eauto.
Qed.

Lemma update_channel_frame (a : Animation F) (c : AnimationChannel)
    (nodes nodes' : list (Transform F)) (j : nat) (p : PathType) :
  update_channel a c nodes = Some nodes' ->
  ~ (node c = j /\ path c = p) ->
  length nodes' = length nodes
  /\ property p <$> nodes' !! j = property p <$> nodes !! j.
Proof.
  unfold update_channel. intros Hu Hne.
  destruct (at_ (animation_samplers a) (samplerIndex c)) as [s|];
    simpl in Hu; [|discriminate].
  destruct (size (inputs s) >? size (outputsVec4 s)).
  - injection Hu as <-. auto.
  - eapply segments_frame; eauto.
Qed.

Lemma update_channels_frame (a : Animation F) (cs : list AnimationChannel)
    (nodes nodes' : list (Transform F)) (j : nat) (p : PathType) :
  update_channels a cs nodes = Some nodes' ->
  (forall c, c ∈ cs -> ~ (node c = j /\ path c = p)) ->
  length nodes' = length nodes
  /\ property p <$> nodes' !! j = property p <$> nodes !! j.
Proof.
  revert nodes. induction cs as [|c cs IH]; intros nodes Hu Hne; simpl in Hu.
  - injection Hu as <-. auto.
  - destruct (update_channel a c nodes) as [nodes1|] eqn:H1;
      simpl in Hu; [|discriminate].
    destruct (IH _ Hu) as [Hl Hp].
    { intros c' Hc'. apply Hne. apply list_elem_of_further, Hc'. }
    destruct (update_channel_frame a c nodes nodes1 j p H1) as [Hl1 Hp1].
    { apply Hne. apply list_elem_of_here. }
    rewrite Hl, Hp. auto.
Qed.

Lemma segments_length (time : F) (c : AnimationChannel)
    (s : AnimationSampler F) (n : nat) (i : Z)
    (nodes nodes' : list (Transform F)) :
  segments time c s n i nodes = Some nodes' -> length nodes' = length nodes.
Proof.
  revert i nodes. induction n as [|n IH]; intros i nodes Hs; simpl in Hs.
  - injection Hs as <-. reflexivity.
  - destruct (segment_step time c s i nodes) as [nodes1|] eqn:H1;
      simpl in Hs; [|discriminate].
    rewrite (IH _ _ Hs). eapply segment_step_length, H1.
Qed.

Lemma update_channels_length (a : Animation F) (cs : list AnimationChannel)
    (nodes nodes' : list (Transform F)) :
  update_channels a cs nodes = Some nodes' -> length nodes' = length nodes.
Proof.
  revert nodes. induction cs as [|c cs IH]; intros nodes Hu; simpl in Hu.
  - injection Hu as <-. reflexivity.
  - destruct (update_channel a c nodes) as [nodes1|] eqn:H1;
      simpl in Hu; [|discriminate].
    rewrite (IH _ Hu). unfold update_channel in H1.
    destruct (at_ (animation_samplers a) (samplerIndex c)) as [s|];
      simpl in H1; [|discriminate].
    destruct (size (inputs s) >? size (outputsVec4 s)).
    + injection H1 as <-. reflexivity.
    + eapply segments_length, H1.
Qed.

End Frame.

(** X12.  A tick changes only what a channel drives: it keeps the number
    of nodes, and the translation, rotation or scale of a node is the same
    after the tick as before unless some channel of the clip has that node
    and that path. *)
Theorem update_changes_driven_properties_only {F : Type} `{FloatArith F} `{Trig F}
    (a a' : Animation F) (nodes nodes' : list (Transform F)) (delta_time : F)
    (Hupdate : update a nodes delta_time = Some (a', nodes')) :
  length nodes' = length nodes
  /\ forall (j : nat) (p : PathType),
       (forall c, c ∈ animation_channels a -> ~ (node c = j /\ path c = p)) ->
       property p <$> nodes' !! j = property p <$> nodes !! j.
Proof.
  unfold update in Hupdate.
  destruct (update_channels a (animation_channels a) nodes) as [nodes1|] eqn:Hcs;
    simpl in Hupdate; [|discriminate].
  injection Hupdate as _ <-. split.
  - eapply update_channels_length, Hcs.
  - intros j p Hne. eapply update_channels_frame; eauto.
Qed.

Lemma update_changes_driven_properties_only_witness :
  exists nodes',
    update Examples.scenario_clip [Examples.a_node] (1 / 2)%R
      = Some (advance_clock Examples.scenario_clip (1 / 2)%R, nodes')
    /\ property ROTATION <$> nodes' !! 0%nat
       = property ROTATION <$> [Examples.a_node] !! 0%nat.
Proof.
  exists [set_translation Examples.a_node (Vec3 0 0 0)%R].
  assert (update Examples.scenario_clip [Examples.a_node] (1 / 2)%R
          = Some (advance_clock Examples.scenario_clip (1 / 2)%R,
                  [set_translation Examples.a_node (Vec3 0 0 0)%R])) as Hrun.
  { real_eval. repeat f_equal; lra. }
  split; [exact Hrun|].
  apply (update_changes_driven_properties_only _ _ _ _ _ Hrun).
  intros c Hc [_ Hp]. apply list_elem_of_singleton in Hc. subst c. discriminate Hp.
Defined.

(** ** A clock outside the track *)

Section Outside.

Context {F : Type} `{FloatArith F} `{Trig F}.
Import Wrap.

Lemma segments_all_miss (time : F) (c : AnimationChannel)
    (s : AnimationSampler F) (n : nat) (i : Z) (nodes : list (Transform F)) :
  0 <= i -> i + Z.of_nat n < size (inputs s) -> size (inputs s) < 2 ^ 64 ->
  (forall t, t ∈ inputs s -> f_le t time = false)
  \/ (forall t, t ∈ inputs s -> f_le time t = false) ->
  segments time c s n i nodes = Some nodes.
Proof.
  intros Hi Hlen Hfit Hout. revert i Hi Hlen.
  induction n as [|n IH]; intros i Hi Hlen; simpl; [reflexivity|].
  assert (segment_step time c s i nodes = Some nodes) as ->.
  { unfold segment_step.
    destruct (at_is_Some (inputs s) i) as [t0 Ht0]; [lia|].
    rewrite size_t_small by lia.
    destruct (at_is_Some (inputs s) (i + 1)) as [t1 Ht1]; [lia|].
    rewrite Ht0, Ht1. simpl.
    destruct Hout as [Hbefore | Hafter].
    - rewrite Hbefore; [reflexivity|]. eapply list_elem_of_lookup_2, Ht0.
    - rewrite (Hafter t1); [|eapply list_elem_of_lookup_2, Ht1].
      destruct (f_le t0 time); reflexivity. }
  simpl. rewrite size_t_small by lia. apply IH; lia.
Qed.

End Outside.

Lemma nan_compares_false (t : Binary32.binary32) :
  f_le t S754_nan = false /\ f_le S754_nan t = false.
Proof. split; [destruct t as [[]|[]| |[] m e]|]; reflexivity. Qed.

(** X13.  A channel writes nothing when the clock is outside its track:
    for a sampler with at least one time stamp, if the comparison
    [current_time >= t] fails for every time stamp [t], or
    [current_time <= t] fails for every one (as both do for a NaN clock in
    [float]), or the sampler has a single time stamp, [update] passes the
    channel over and leaves every node as it is, whatever the channel's
    node and the sampler's values are. *)
Theorem clock_outside_track_writes_nothing {F : Type} `{FloatArith F} `{Trig F}
    (a : Animation F) (c : AnimationChannel) (s : AnimationSampler F)
    (nodes : list (Transform F))
    (Hsampler : Wrap.at_ (animation_samplers a) (samplerIndex c) = Some s)
    (Hstamps : inputs s <> [])
    (Hfits : Wrap.size (inputs s) < 2 ^ 64)
    (Houtside : length (inputs s) = 1%nat
                \/ (forall t, t ∈ inputs s -> f_le t (current_time a) = false)
                \/ (forall t, t ∈ inputs s -> f_le (current_time a) t = false)) :
  update_channel a c nodes = Some nodes.
Proof.
  unfold update_channel. rewrite Hsampler. simpl.
  destruct (Wrap.size (inputs s) >? Wrap.size (outputsVec4 s)); [reflexivity|].
  assert (0 < Wrap.size (inputs s)) as Hpos.
  { unfold Wrap.size. destruct (inputs s); [congruence | simpl; lia]. }
  rewrite size_t_small by lia.
  destruct Houtside as [Hone | Hout].
  - unfold Wrap.size. rewrite Hone. reflexivity.
  - apply segments_all_miss; try lia; exact Hout.
Qed.

Lemma clock_outside_track_writes_nothing_witness :
  update_channel (Examples.clip_of Examples.scenario_track TRANSLATION 2 1)
    (mkChannel TRANSLATION 0 0%nat) [Examples.a_node]
  = Some [Examples.a_node].
Proof.
  apply (clock_outside_track_writes_nothing
           (Examples.clip_of Examples.scenario_track TRANSLATION 2 1)
           (mkChannel TRANSLATION 0 0%nat) Examples.scenario_track
           [Examples.a_node]).
  - reflexivity.
  - discriminate.
  - vm_compute. reflexivity.
  - right. right. intros t Ht. apply Rleb_gt. simpl in *.
    repeat (apply elem_of_cons in Ht as [-> | Ht]; [lra|]).
    inversion Ht.
Defined.

(** ** The clock after a tick *)

Lemma real_end_laws : @EndLaws R Exact.arith.
Proof.
  split. intros e He. apply Rleb_le in He. apply Rltb_ge. exact He.
Qed.

Lemma binary32_end_laws : @EndLaws Binary32.binary32 Binary32.arith.
Proof.
  split. intros e He. simpl in *.
  destruct e as [[]|[]| |[] m e]; try reflexivity; discriminate He.
Qed.

(** X14.  After a tick the clock is never past [end]: whatever the clock
    and [delta_time] were, for a clip whose [end] is not below zero the
    comparison [current_time > end] fails once [update] has returned. *)
Theorem clock_not_past_end {F : Type} `{FloatArith F} `{Trig F}
    {laws : EndLaws} (a a' : Animation F) (nodes nodes' : list (Transform F))
    (delta_time : F)
    (Hend : f_le f_zero (end_ a) = true)
    (Hupdate : update a nodes delta_time = Some (a', nodes')) :
  f_lt (end_ a') (current_time a') = false /\ end_ a' = end_ a.
Proof.
  unfold update in Hupdate.
  destruct (update_channels a (animation_channels a) nodes) as [nodes1|];
    simpl in Hupdate; [|discriminate].
  injection Hupdate as <- _. simpl. split; [|reflexivity].
  destruct (f_lt (end_ a) (f_add (current_time a) delta_time)) eqn:Hpast.
  - apply zero_not_past, Hend.
  - exact Hpast.
Qed.

Lemma clock_not_past_end_witness :
  exists a' nodes',
    update Examples.scenario_clip [Examples.a_node] (3 / 2)%R = Some (a', nodes')
    /\ Exact.Rltb (end_ a') (current_time a') = false.
Proof.
  exists (advance_clock Examples.scenario_clip (3 / 2)%R),
         [set_translation Examples.a_node (Vec3 0 0 0)%R].
  assert (update Examples.scenario_clip [Examples.a_node] (3 / 2)%R
          = Some (advance_clock Examples.scenario_clip (3 / 2)%R,
                  [set_translation Examples.a_node (Vec3 0 0 0)%R])) as Hrun.
  { real_eval. repeat f_equal; lra. }
  split; [exact Hrun|].
  apply (@clock_not_past_end R Exact.arith Exact.trig real_end_laws
           Examples.scenario_clip
           (advance_clock Examples.scenario_clip (3 / 2)%R) [Examples.a_node]
           [set_translation Examples.a_node (Vec3 0 0 0)%R] (3 / 2)%R);
    [|exact Hrun].
  apply Rleb_le. simpl. lra.
Defined.

(** ** The segment a clock falls into *)

Section Hits.

Context {F : Type} {arith : FloatArith F} {trig : Trig F}.
Import Wrap.

Variables (c : AnimationChannel) (s : AnimationSampler F) (time : F).

Lemma segments_skip (n : nat) (i : Z) (nodes : list (Transform F)) :
  0 <= i -> i + Z.of_nat n < 2 ^ 64 ->
  (forall j, i <= j < i + Z.of_nat n ->
             segment_step time c s j nodes = Some nodes) ->
  segments time c s n i nodes = Some nodes.
Proof.
  revert i. induction n as [|n IH]; intros i Hi Hfit Hmiss; simpl; [reflexivity|].
  rewrite Hmiss by lia. simpl. rewrite size_t_small by lia.
  apply IH; try lia. intros j Hj. apply Hmiss. lia.
Qed.

Lemma segments_split (n m : nat) (i : Z) (nodes : list (Transform F)) :
  0 <= i -> i + Z.of_nat n < 2 ^ 64 ->
  segments time c s (n + m) i nodes
  = segments time c s n i nodes ≫= segments time c s m (i + Z.of_nat n).
Proof.
  revert i nodes. induction n as [|n IH]; intros i nodes Hi Hfit; simpl.
  - replace (i + Z.of_nat 0) with i by lia. reflexivity.
  - destruct (segment_step time c s i nodes) as [nodes1|]; simpl; [|reflexivity].
    rewrite size_t_small by lia. rewrite IH by lia.
    replace (i + 1 + Z.of_nat n) with (i + Z.of_nat (S n)) by lia.
    reflexivity.
Qed.

(** A segment whose first or second time test fails is passed over. *)
Lemma segment_step_not_started (j : nat) (x : F) (nodes : list (Transform F)) :
  inputs s !! j = Some x -> f_le x time = false ->
  segment_step time c s (Z.of_nat j) nodes = Some nodes.
Proof.
  intros Hx Hlt. unfold segment_step. rewrite at_of_nat, Hx. simpl.
  rewrite Hlt. reflexivity.
Qed.

Lemma segment_step_over (j : nat) (y : F) (nodes : list (Transform F)) :
  Z.of_nat j + 1 < 2 ^ 64 ->
  (S j < length (inputs s))%nat ->
  inputs s !! S j = Some y -> f_le time y = false ->
  segment_step time c s (Z.of_nat j) nodes = Some nodes.
Proof.
  intros Hfit Hlen Hy Hlt. unfold segment_step.
  destruct (lookup_lt_is_Some_2 (inputs s) j) as [x Hx]; [lia|].
  rewrite at_of_nat, Hx. simpl. rewrite size_t_small by lia.
  rewrite at_succ, Hy. simpl. rewrite Hlt.
  destruct (f_le x time); reflexivity.
Qed.

(** A segment whose two time tests pass is applied when its fraction
    passes the test [u <= 1.0f], and passed over otherwise. *)
Lemma segment_step_hit (j : nat) (x y : F) (nodes : list (Transform F)) :
  Z.of_nat j + 1 < 2 ^ 64 ->
  inputs s !! j = Some x -> inputs s !! S j = Some y ->
  f_le x time = true -> f_le time y = true ->
  segment_step time c s (Z.of_nat j) nodes
  = if f_le (f_div (std_max f_zero (f_sub time x)) (f_sub y x)) f_one
    then apply_segment c s (Z.of_nat j) time nodes
    else Some nodes.
Proof.
  intros Hfit Hx Hy Hge Hle. unfold segment_step, fraction.
  rewrite size_t_small by lia.
  rewrite at_of_nat, Hx. simpl. rewrite Hge, at_succ, Hy. simpl.
  rewrite Hle. reflexivity.
Qed.

Lemma segments_later_skipped (i : nat) (n : nat) (nodes : list (Transform F)) :
  Wrap.size (inputs s) < 2 ^ 64 ->
  (i + n < length (inputs s))%nat ->
  (forall k t, (i <= k)%nat -> (S k < length (inputs s))%nat ->
               inputs s !! k = Some t -> f_le t time = false) ->
  segments time c s n (Z.of_nat i) nodes = Some nodes.
Proof.
  intros Hfits Hlen Hafter. unfold size in Hfits.
  apply segments_skip; try lia.
  intros j Hj.
  destruct (lookup_lt_is_Some_2 (inputs s) (Z.to_nat j)) as [x Hx]; [lia|].
  replace j with (Z.of_nat (Z.to_nat j)) by lia.
  apply (segment_step_not_started _ x); [exact Hx|].
  apply (Hafter (Z.to_nat j)); auto; lia.
Qed.

End Hits.

(** X15.  A channel whose clock passes the two time tests of the segment
    [i] only makes at most one sampler call: when the test
    [current_time <= times[k]] fails for the time stamps 1 to [i] and the
    test [current_time >= times[k]] fails for the time stamps that start a
    later segment, the whole segment loop amounts to the call of
    [translate], [scale] or [rotate] on the segment [i] if the fraction of
    that segment passes [u <= 1.0f], and to nothing otherwise.  In any
    arithmetic. *)
Theorem clock_inside_segment_applies_it {F : Type} {arith : FloatArith F}
    {trig : Trig F} (a : Animation F) (c : AnimationChannel)
    (s : AnimationSampler F) (i : nat) (t0 t1 : F)
    (nodes : list (Transform F))
    (Hsampler : Wrap.at_ (animation_samplers a) (samplerIndex c) = Some s)
    (Hguard : Wrap.size (inputs s) <= Wrap.size (outputsVec4 s))
    (Hfits : Wrap.size (inputs s) < 2 ^ 64)
    (Ht0 : inputs s !! i = Some t0) (Ht1 : inputs s !! S i = Some t1)
    (Hstarted : f_le t0 (current_time a) = true)
    (Hnot_over : f_le (current_time a) t1 = true)
    (Hbefore : forall k t, (0 < k <= i)%nat -> inputs s !! k = Some t ->
                           f_le (current_time a) t = false)
    (Hafter : forall k t, (i < k)%nat -> (S k < length (inputs s))%nat ->
                          inputs s !! k = Some t ->
                          f_le t (current_time a) = false) :
  update_channel a c nodes
  = if f_le (f_div (std_max f_zero (f_sub (current_time a) t0)) (f_sub t1 t0))
         f_one
    then apply_segment c s (Z.of_nat i) (current_time a) nodes
    else Some nodes.
Proof.
  pose proof (lookup_lt_Some _ _ _ Ht1) as Hlen.
  unfold update_channel. rewrite Hsampler. simpl.
  replace (Wrap.size (inputs s) >? Wrap.size (outputsVec4 s)) with false
    by (symmetry; rewrite Z.gtb_ltb; apply Z.ltb_ge; lia).
  unfold Wrap.size in *. rewrite size_t_small by lia.
  set (rest := (length (inputs s) - i - 2)%nat).
  replace (Z.to_nat (Z.of_nat (length (inputs s)) - 1))
    with (i + (1 + rest))%nat by lia.
  rewrite segments_split by lia.
  rewrite segments_skip; try lia.
  2:{ intros j Hj.
      destruct (lookup_lt_is_Some_2 (inputs s) (S (Z.to_nat j))) as [y Hy]; [lia|].
      replace j with (Z.of_nat (Z.to_nat j)) by lia.
      apply (segment_step_over _ _ _ _ y); try lia; [exact Hy|].
      apply (Hbefore (S (Z.to_nat j))); [lia | exact Hy]. }
  simpl. replace (0 + Z.of_nat i) with (Z.of_nat i) by lia.
  rewrite (segment_step_hit c s (current_time a) i t0 t1) by (auto; lia).
  assert (forall nodes1 : list (Transform F),
            segments (current_time a) c s rest (Wrap.size_t (Z.of_nat i + 1)) nodes1
            = Some nodes1) as Hrest.
  { intros nodes1. rewrite size_t_small by lia.
    replace (Z.of_nat i + 1) with (Z.of_nat (S i)) by lia.
    apply segments_later_skipped; [unfold Wrap.size; lia | lia |].
    intros k t Hk. apply Hafter. lia. }
  destruct (f_le _ f_one).
  - destruct (apply_segment c s (Z.of_nat i) (current_time a) nodes) as [nodes1|];
      simpl; [apply Hrest | reflexivity].
  - simpl. apply Hrest.
Qed.

Lemma clock_inside_segment_applies_it_witness :
  update_channel (Examples.clip_of Examples.step_track TRANSLATION (1 / 2) 2)
    (mkChannel TRANSLATION 0 0%nat) [Examples.a_node]
  = if Exact.Rleb (std_max 0 (1 / 2 - 0) / (1 - 0))%R 1
    then apply_segment (mkChannel TRANSLATION 0 0%nat) Examples.step_track
           (Z.of_nat 0) (1 / 2)%R [Examples.a_node]
    else Some [Examples.a_node].
Proof.
  assert (Wrap.size (inputs Examples.step_track)
          <= Wrap.size (outputsVec4 Examples.step_track)) as Hguard
    by (vm_compute; discriminate).
  assert (Wrap.size (inputs Examples.step_track) < 2 ^ 64) as Hfits
    by (vm_compute; reflexivity).
  assert (Exact.Rleb 0 (1 / 2) = true) as Hstarted by (apply Rleb_le; lra).
  assert (Exact.Rleb (1 / 2) 1 = true) as Hnot_over by (apply Rleb_le; lra).
  assert (forall (k : nat) (t : R), (0 < k <= 0)%nat ->
            inputs Examples.step_track !! k = Some t ->
            Exact.Rleb (1 / 2) t = false) as Hbefore
    by (intros k t Hk; lia).
  assert (forall (k : nat) (t : R), (0 < k)%nat ->
            (S k < length (inputs Examples.step_track))%nat ->
            inputs Examples.step_track !! k = Some t ->
            Exact.Rleb t (1 / 2) = false) as Hafter.
  { intros k t Hk Hlen Ht. simpl in Hlen.
    assert (k = 1%nat) as -> by lia. injection Ht as <-.
    apply Rleb_gt. lra. }
  exact (clock_inside_segment_applies_it
           (Examples.clip_of Examples.step_track TRANSLATION (1 / 2) 2)
           (mkChannel TRANSLATION 0 0%nat) Examples.step_track 0%nat 0%R 1%R
           [Examples.a_node] eq_refl Hguard Hfits eq_refl eq_refl
           Hstarted Hnot_over Hbefore Hafter).
Defined.

(** ** STEP tracks *)

Lemma apply_segment_step {F : Type} {arith : FloatArith F} {trig : Trig F}
    (c : AnimationChannel) (s : AnimationSampler F) (i : nat) (time : F)
    (v : vec4 F) (tr : Transform F) (nodes : list (Transform F)) :
  interpolation s = STEP ->
  outputsVec4 s !! i = Some v ->
  nodes !! node c = Some tr ->
  apply_segment c s (Z.of_nat i) time nodes
  = Some (<[node c := set_keyframe (path c) tr v]> nodes).
Proof.
  intros Hstep Hv Htr. unfold apply_segment. rewrite Htr. simpl.
  unfold apply_path, translate, scale, rotate. rewrite Hstep, at_of_nat, Hv.
  destruct (path c); reflexivity.
Qed.

Lemma set_keyframe_twice {F : Type} (p : PathType) (tr : Transform F)
    (v w : vec4 F) :
  set_keyframe p (set_keyframe p tr v) w = set_keyframe p tr w.
Proof. destruct p; reflexivity. Qed.

(** On a STEP track every segment either leaves the nodes as they are or
    stores a keyframe in the driven property of the channel's node;
    whichever segments were applied before, the node holds the first
    transform with one keyframe stored. *)
Lemma step_segments_prefix {F : Type} {arith : FloatArith F} {trig : Trig F}
    (c : AnimationChannel) (s : AnimationSampler F) (time : F)
    (tr : Transform F) (nodes : list (Transform F)) (n : nat) :
  interpolation s = STEP ->
  Wrap.size (inputs s) <= Wrap.size (outputsVec4 s) ->
  Wrap.size (inputs s) < 2 ^ 64 ->
  nodes !! node c = Some tr ->
  forall (j : nat) (tr1 : Transform F),
    (j + n < length (inputs s))%nat ->
    tr1 = tr \/ (exists w, tr1 = set_keyframe (path c) tr w) ->
    exists tr2,
      segments time c s n (Z.of_nat j) (<[node c := tr1]> nodes)
      = Some (<[node c := tr2]> nodes)
      /\ (tr2 = tr \/ exists w, tr2 = set_keyframe (path c) tr w).
Proof.
  intros Hstep Hguard Hfits Hnode. unfold Wrap.size in *.
  induction n as [|n IH]; intros j tr1 Hlen Htr1; simpl.
  - exists tr1. auto.
  - assert (exists tr',
              segment_step time c s (Z.of_nat j) (<[node c := tr1]> nodes)
              = Some (<[node c := tr']> nodes)
              /\ (tr' = tr \/ exists w, tr' = set_keyframe (path c) tr w))
      as (tr' & Hstep1 & Htr').
    { destruct (lookup_lt_is_Some_2 (inputs s) j) as [x Hx]; [lia|].
      destruct (lookup_lt_is_Some_2 (inputs s) (S j)) as [y Hy]; [lia|].
      destruct (lookup_lt_is_Some_2 (outputsVec4 s) j) as [v Hv]; [lia|].
      unfold segment_step, fraction. rewrite size_t_small by lia.
      rewrite at_of_nat, Hx. simpl. rewrite at_succ, Hy. simpl.
      destruct (f_le x time); [|eauto].
      destruct (f_le time y); [|eauto].
      destruct (f_le _ f_one); [|eauto].
      rewrite (apply_segment_step c s j time v tr1) by
        (auto; apply list_lookup_insert_eq; eapply lookup_lt_Some, Hnode).
      rewrite list_insert_insert_eq.
      exists (set_keyframe (path c) tr v). split.
      - destruct Htr1 as [-> | [w ->]]; [|rewrite set_keyframe_twice]; reflexivity.
      - right. eauto. }
    rewrite Hstep1. simpl. rewrite size_t_small by lia.
    replace (Z.of_nat j + 1) with (Z.of_nat (S j)) by lia.
    apply IH; [lia | exact Htr'].
Qed.

(** X16.  On a STEP track the last segment that passes the tests has the
    last word: when the clock passes the two time tests and the fraction
    test of the segment [i], and the test [current_time >= times[k]] fails
    for the time stamps that start a later segment, the channel leaves the
    stored [outputsVec4[i]] in the driven property of its node, whatever
    the segments before did.  In any arithmetic; with the segment [i] the
    last of the track, this is the case of a clock on the last time
    stamp. *)
Theorem step_holds_keyframe {F : Type} {arith : FloatArith F}
    {trig : Trig F} (a : Animation F) (c : AnimationChannel)
    (s : AnimationSampler F) (i : nat) (t0 t1 : F) (v : vec4 F)
    (tr : Transform F) (nodes : list (Transform F))
    (Hsampler : Wrap.at_ (animation_samplers a) (samplerIndex c) = Some s)
    (Hguard : Wrap.size (inputs s) <= Wrap.size (outputsVec4 s))
    (Hfits : Wrap.size (inputs s) < 2 ^ 64)
    (Hstep : interpolation s = STEP)
    (Ht0 : inputs s !! i = Some t0) (Ht1 : inputs s !! S i = Some t1)
    (Hv : outputsVec4 s !! i = Some v)
    (Hnode : nodes !! node c = Some tr)
    (Hstarted : f_le t0 (current_time a) = true)
    (Hnot_over : f_le (current_time a) t1 = true)
    (Hfraction : f_le (f_div (std_max f_zero (f_sub (current_time a) t0))
                         (f_sub t1 t0)) f_one = true)
    (Hafter : forall k t, (i < k)%nat -> (S k < length (inputs s))%nat ->
                          inputs s !! k = Some t ->
                          f_le t (current_time a) = false) :
  update_channel a c nodes
  = Some (<[node c := set_keyframe (path c) tr v]> nodes).
Proof.
  pose proof (lookup_lt_Some _ _ _ Ht1) as Hlen.
  unfold update_channel. rewrite Hsampler. simpl.
  replace (Wrap.size (inputs s) >? Wrap.size (outputsVec4 s)) with false
    by (symmetry; rewrite Z.gtb_ltb; apply Z.ltb_ge; lia).
  rewrite size_t_small by (unfold Wrap.size in *; lia).
  set (rest := (length (inputs s) - i - 2)%nat).
  replace (Z.to_nat (Wrap.size (inputs s) - 1))
    with (i + (1 + rest))%nat by (unfold Wrap.size; lia).
  rewrite segments_split by (unfold Wrap.size in *; lia).
  destruct (step_segments_prefix c s (current_time a) tr nodes i
              Hstep Hguard Hfits Hnode 0%nat tr) as (tr1 & Hprefix & Htr1);
    [lia | auto |].
  rewrite (list_insert_id nodes (node c) tr Hnode) in Hprefix.
  change (Z.of_nat 0) with 0 in Hprefix. rewrite Hprefix. simpl.
  replace (0 + Z.of_nat i) with (Z.of_nat i) by lia.
  rewrite (segment_step_hit c s (current_time a) i t0 t1)
    by (auto; unfold Wrap.size in *; lia).
  rewrite Hfraction.
  rewrite (apply_segment_step c s i _ v tr1) by
    (auto; apply list_lookup_insert_eq; eapply lookup_lt_Some, Hnode).
  simpl. rewrite list_insert_insert_eq.
  replace (set_keyframe (path c) tr1 v) with (set_keyframe (path c) tr v)
    by (destruct Htr1 as [-> | [w ->]]; [|rewrite set_keyframe_twice];
        reflexivity).
  rewrite size_t_small by (unfold Wrap.size in *; lia).
  replace (Z.of_nat i + 1) with (Z.of_nat (S i)) by lia.
  apply segments_later_skipped; [exact Hfits | lia |].
  intros k t Hk. apply Hafter. lia.
Qed.

Lemma step_holds_keyframe_witness :
  update_channel (Examples.clip_of Examples.step_track TRANSLATION 1 2)
    (mkChannel TRANSLATION 0 0%nat) [Examples.a_node]
  = Some [set_translation Examples.a_node (Vec3 3 0 0)%R].
Proof.
  apply (step_holds_keyframe
           (Examples.clip_of Examples.step_track TRANSLATION 1 2)
           (mkChannel TRANSLATION 0 0%nat) Examples.step_track 1%nat 1%R 2%R
           (Examples.v3 3 0 0) Examples.a_node [Examples.a_node]).
  - reflexivity.
  - vm_compute. discriminate.
  - vm_compute. reflexivity.
  - reflexivity.
  - reflexivity.
  - reflexivity.
  - reflexivity.
  - reflexivity.
  - apply Rleb_le. simpl. lra.
  - apply Rleb_le. simpl. lra.
  - apply Rleb_le. simpl. rewrite std_max_Rmax, Rmax_left by lra.
    unfold Rdiv. lra.
  - intros k t Hk Hlen. simpl in Hlen. lia.
Defined.

(** ** The slots of [outputs] a CUBICSPLINE segment depends on *)

Section Slots.

Context {F : Type} `{FloatArith F}.
Import Wrap.

Lemma at_insert_ne (l : list F) (k : nat) (x : F) (j : Z) :
  Z.to_nat j <> k -> at_ (<[k := x]> l) j = at_ l j.
Proof. intros Hne. unfold at_. apply list_lookup_insert_ne. congruence. Qed.

Lemma at_insert_is_None (l : list F) (k : nat) (x : F) (j : Z) :
  at_ (<[k := x]> l) j = None <-> at_ l j = None.
Proof.
  unfold at_. rewrite !lookup_ge_None, length_insert. reflexivity.
Qed.

Lemma cubic_component_slot (s : AnimationSampler F) (k : nat) (x : F)
    (delta t : F) (current next stride c : Z) (pt : vec4 F) :
  0 <= current -> 0 <= next -> 0 <= c < stride ->
  current + 3 * stride < 2 ^ 32 -> next + 3 * stride < 2 ^ 32 ->
  ~ (current <= Z.of_nat k < current + 2 * stride) ->
  ~ (next + stride <= Z.of_nat k < next + 2 * stride) ->
  cubic_component (mkSampler (interpolation s) (inputs s) (outputsVec4 s)
     (<[k := x]> (outputs s))) delta t current next stride c pt
  = cubic_component s delta t current next stride c pt.
Proof.
  intros Hcur Hnext Hc Hcfit Hnfit Hk1 Hk2. unfold cubic_component.
  cbn [outputs].
  rewrite !(uint32_small (stride * 1)), !(uint32_small (stride * 2)) by lia.
  rewrite !(uint32_small (current + c)), !(uint32_small (next + c)) by lia.
  rewrite !(uint32_small (current + c + stride * 1)) by lia.
  rewrite !(uint32_small (current + c + 0)) by lia.
  rewrite !(uint32_small (next + c + stride * 1)) by lia.
  rewrite !(uint32_small (next + c + stride * 2)) by lia.
  rewrite (at_insert_ne _ k x (current + c + stride * 1)) by lia.
  rewrite (at_insert_ne _ k x (current + c + 0)) by lia.
  rewrite (at_insert_ne _ k x (next + c + stride * 1)) by lia.
  destruct (at_ (outputs s) (current + c + stride * 1)) as [p0|]; [|reflexivity].
  destruct (at_ (outputs s) (current + c + 0)) as [a0|]; [|reflexivity].
  destruct (at_ (outputs s) (next + c + stride * 1)) as [p1|]; [|reflexivity].
  simpl.
  destruct (at_ (outputs s) (next + c + stride * 2)) as [b1|] eqn:Hb.
  - destruct (at_ (<[k := x]> (outputs s)) (next + c + stride * 2)) as [b1'|] eqn:Hb';
      [reflexivity|].
    apply (proj1 (at_insert_is_None _ k x _)) in Hb'. congruence.
  - apply (proj2 (at_insert_is_None _ k x _)) in Hb. rewrite Hb. reflexivity.
Qed.

Lemma cubic_components_slot (s : AnimationSampler F) (k : nat) (x : F)
    (delta t : F) (current next stride : Z) (n : nat) (c : Z) (pt : vec4 F) :
  0 <= current -> 0 <= next -> 0 <= c -> c + Z.of_nat n <= stride ->
  current + 3 * stride < 2 ^ 32 -> next + 3 * stride < 2 ^ 32 ->
  ~ (current <= Z.of_nat k < current + 2 * stride) ->
  ~ (next + stride <= Z.of_nat k < next + 2 * stride) ->
  cubic_components (mkSampler (interpolation s) (inputs s) (outputsVec4 s)
     (<[k := x]> (outputs s))) delta t current next stride n c pt
  = cubic_components s delta t current next stride n c pt.
Proof.
  intros Hcur Hnext Hc Hn Hcfit Hnfit Hk1 Hk2. revert c pt Hc Hn.
  induction n as [|n IH]; intros c pt Hc Hn; simpl; [reflexivity|].
  rewrite cubic_component_slot by (auto; lia).
  destruct (cubic_component s delta t current next stride c pt) as [pt'|];
    simpl; [|reflexivity].
  rewrite uint32_small by lia. apply IH; lia.
Qed.

End Slots.

(** X18.  What a CUBICSPLINE segment depends on: the result of
    [cubicSplineInterpolation] for the segment [index] is the same whatever
    float is stored in a slot of [outputs] outside the in-tangent and the
    value of the keyframe [index] and the value of the keyframe [index + 1].
    Neither tangent of the keyframe [index + 1] nor the out-tangent of the
    keyframe [index] has any influence on it. *)
Theorem cubic_ignores_end_tangents {F : Type} `{FloatArith F}
    (s : AnimationSampler F) (index : Z) (time : F) (stride : Z)
    (k : nat) (x : F)
    (Hindex : 0 <= index) (Hstride : 0 < stride)
    (Hfits : (index + 2) * stride * 3 < 2 ^ 32)
    (Hcurrent : ~ (index * stride * 3 <= Z.of_nat k
                   < index * stride * 3 + 2 * stride))
    (Hnext : ~ ((index + 1) * stride * 3 + stride <= Z.of_nat k
                < (index + 1) * stride * 3 + 2 * stride)) :
  cubicSplineInterpolation
    (mkSampler (interpolation s) (inputs s) (outputsVec4 s)
       (<[k := x]> (outputs s))) index time stride
  = cubicSplineInterpolation s index time stride.
Proof.
  unfold cubicSplineInterpolation, cubicSplineInterpolation_from.
  change (cubic_delta (mkSampler (interpolation s) (inputs s) (outputsVec4 s)
     (<[k := x]> (outputs s))) index) with (cubic_delta s index).
  change (cubic_t (mkSampler (interpolation s) (inputs s) (outputsVec4 s)
     (<[k := x]> (outputs s))) index time) with (cubic_t s index time).
  destruct (cubic_delta s index) as [delta|]; simpl; [|reflexivity].
  destruct (cubic_t s index time) as [t|]; simpl; [|reflexivity].
  assert (0 <= index * stride) by nia.
  assert (index * stride * 3 + 6 * stride < 2 ^ 32) by nia.
  rewrite (size_t_small (index + 1)) by nia.
  rewrite (size_t_small (index * stride)) by nia.
  rewrite (size_t_small ((index + 1) * stride)) by nia.
  rewrite (size_t_small (index * stride * 3)) by nia.
  rewrite (size_t_small ((index + 1) * stride * 3)) by nia.
  rewrite (uint32_small (index * stride * 3)) by nia.
  rewrite (uint32_small ((index + 1) * stride * 3)) by nia.
  apply cubic_components_slot; auto; nia.
Qed.

Lemma cubic_ignores_end_tangents_witness :
  cubicSplineInterpolation
    (mkSampler (interpolation Examples.hermite_track)
       (inputs Examples.hermite_track) (outputsVec4 Examples.hermite_track)
       (<[9%nat := 100%R]> (outputs Examples.hermite_track))) 0 (1 / 2)%R 3
  = cubicSplineInterpolation Examples.hermite_track 0 (1 / 2)%R 3.
Proof.
  apply (cubic_ignores_end_tangents Examples.hermite_track 0 (1 / 2)%R 3
           9%nat 100%R); lia.
Defined.
